(** * MEAN-partite: multi-objective community detection in bipartite graphs

    A shallow embedding of [moo/multicriteria.py] (and, from
    [moo/contestant.py], of the base class and of the dissimilarity matrix
    of ComDetMultiLevel) together with the properties of its encoding,
    fitness evaluation, mutation operators, population seeding and result
    collation.

    Conventions of the embedding:
    - Python exceptions are values of [exn]; a computation that may raise
      has type [res A].
    - Python floats are modelled by exact rationals [Q]; rounding and NaN
      are outside the model.
    - Vertex ids are [nat]; genes and other Python integers are [Z].
    - The routines of igraph, pymoo, scikit-learn, cdlib, scikit-bio and
      scikit-network the program calls are fields of the classes
      [IGraph], [Metrics] and [Pymoo]; only [Graph.Bipartite], [clusters],
      the adjacency lists and the edge selection
      [es.select(_source_in=...)], which the program's control flow
      depends on, are modelled concretely.
    - The random generator is a tape of draws from [[0, 1)]. *)

From Stdlib Require Import ZArith QArith Qround String Lia Lqa.
From stdpp Require Import base list.

Local Open Scope Z_scope.

(** ** Exceptions and results *)

Inductive exn : Type :=
  | IndexError
  | ValueError
  | ZeroDivisionError
  | RecursionError
  | AttributeError
  | AssertionError (msg : string).

Inductive res (A : Type) : Type :=
  | Ok (a : A)
  | Raise (e : exn).
Arguments Ok {A} a.
Arguments Raise {A} e.

#[global] Instance res_ret : MRet res := fun _ a => Ok a.
#[global] Instance res_bind : MBind res := fun _ _ f m =>
  match m with
  | Ok a => f a
  | Raise e => Raise e
  end.

(** [assert c, msg] *)
Definition py_assert (c : bool) (msg : string) : res unit :=
  if c then Ok tt else Raise (AssertionError msg).

(** [for a in l: s = f(s, a)], stopping at the first exception. *)
Fixpoint for_each {A S : Type} (f : S -> A -> res S) (s : S) (l : list A) : res S :=
  match l with
  | [] => Ok s
  | a :: l' => s' ← f s a; for_each f s' l'
  end.

(** ** Python sequences *)

(** [l[i]] for a vertex id or loop counter [i]. *)
Definition py_get {A} (l : list A) (i : nat) : res A :=
  match l !! i with
  | Some a => Ok a
  | None => Raise IndexError
  end.

(** [l[i]] for a Python integer [i]: a negative index counts from the end. *)
Definition py_index {A} (l : list A) (i : Z) : res A :=
  let n := Z.of_nat (length l) in
  if 0 <=? i then py_get l (Z.to_nat i)
  else if - n <=? i then py_get l (Z.to_nat (n + i))
  else Raise IndexError.

(** [l[i] = a] *)
Definition py_set {A} (l : list A) (i : nat) (a : A) : res (list A) :=
  if (i <? length l)%nat then Ok (<[i := a]> l) else Raise IndexError.

(** [max(l)] *)
Definition py_max (l : list nat) : res nat :=
  match l with
  | [] => Raise ValueError
  | _ => Ok (max_list l)
  end.

(** [sum(l)] on floats *)
Definition sumQ (l : list Q) : Q := foldl Qplus 0%Q l.

(** [sum(l)] on integers *)
Definition sumZ (l : list Z) : Z := foldl Z.add 0 l.

(** [a / b] on floats *)
Definition py_div (a b : Q) : res Q :=
  if Qeq_bool b 0 then Raise ZeroDivisionError else Ok (a / b)%Q.

(** ** The igraph graph object *)

(** An undirected edge as it was added. *)
Record Edge : Type := { e_from : nat; e_to : nat }.

(** For an undirected graph igraph reports the smaller endpoint as the
    source of an edge and the larger one as its target. *)
Definition source (e : Edge) : nat := Nat.min (e_from e) (e_to e).
Definition target (e : Edge) : nat := Nat.max (e_from e) (e_to e).

(** [vs_VX], [vs_GT] and [vs_name] are the vertex attributes ['VX'], ['GT']
    and ['name']; the vertex count is the length of [vs_VX]. *)
Record Graph : Type := {
  vs_VX : list Z;
  vs_GT : list Z;
  vs_name : list Z;
  es : list Edge
}.

Definition vcount (g : Graph) : nat := length (vs_VX g).

(** Number of edges joining [v] and [u]. *)
Definition multiplicity (g : Graph) (v u : nat) : nat :=
  length (filter (fun e => source e = Nat.min v u /\ target e = Nat.max v u) (es g)).

(** How often [u] occurs in the adjacency list of [v]: once per edge, and
    twice per loop. *)
Definition adjacency_count (g : Graph) (v u : nat) : nat :=
  if Nat.eqb v u then (2 * multiplicity g v u)%nat else multiplicity g v u.

(** [g.neighbors(v)]: the neighbours of [v] by increasing vertex id. *)
Definition neighbors (g : Graph) (v : nat) : list nat :=
  flat_map (fun u => replicate (adjacency_count g v u) u) (seq 0 (vcount g)).

(** [g.get_adjlist()] *)
Definition get_adjlist (g : Graph) : list (list nat) :=
  map (neighbors g) (seq 0 (vcount g)).

(** [g.indegree()]: on an undirected graph, the degree. *)
Definition indegree (g : Graph) : list Z :=
  map (fun l => Z.of_nat (length l)) (get_adjlist g).

(** ** Connected components: [Graph.Bipartite(...)] and [clusters()] *)

Record BGraph : Type := { b_types : list bool; b_edges : list (nat * nat) }.

Definition truthy (z : Z) : bool := negb (z =? 0).

(** [igraph.Graph.Bipartite(types, edges)] refuses an edge with an endpoint
    that is no vertex or with both endpoints on one side. *)
Definition bipartite_edge_ok (types : list bool) (e : nat * nat) : bool :=
  match types !! e.1, types !! e.2 with
  | Some a, Some b => negb (eqb a b)
  | _, _ => false
  end.

Definition Bipartite (types : list Z) (edges : list (nat * nat)) : res BGraph :=
  let ts := map truthy types in
  if forallb (bipartite_edge_ok ts) edges
  then Ok {| b_types := ts; b_edges := edges |}
  else Raise ValueError.

Definition seen_at (seen : list bool) (v : nat) : bool := default false (seen !! v).

(** Does an edge join [v] to a vertex already seen? *)
Definition touches (edges : list (nat * nat)) (seen : list bool) (v : nat) : bool :=
  existsb (fun e => (Nat.eqb e.1 v && seen_at seen e.2) || (Nat.eqb e.2 v && seen_at seen e.1))
          edges.

(** One round of the breadth-first search: every vertex next to a seen one
    becomes seen. *)
Definition spread (edges : list (nat * nat)) (seen : list bool) : list bool :=
  imap (fun v s => s || touches edges seen v) seen.

(** The vertices reached from [s]: [n] rounds exhaust a graph of [n]
    vertices. *)
Definition flood (edges : list (nat * nat)) (n s : nat) : list bool :=
  Nat.iter n (spread edges) (<[s := true]> (replicate n false)).

Record cstate : Type := {
  already_added : list bool;
  membership : list nat;
  no_of_clusters : nat
}.

(** The body of the loop over [first_node] in igraph's component search: an
    unvisited vertex starts a new component, which receives the next id. *)
Definition visit (edges : list (nat * nat)) (n : nat) (st : cstate) (first_node : nat) : cstate :=
  if seen_at (already_added st) first_node then st
  else
    let comp := flood edges n first_node in
    {| already_added := imap (fun v a => a || seen_at comp v) (already_added st);
       membership := imap (fun v c => if seen_at comp v && negb (seen_at (already_added st) v)
                                      then no_of_clusters st else c) (membership st);
       no_of_clusters := S (no_of_clusters st) |}.

(** [t.clusters()]: the loop over all vertices as [first_node]. *)
Definition components (t : BGraph) : cstate :=
  let n := length (b_types t) in
  foldl (visit (b_edges t) n)
        {| already_added := replicate n false;
           membership := replicate n 0%nat;
           no_of_clusters := 0 |}
        (seq 0 n).

(** [t.clusters().membership]: component ids by order of first discovery. *)
Definition clusters (t : BGraph) : list nat := membership (components t).

(** ** Library routines the program calls *)

(** The igraph routines whose results the program only passes on.
    [modularity_weighted pr labels] is
    [pr.modularity(labels, weights=pr.es['weight'])];
    [spanning_tree g w] is [g.spanning_tree(weights=w).get_adjlist()];
    [fastgreedy_cut g k] is
    [g.community_fastgreedy().as_clustering(k).membership]. *)
Class IGraph : Type := {
  Projection : Type;
  is_bipartite : Graph -> bool;
  is_connected : Graph -> bool;
  bipartite_projection : Graph -> Projection * Projection;
  edge_betweenness : Graph -> list Q;
  betweenness : Graph -> list Q;
  modularity : Graph -> list nat -> Q;
  modularity_weighted : Projection -> list nat -> Q;
  spanning_tree : Graph -> list Q -> list (list nat);
  fastgreedy_cut : Graph -> Z -> list nat
}.

(** ** MultiCriteriaProblem *)

Section Problem.
Context {ig : IGraph}.

(** The attributes of a problem instance. [n_obj], [xl] and [xu] are the
    attributes of the pymoo base class, which its constructor sets from its
    arguments; the others are set by [__init__] itself. *)
Record Problem : Type := {
  graph_ : Graph;
  mode_ : string;
  n_var_ : nat;
  n_obj_ : Z;
  n_obj : Z;
  n_constr_ : Z;
  xl_ : list Z;
  xu_ : list Z;
  xl : list Z;
  xu : list Z;
  vertices_ : list Z;
  groundtruth_ : list Z;
  proj0_ : list nat;
  proj1_ : list nat;
  adj_list_ : list (list nat);
  graph_proj1_ : Projection;
  graph_proj2_ : Projection;
  full_weights : list Q;
  weights : list Q;
  prob1 : list Q;
  prob2 : list Q;
  prob3 : list Q
}.

(** [[i for i, val in enumerate(l) if val == c]] *)
Definition indices_of (c : Z) (l : list Z) : list nat :=
  omap (fun iv => if (iv.2 =? c) then Some iv.1 else None) (imap pair l).

(** [[x / total for x in freq]] *)
Definition normalise (freq : list Q) (total : Q) : res (list Q) :=
  for_each (fun acc x => q ← py_div x total; Ok (acc ++ [q])) [] freq.

(** The constructor of the pymoo base class stores its argument [n_obj] in
    the attribute [n_obj], whatever the attribute held before. *)
Definition base_init_n_obj (before : option Z) (n_obj_arg : Z) : Z := n_obj_arg.

Definition MultiCriteriaProblem_init (mode : string) (graph : Graph) : res Problem :=
  _ ← py_assert (is_bipartite graph) "graph must be a bipartite graph";
  _ ← py_assert (is_connected graph)
        "graph must be fully connected (one connected component)";
  _ ← py_assert (negb (Nat.eqb (vcount graph) 0)) "graph must not be empty";
  _ ← py_assert (String.eqb mode "3d" || String.eqb mode "2d" || String.eqb mode "4d")
        "mode needs to be either '4d' or '3d' or '2d'";
  let n_var := vcount graph in
  let n_obj_a := 2 in
  let n_obj_a := if String.eqb mode "3d" then 3 else n_obj_a in
  (* [self.n_obj = 4]: the attribute of the base class, not [n_obj_] *)
  let n_obj_early := if String.eqb mode "4d" then Some 4 else None in
  let xl_a := replicate n_var 0 in
  let xu_a := indegree graph in
  let pr := bipartite_projection graph in
  let fw := edge_betweenness graph in
  let w := betweenness graph in
  let freq1 := map (fun x => if x =? 1 then x - 1 else x) xu_a in
  let freq1_total := sumZ freq1 in
  let freq2 := w in
  let freq2_total := sumQ freq2 in
  let freq3 := zip_with (fun a b => (inject_Z a * b)%Q) xu_a w in
  let freq3_total := sumQ freq3 in
  p1 ← normalise (map inject_Z freq1) (inject_Z freq1_total);
  p2 ← normalise freq2 freq2_total;
  p3 ← normalise freq3 freq3_total;
  (* [super().__init__(n_var=self.n_var_, n_obj=self.n_obj_, ...)] *)
  let n_obj_b := base_init_n_obj n_obj_early n_obj_a in
  Ok {| graph_ := graph; mode_ := mode; n_var_ := n_var;
        n_obj_ := n_obj_a; n_obj := n_obj_b; n_constr_ := 0;
        xl_ := xl_a; xu_ := xu_a; xl := xl_a; xu := xu_a;
        vertices_ := vs_VX graph; groundtruth_ := vs_GT graph;
        proj0_ := indices_of 0 (vs_VX graph); proj1_ := indices_of 1 (vs_VX graph);
        adj_list_ := get_adjlist graph;
        graph_proj1_ := pr.1; graph_proj2_ := pr.2;
        full_weights := fw; weights := w;
        prob1 := p1; prob2 := p2; prob3 := p3 |}.

(** The loop that collects the edges a genome selects. *)
Definition sol_edges (n_var : nat) (adj_list : list (list nat)) (x : list Z)
  : res (list (nat * nat)) :=
  for_each (fun acc i =>
              xi ← py_get x i;
              if 0 <? xi then
                a ← py_get adj_list i;
                j ← py_index a (xi - 1);
                Ok (acc ++ [(i, j)])
              else Ok acc)
           [] (seq 0 n_var).

(** The decoding part of [_evaluate]: the membership list and
    [num_clusters]. *)
Definition decode (p : Problem) (x : list Z) : res (list nat * nat) :=
  edges ← sol_edges (n_var_ p) (adj_list_ p) x;
  t ← Bipartite (vs_VX (graph_ p)) edges;
  let m := clusters t in
  top ← py_max m;
  Ok (m, S top).

(** [[m[i] for i in proj]] *)
Definition labels_of (m : list nat) (proj : list nat) : res (list nat) :=
  for_each (fun acc i => c ← py_get m i; Ok (acc ++ [c])) [] proj.

Definition Qnat (k : nat) : Q := inject_Z (Z.of_nat k).

(** [_evaluate]: the value of [out["F"]] after the call, [None] when no
    branch assigned it. *)
Definition _evaluate (p : Problem) (x : list Z) : res (option (list Q)) :=
  mk ← decode p x;
  let m := mk.1 in
  let num_clusters := mk.2 in
  if String.eqb (mode_ p) "3d" then
    proj0_labels ← labels_of m (proj0_ p);
    proj1_labels ← labels_of m (proj1_ p);
    let modularity_score_1 := modularity_weighted (graph_proj1_ p) proj0_labels in
    let modularity_score_2 := modularity_weighted (graph_proj2_ p) proj1_labels in
    Ok (Some [(- modularity_score_1)%Q; (- modularity_score_2)%Q; Qnat num_clusters])
  else if String.eqb (mode_ p) "4d" then
    proj0_labels ← labels_of m (proj0_ p);
    proj1_labels ← labels_of m (proj1_ p);
    let modularity_score_1 := modularity_weighted (graph_proj1_ p) proj0_labels in
    let modularity_score_2 := modularity_weighted (graph_proj2_ p) proj1_labels in
    let modularity_score := modularity (graph_ p) m in
    Ok (Some [(- modularity_score_1)%Q; (- modularity_score_2)%Q;
              (- modularity_score)%Q; Qnat num_clusters])
  else if String.eqb (mode_ p) "2d" then
    let modularity_score := modularity (graph_ p) m in
    Ok (Some [(- modularity_score)%Q; Qnat num_clusters])
  else Ok None.

End Problem.

(** ** Random numbers *)

(** The generator: an infinite tape of raw draws from [[0, 1)] and the
    position of the next one. *)
Record RandomState : Type := { tape : nat -> Q; cursor : nat }.

Definition next_draw (rs : RandomState) : Q * RandomState :=
  (tape rs (cursor rs), {| tape := tape rs; cursor := S (cursor rs) |}).

(** [np.random.random()] and [np.random.uniform()] *)
Definition random (rs : RandomState) : Q * RandomState := next_draw rs.

(** [np.random.randint(low, high)]: uniform on [low .. high - 1]. *)
Definition randint (low high : Z) (rs : RandomState) : res (Z * RandomState) :=
  if low <? high then
    let ur := next_draw rs in
    Ok (low + Qfloor (ur.1 * inject_Z (high - low)), ur.2)
  else Raise ValueError.

Definition Qltb (a b : Q) : bool := negb (Qle_bool b a).

(** [X[i, l] = v] on a matrix *)
Definition set_gene (X : list (list Z)) (i l : nat) (v : Z) : res (list (list Z)) :=
  row ← py_get X i;
  row' ← py_set row l v;
  py_set X i row'.

(** ** Mutation operators *)

Section Mutation.
Context {ig : IGraph}.

(** [PizMutation._do] *)
Definition PizMutation_do (problem : Problem) (X : list (list Z)) (rs : RandomState)
  : res (list (list Z) * RandomState) :=
  prob ← py_div 1 (Qnat (length X));
  for_each (fun st i =>
      row ← py_get st.1 i;
      for_each (fun st l =>
          let rr := random st.2 in
          if Qltb rr.1 prob then
            lo ← py_get (xl problem) l;
            hi ← py_get (xu problem) l;
            vr ← randint (lo + 1) (hi + 1) rr.2;
            X' ← set_gene st.1 i l vr.1;
            Ok (X', vr.2)
          else Ok (st.1, rr.2))
        st (seq 0 (length row)))
    (X, rs) (seq 0 (length X)).

(** The edge sequence [graph_.es] with its attribute ["bs"]. *)
Definition EdgeSeq : Type := list (Edge * Q).

Definition graph_es (problem : Problem) : EdgeSeq :=
  zip (es (graph_ problem)) (full_weights problem).

(** [edges.select(_source_in = sel)]. On an undirected graph python-igraph
    treats [_source] and [_target] as [_incident]: the edges kept are
    those of [edges] with an end in [sel], in their order. *)
Definition select_source_in (sel : list nat) (edges : EdgeSeq) : EdgeSeq :=
  filter (fun eb => e_from eb.1 ∈ sel \/ e_to eb.1 ∈ sel) edges.

(** [edges["bs"]] *)
Definition attr_bs (edges : EdgeSeq) : list Q := map snd edges.

(** The value an integer array holds after a float was assigned to one of
    its cells. *)
Definition Qtrunc (q : Q) : Z := Z.quot (Qnum q) (Zpos (Qden q)).

(** The value [p] of the walk at neighbour [nb] of the mutated vertex. *)
Definition walk_p (edges : EdgeSeq) (total : Q) (nb : nat) : res Q :=
  let edge := select_source_in [nb] edges in
  let edge_p_h := Qtrunc (sumQ (attr_bs edge)) in
  py_div (inject_Z edge_p_h) total.

(** The loop [for h in range(0, len(adj_list_[l]))] with its [break]:
    [hs] are the values of [h] still to come. *)
Fixpoint hoc_walk (edges : EdgeSeq) (adj_l : list nat) (total rnd : Q)
    (hs : list nat) (cp : Q) (v : Z) : res Z :=
  match hs with
  | [] => Ok v
  | h :: hs' =>
      nb ← py_get adj_l h;
      p ← walk_p edges total nb;
      let cp := (cp + p)%Q in
      if Qltb rnd cp then Ok (Z.of_nat h + 1)
      else hoc_walk edges adj_l total rnd hs' cp v
  end.

(** The body of [if r < problem.prob2[l]:] up to the value written to
    [X[i, l]]. *)
Definition hoc_new_gene (problem : Problem) (l : nat) (rs : RandomState)
  : res (Z * RandomState) :=
  lo ← py_get (xl problem) l;
  hi ← py_get (xu problem) l;
  vr ← randint (lo + 1) (hi + 1) rs;
  let edges := select_source_in [l] (graph_es problem) in
  let total := sumQ (attr_bs edges) in
  adj_l ← py_get (adj_list_ problem) l;
  let rr := random vr.2 in
  v ← hoc_walk edges adj_l total rr.1 (seq 0 (length adj_l)) 0%Q vr.1;
  Ok (v, rr.2).

(** [HOCMutation._do] *)
Definition HOCMutation_do (problem : Problem) (X : list (list Z)) (rs : RandomState)
  : res (list (list Z) * RandomState) :=
  for_each (fun st i =>
      row ← py_get st.1 i;
      for_each (fun st l =>
          let rr := random st.2 in
          pl ← py_get (prob2 problem) l;
          if Qltb rr.1 pl then
            vr ← hoc_new_gene problem l rr.2;
            X' ← set_gene st.1 i l vr.1;
            Ok (X', vr.2)
          else Ok (st.1, rr.2))
        st (seq 0 (length row)))
    (X, rs) (seq 0 (length X)).

End Mutation.

(** What the walk computes, as functions: the weights it adds up, by
    position in the adjacency list, and the first position, counted from
    [h], at which the running sum of [ps] started at [cp] exceeds [rnd]. *)
Definition walk_weights (edges : EdgeSeq) (total : Q) (adj_l : list nat) : list Q :=
  map (fun nb => (inject_Z (Qtrunc (sumQ (attr_bs (select_source_in [nb] edges)))) / total)%Q)
      adj_l.

Fixpoint first_exceeding (rnd cp : Q) (h : nat) (ps : list Q) : option nat :=
  match ps with
  | [] => None
  | p :: ps' =>
      let cp := (cp + p)%Q in
      if Qltb rnd cp then Some h else first_exceeding rnd cp (S h) ps'
  end.

(** ** Population seeding *)

(** The arrays [recursive_links] writes to. *)
Record Links : Type := {
  lx : list Z;
  temp_edges : list (nat * nat);
  binary_links : list Z
}.

(** The body of the loop over [j] in [recursive_links]. *)
Definition draw_link (a_node : list nat) (node_index node_origin : nat)
    (st : Links) (j : nat) : res Links :=
  aj ← py_get a_node j;
  if Nat.eqb aj node_origin then
    x' ← py_set (lx st) node_index (Z.of_nat j + 1);
    b' ← py_set (binary_links st) node_index (Z.of_nat node_origin);
    Ok {| lx := x'; temp_edges := temp_edges st ++ [(node_index, node_origin)];
          binary_links := b' |}
  else Ok st.

(** [recursive_links]; [depth] is the number of nested calls the
    interpreter still allows. *)
Fixpoint recursive_links (depth : nat) (a mst : list (list nat))
    (node_index node_origin : nat) (st : Links) : res Links :=
  match depth with
  | O => Raise RecursionError
  | S depth' =>
      xn ← py_get (lx st) node_index;
      if negb (xn =? -1) then Ok st
      else
        a_node ← py_get a node_index;
        st1 ← for_each (draw_link a_node node_index node_origin) st
                 (seq 0 (length a_node));
        m_node ← py_get mst node_index;
        for_each (fun st i =>
                    child ← py_get m_node i;
                    recursive_links depth' a mst child node_index st)
                 st1 (seq 0 (length m_node))
  end.

Section Seeding.
Context {ig : IGraph}.

(** The body of the loop over [i] that translates the spanning tree into a
    genome. *)
Definition seed_vertex (depth : nat) (a mst : list (list nat)) (st : Links) (i : nat)
  : res Links :=
  xi ← py_get (lx st) i;
  if xi =? -1 then
    x' ← py_set (lx st) i 0;
    let st0 := {| lx := x'; temp_edges := temp_edges st;
                  binary_links := binary_links st |} in
    m_i ← py_get mst i;
    for_each (fun st j =>
                child ← py_get m_i j;
                recursive_links depth a mst child i st)
             st0 (seq 0 (length m_i))
  else Ok st.

(** Step 1 of the default branch of [initialize_pop]: the genome [x]
    derived from the spanning tree. *)
Definition mst_genome (depth : nat) (problem : Problem) : res (list Z) :=
  let n_var := n_var_ problem in
  let t := spanning_tree (graph_ problem) (edge_betweenness (graph_ problem)) in
  st ← for_each (seed_vertex depth (adj_list_ problem) t)
          {| lx := replicate n_var (-1); temp_edges := [];
             binary_links := replicate n_var (-1) |}
          (seq 0 n_var);
  Ok (lx st).

(** The body of the loop over [j] in the diversity phase, on row [ctr]. *)
Definition cut_gene (problem : Problem) (test : list nat) (ctr : nat)
    (pop : list (list Z)) (j : nat) : res (list (list Z)) :=
  row ← py_get pop ctr;
  g ← py_get row j;
  crossing ←
    (if g =? 0 then Ok false
     else
       a_j ← py_get (adj_list_ problem) j;
       nb ← py_index a_j (g - 1);
       t_nb ← py_get test nb;
       t_j ← py_get test j;
       Ok (negb (Nat.eqb t_nb t_j)));
  if (crossing : bool) then
    d ← py_get (xu_ problem) j;
    if 1 <? d then set_gene pop ctr j 0 else Ok pop
  else Ok pop.

(** Step 3: the loop [while k <= min(popsize, n_var)], with [ctr = k - 1]. *)
Definition diversify (problem : Problem) (popsize : nat) (pop : list (list Z))
  : res (list (list Z)) :=
  let n_var := n_var_ problem in
  r ← for_each (fun st k =>
          let test := fastgreedy_cut (graph_ problem) (Z.of_nat k) in
          pop' ← for_each (cut_gene problem test st.2) st.1 (seq 0 n_var);
          Ok (pop', S st.2))
        (pop, 1%nat) (seq 2 (Nat.min popsize n_var - 1));
  Ok r.1.

(** The branch ['pizzuti'] of [initialize_pop]: every gene drawn at random. *)
Definition initialize_pop_pizzuti (problem : Problem) (popsize : nat) (rs : RandomState)
  : res (list (list Z) * RandomState) :=
  let n_var := n_var_ problem in
  let pop := replicate popsize (replicate n_var (-1)) in
  for_each (fun st ctr =>
      for_each (fun st i =>
          a_i ← py_get (adj_list_ problem) i;
          vr ← randint 1 (Z.of_nat (length a_i) + 1) st.2;
          pop' ← set_gene st.1 ctr i vr.1;
          Ok (pop', vr.2))
        st (seq 0 n_var))
    (pop, rs) (seq 0 popsize).

(** The default branch of [initialize_pop]: the value of [self.pop_]. *)
Definition initialize_pop (depth : nat) (problem : Problem) (popsize : nat)
  : res (list (list Z)) :=
  x ← mst_genome depth problem;
  let pop := replicate popsize x in
  diversify problem popsize pop.

End Seeding.

(** ** Metrics on a biadjacency matrix *)

(** A sparse biadjacency matrix: its shape and the coordinates of its
    stored entries ([badj.tocoo().row], [badj.tocoo().col]). *)
Record Badj : Type := { shape0 : nat; shape1 : nat; coo : list (nat * nat) }.

(** [(i, j) in edges] *)
Definition has_edge (edges : list (nat * nat)) (i j : nat) : bool :=
  existsb (fun e => Nat.eqb e.1 i && Nat.eqb e.2 j) edges.

(** [bi_performance] *)
Definition bi_performance (badj : Badj) (communities : list nat) : res Q :=
  let poss_edges := (shape0 badj * shape1 badj)%nat in
  let edges := coo badj in
  perf_pairs ←
    for_each (fun perf_pairs i =>
        for_each (fun perf_pairs j =>
            ci ← py_get communities i;
            cj ← py_get communities (shape0 badj + j);
            if (has_edge edges i j && Nat.eqb ci cj)
               || (negb (has_edge edges i j) && negb (Nat.eqb ci cj))
            then Ok (S perf_pairs) else Ok perf_pairs)
          perf_pairs (seq 0 (shape1 badj)))
      0%nat (seq 0 (shape0 badj));
  py_div (Qnat perf_pairs) (Qnat poss_edges).

(** [np.argmax(row)]: the first position of the largest entry. *)
Fixpoint argmax_from (best : nat) (bestv : Q) (i : nat) (row : list Q) : nat :=
  match row with
  | [] => best
  | v :: row' =>
      if Qltb bestv v then argmax_from i v (S i) row'
      else argmax_from best bestv (S i) row'
  end.

Definition argmax (row : list Q) : nat :=
  match row with
  | [] => 0%nat
  | v :: row' => argmax_from 0 v 1 row'
  end.

Definition cell (e : list (list Q)) (i j : nat) : Q :=
  default 0%Q (row ← e !! i; row !! j).

(** [modularity_murata]. numpy divides by zero without raising; the NaN it
    yields on a matrix without entries is outside the model. *)
Definition modularity_murata (badj : Badj) (communities : list nat) : res Q :=
  top ← py_max communities;
  let k := S top in
  let zeros := replicate k (replicate k 0%Q) in
  e ← for_each (fun e st =>
          l ← py_get communities st.1;
          m ← py_get communities (st.2 + shape0 badj);
          Ok (alter (alter (fun c => (c + 1)%Q) m) l e))
        zeros (coo badj);
  let total := (2 * sumQ (map sumQ e))%Q in
  let e := map (map (fun c => (c / total)%Q)) e in
  let a := map sumQ e in
  Ok (foldl (fun q i =>
               let j := argmax (default [] (e !! i)) in
               (q + (cell e i j - default 0%Q (a !! i) * default 0%Q (a !! j)))%Q)
            0%Q (seq 0 (length e))).

(** The metric routines of scikit-learn, scikit-network, cdlib and
    scikit-bio. *)
Class Metrics : Type := {
  adjusted_rand_score : list Z -> list nat -> Q;
  edgelist2biadjacency : list (nat * nat) -> res Badj;
  bimodularity : Badj -> list nat -> list nat -> Q;
  conductance : Graph -> list (list nat) -> Q;
  edges_inside : Graph -> list (list nat) -> Q;
  gini_index : list nat -> Q
}.

(** [make_badj] *)
Definition make_badj {mt : Metrics} (graph : Graph) : res Badj :=
  vm ← for_each (fun st i =>
          nm ← py_get (vs_name graph) i;
          let '(vertex_map, lid, uid) := st in
          if nm =? 1 then Ok (vertex_map ++ [uid], lid, S uid)
          else Ok (vertex_map ++ [lid], S lid, uid))
        ([], 0%nat, 0%nat) (seq 0 (vcount graph));
  let vertex_map := vm.1.1 in
  let vertex_type := vs_name graph in
  let edge_list := map (fun e => (source e, target e)) (es graph) in
  edge_list ← for_each (fun acc st =>
                  ty ← py_get vertex_type st.2;
                  Ok (acc ++ [if truthy ty then (st.1, st.2) else (st.2, st.1)]))
                [] edge_list;
  edge_list ← for_each (fun acc st =>
                  s ← py_get vertex_map st.1;
                  t ← py_get vertex_map st.2;
                  Ok (acc ++ [(s, t)]))
                [] edge_list;
  edgelist2biadjacency edge_list.

(** ** Result records *)

(** The values a result tuple holds. *)
Inductive pyval : Type :=
  | PStr (s : string)
  | PInt (z : Z)
  | PFloat (q : Q).

(** Python's [==] on these values. *)
Definition pyval_eqb (a b : pyval) : bool :=
  match a, b with
  | PStr s, PStr t => String.eqb s t
  | PInt y, PInt z => y =? z
  | PInt y, PFloat q => Qeq_bool (inject_Z y) q
  | PFloat q, PInt z => Qeq_bool q (inject_Z z)
  | PFloat q, PFloat r => Qeq_bool q r
  | _, _ => false
  end.

(** Python's [==] on tuples. *)
Fixpoint tuple_eqb (s t : list pyval) : bool :=
  match s, t with
  | [], [] => true
  | a :: s', b :: t' => pyval_eqb a b && tuple_eqb s' t'
  | _, _ => false
  end.

(** [set(l)]: a value equal to one already present is not added. The order
    of a Python set is unspecified; the model keeps the order of insertion. *)
Definition set_add (s : list (list pyval)) (t : list pyval) : list (list pyval) :=
  if existsb (tuple_eqb t) s then s else s ++ [t].

Definition set_of (l : list (list pyval)) : list (list pyval) := foldl set_add [] l.

Definition cols : list string :=
  ["name"; "num_clusters"; "modularity_score"; "modularity_score_1";
   "modularity_score_2"; "adj_rand_index"; "modularity_score_barber";
   "conductance"; "coverage"; "performance"; "gini"; "modularity_score_murata"]%string.

(** A result record: [{k: v for k, v in zip(cols, value)}]. *)
Definition ResultRecord : Type := list (string * pyval).

Definition record_of (value : list pyval) : ResultRecord := zip cols value.

(** The metric tuple of a record, by column. *)
Definition metric_tuple (r : ResultRecord) : list pyval := map snd r.

(** ** The evolutionary engine *)

Inductive MutationOp : Type := HOCMutation | PizMutation | IntPM.

(** One entry of [res.history]: [algo.evaluator.n_eval], [algo.opt.get("F")]
    and [algo.opt.get("feasible")]. *)
Record Snapshot : Type := {
  n_eval : Z;
  opt_F : list (list Q);
  opt_feasible : list bool
}.

(** What [minimize] returns: the final genomes [res.X] and [res.history],
    which is empty unless the history was saved. *)
Record EngineResult : Type := { res_X : list (list Z); res_history : list Snapshot }.

(** [minimize problem sampling mutation termination seed save_history] and
    [Hypervolume(ref_point, ideal, nadir).do(F)] of pymoo. *)
Class Pymoo {ig : IGraph} : Type := {
  minimize : Problem -> list (list Z) -> MutationOp -> option Z -> option Z -> bool
             -> EngineResult;
  hypervolume : list Q -> list Q -> list Q -> list (list Q) -> Q
}.

(** ** ComDetMultiCriteria *)

(** The dictionary [params] as the caller passes it: [None] is an absent or
    [None] entry. *)
Record RawParams : Type := {
  raw_mode : option string;
  raw_popsize : option nat;
  raw_termination : option Z;
  raw_save_history : option bool;
  raw_seed : option Z;
  raw_initialization : option string;
  raw_mutation : option string
}.

(** [params_] after the constructor has filled in the defaults; the
    defaults of ['termination'] and ['seed'] are [None]. *)
Record Params : Type := {
  mode : string;
  popsize : nat;
  termination : option Z;
  save_history : bool;
  seed : option Z;
  initialization : string;
  mutation : string
}.

Section Detector.
Context {ig : IGraph} {pm : Pymoo} {mt : Metrics}.

(** The attributes of a detector. [None] is an attribute not yet set;
    [dgraph_] is the attribute [graph_]. *)
Record Detector : Type := {
  name_ : string;
  params_ : Params;
  min_num_clusters_ : Z;
  max_num_clusters_ : Z;
  dgraph_ : option Graph;
  results_ : list ResultRecord;
  problem_ : option Problem;
  pop_ : list (list Z);
  res_ : option EngineResult
}.

Definition str_in (s : string) (l : list string) : bool := existsb (String.eqb s) l.

(** [ComDetMultiCriteria.__init__]; the base class sets [results_ = []].
    The last message, which quotes the two numbers, is shortened. *)
Definition ComDetMultiCriteria_init (name : string) (params : RawParams)
    (min_num_clusters max_num_clusters : Z) : res Detector :=
  let ps := {| mode := default "3d"%string (raw_mode params);
               popsize := default 50%nat (raw_popsize params);
               termination := raw_termination params;
               save_history := default true (raw_save_history params);
               seed := raw_seed params;
               initialization := default ""%string (raw_initialization params);
               mutation := default ""%string (raw_mutation params) |} in
  _ ← py_assert (str_in (initialization ps) ["pizzuti"; ""]%string)
        "Valid initialization options are: 'pizzuti', ''";
  _ ← py_assert (str_in (mutation ps) ["pizzuti"; "int_pm"; ""]%string)
        "Valid mutation options are: 'pizzuti', 'int_pm', ''";
  _ ← py_assert ((1 <=? min_num_clusters) && (min_num_clusters <=? max_num_clusters))
        "The minimum and maximum cluster numbers are not valid";
  Ok {| name_ := name; params_ := ps;
        min_num_clusters_ := min_num_clusters; max_num_clusters_ := max_num_clusters;
        dgraph_ := None; results_ := []; problem_ := None; pop_ := []; res_ := None |}.

(** [[[] for i in range(k)]] filled by [communities[lab].append(i)], then
    stripped of its empty lists. *)
Definition communities_of (k : nat) (m : list nat) : res (list (list nat)) :=
  cs ← for_each (fun cs il =>
          c ← py_get cs il.2;
          Ok (<[il.2 := c ++ [il.1]]> cs))
        (replicate k []) (imap pair m);
  Ok (filter (fun c => c <> []) cs).

(** The body of the loop over the final genomes in [collate_results]: the
    result tuple of genome [x]. *)
Definition collate_one (name : string) (graph : Graph) (problem : Problem) (badj : Badj)
    (x : list Z) : res (list pyval) :=
  edges ← sol_edges (n_var_ problem) (adj_list_ problem) x;
  t ← Bipartite (vertices_ problem) edges;
  let c := components t in
  let m := membership c in
  let modularity_score := modularity graph m in
  let adj_rand_index := adjusted_rand_score (groundtruth_ problem) m in
  proj0_labels ← labels_of m (proj0_ problem);
  proj1_labels ← labels_of m (proj1_ problem);
  let modularity_score_barber := bimodularity badj proj0_labels proj1_labels in
  modularity_score_murata ← modularity_murata badj (proj0_labels ++ proj1_labels);
  let modularity_score_1 := modularity_weighted (graph_proj1_ problem) proj0_labels in
  let modularity_score_2 := modularity_weighted (graph_proj2_ problem) proj1_labels in
  top_label ← py_max (proj0_labels ++ proj1_labels);
  communities ← communities_of (S top_label) m;
  let conductance_score := conductance graph communities in
  let coverage := edges_inside graph communities in
  performance ← bi_performance badj (proj0_labels ++ proj1_labels);
  let gini := gini_index (map length communities) in
  Ok [PStr name; PInt (Z.of_nat (no_of_clusters c)); PFloat modularity_score;
      PFloat modularity_score_1; PFloat modularity_score_2; PFloat adj_rand_index;
      PFloat modularity_score_barber; PFloat conductance_score; PFloat coverage;
      PFloat performance; PFloat gini; PFloat modularity_score_murata].

(** [collate_results]: the value of [self.results_]. *)
Definition collate_results (name : string) (graph : Graph) (problem : Problem)
    (X : list (list Z)) : res (list ResultRecord) :=
  badj ← make_badj graph;
  temp_results ← for_each (fun acc x =>
                     result ← collate_one name graph problem badj x;
                     Ok (acc ++ [result]))
                   [] X;
  let results_set := set_of temp_results in
  Ok (map record_of results_set).

(** [define_algo]: the choice of the mutation operator. *)
Definition define_algo (ps : Params) : MutationOp :=
  let mut := HOCMutation in
  let mut := if String.eqb (mutation ps) "pizzuti" then PizMutation else mut in
  if String.eqb (mutation ps) "int_pm" then IntPM else mut.

(** [detect_communities]: the checks of [check_graph], then the steps of
    the detection. [depth] bounds the recursion of the seeding and [rs] is
    the generator the random seeding draws from. *)
Definition detect_communities (depth : nat) (rs : RandomState) (self : Detector)
    (graph : Graph) : res Detector :=
  _ ← py_assert (is_bipartite graph) "graph must be a bipartite graph";
  _ ← py_assert (is_connected graph)
        "graph must be fully connected (one connected component)";
  _ ← py_assert (negb (Nat.eqb (vcount graph) 0)) "graph must not be empty";
  let ps := params_ self in
  problem ← MultiCriteriaProblem_init (mode ps) graph;
  pop ← (if String.eqb (initialization ps) "pizzuti"
         then pr ← initialize_pop_pizzuti problem (popsize ps) rs; Ok pr.1
         else initialize_pop depth problem (popsize ps));
  let r := minimize problem pop (define_algo ps) (termination ps) (seed ps)
                    (save_history ps) in
  results ← collate_results (name_ self) graph problem (res_X r);
  Ok {| name_ := name_ self; params_ := ps;
        min_num_clusters_ := min_num_clusters_ self;
        max_num_clusters_ := max_num_clusters_ self;
        dgraph_ := Some graph; results_ := results; problem_ := Some problem;
        pop_ := pop; res_ := Some r |}.

(** [opt.get("F")[feas]]: the rows of the feasible solutions. *)
Definition feasible_rows (s : Snapshot) : list (list Q) :=
  omap (fun fb => if (fb.2 : bool) then Some fb.1 else None)
       (zip (opt_F s) (opt_feasible s)).

(** [compute_hypervolume]: the pair [(n_evals_, hv_)] it returns. *)
Definition compute_hypervolume (self : Detector) : res (list Z * list Q) :=
  _ ← py_assert (negb (Nat.eqb (length (results_ self)) 0))
        "Results are not generated yet, please run the community detection first!";
  _ ← py_assert (save_history (params_ self))
        " History is not saved, not possible to calculate the hypervolume indicator!";
  r ← match res_ self with Some r => Ok r | None => Raise AttributeError end;
  problem ← match problem_ self with Some p => Ok p | None => Raise AttributeError end;
  let hist := res_history r in
  let n_evals := map n_eval hist in
  let hist_F := map feasible_rows hist in
  let n := Qnat (n_var_ problem) in
  let bounds :=
    if String.eqb (mode (params_ self)) "3d" then
      ([-1; -1; 1]%Q, [1; 1; n]%Q)
    else if String.eqb (mode (params_ self)) "4d" then
      ([-1; -1; -1; 1]%Q, [1; 1; 1; n]%Q)
    else ([-1; 1]%Q, [1; n]%Q) in
  let approx_ideal := bounds.1 in
  let approx_nadir := bounds.2 in
  let ref_point := map (fun c => (c + (1 # 1000))%Q) approx_nadir in
  Ok (n_evals, map (hypervolume ref_point approx_ideal approx_nadir) hist_F).

End Detector.

(** ** The spec's formulas, for comparison with the code *)

(** The number of elements of [l] that satisfy [f]. *)
Definition count_if {A} (f : A -> bool) (l : list A) : nat := length (List.filter f l).

Definition label (communities : list nat) (v : nat) : nat := default 0%nat (communities !! v).

(** "Count a pair correct if (edge(i,j) exists and same community) or (no
    edge and different community)", for lower vertex [i] and upper vertex
    [j], whose label is at position [|Lower| + j]. *)
Definition correct_pair (badj : Badj) (communities : list nat) (ij : nat * nat) : bool :=
  let same := Nat.eqb (label communities ij.1) (label communities (shape0 badj + ij.2)) in
  (has_edge (coo badj) ij.1 ij.2 && same) || (negb (has_edge (coo badj) ij.1 ij.2) && negb same).

(** "performance = correct_pairs / (|Lower| * |Upper|)" over all pairs. *)
Definition performance_spec (badj : Badj) (communities : list nat) : Q :=
  (Qnat (count_if (correct_pair badj communities)
                  (list_prod (seq 0 (shape0 badj)) (seq 0 (shape1 badj))))
   / Qnat (shape0 badj * shape1 badj))%Q.

(** The betweenness of the edges that join [l] and [nb]. *)
Definition incident_bs (edges : EdgeSeq) (l nb : nat) : Q :=
  sumQ (attr_bs (filter (fun eb => source eb.1 = Nat.min l nb /\ target eb.1 = Nat.max l nb)
                        edges)).

(** "Cumulative sampling over vertex l's incident edges weighted by
    edge_p[h] = betweenness(edge_h) / sum of betweennesses: the first index
    whose cumulative probability exceeds the draw, the last index as
    fallback." *)
Definition spec_choice (edges : EdgeSeq) (l : nat) (adj_l : list nat) (rnd : Q) : Z :=
  let ws := map (incident_bs edges l) adj_l in
  let total := sumQ ws in
  match first_exceeding rnd 0 0 (map (fun w => (w / total)%Q) ws) with
  | Some h => Z.of_nat h + 1
  | None => Z.of_nat (length adj_l)
  end.

(** ** Conditions on graphs and genomes *)

(** Every edge joins two vertices, one whose ['VX'] is zero and one whose
    ['VX'] is not. *)
Definition two_sided (g : Graph) : Prop :=
  forall e, e ∈ es g ->
    bipartite_edge_ok (map truthy (vs_VX g)) (e_from e, e_to e) = true.

(** One gene per vertex, each in [[0, deg(i)]]. *)
Definition in_range (adj_list : list (list nat)) (x : list Z) : Prop :=
  length x = length adj_list /\
  forall i g a, x !! i = Some g -> adj_list !! i = Some a ->
                0 <= g <= Z.of_nat (length a).

(** No selected edge ends at [v]. *)
Definition isolated (edges : list (nat * nat)) (v : nat) : Prop :=
  forall e, e ∈ edges -> e.1 <> v /\ e.2 <> v.

(** [v] can be reached from [r] along the adjacency list [t]. *)
Inductive tree_reach (t : list (list nat)) (r : nat) : nat -> Prop :=
  | tree_reach_root : tree_reach t r r
  | tree_reach_step u v tu :
      tree_reach t r u -> t !! u = Some tu -> v ∈ tu -> tree_reach t r v.

(** [t] is the adjacency list of a connected subgraph, on all the vertices,
    of the graph with adjacency list [a]: what a spanning tree of a
    connected graph is (that it has no cycle is not needed). *)
Definition spans (a t : list (list nat)) : Prop :=
  length t = length a /\
  (forall u v tu, t !! u = Some tu -> v ∈ tu -> exists au, a !! u = Some au /\ v ∈ au) /\
  (forall v, (v < length a)%nat -> tree_reach t 0 v).

(** In genome [x], following the selected neighbours from [v] leads to
    vertex 0, whose gene is 0. *)
Inductive linked (a : list (list nat)) (x : list Z) : nat -> Prop :=
  | linked_root : x !! 0%nat = Some 0 -> linked a x 0
  | linked_child v g av p :
      x !! v = Some g -> 0 < g -> a !! v = Some av ->
      av !! Z.to_nat (g - 1) = Some p -> linked a x p -> linked a x v.

(** The invariants of the seeding: a vertex is marked once its gene is no
    longer -1; marks are kept from [x] to [x']; a vertex is closed when all
    its neighbours in the tree are marked. *)
Definition marked (x : list Z) (v : nat) : Prop := exists g, x !! v = Some g /\ g <> -1.

Definition unmarked_count (x : list Z) : nat := count_if (fun g => g =? -1) x.

Definition keeps (x x' : list Z) : Prop := Forall2 (fun g g' => g <> -1 -> g' = g) x x'.

Definition closed (t : list (list nat)) (x : list Z) (v : nat) : Prop :=
  forall tv c, t !! v = Some tv -> c ∈ tv -> marked x c.

Definition all_linked (a : list (list nat)) (x : list Z) : Prop :=
  forall v, marked x v -> linked a x v.

(** What a call of [recursive_links] on [node] achieves from [st] to
    [st']: marks are kept, every marked vertex is linked, [node] is marked,
    and the vertices the call marked are closed. *)
Definition links_post (a t : list (list nat)) (st st' : Links) (node : nat) : Prop :=
  keeps (lx st) (lx st') /\
  length (binary_links st') = length (binary_links st) /\
  all_linked a (lx st') /\
  marked (lx st') node /\
  (forall v, marked (lx st') v -> ~ marked (lx st) v -> closed t (lx st') v).

(** What is required of a call of [recursive_links] with [depth] calls
    left, and what it then achieves. *)
Definition links_ok (a t : list (list nat)) (depth : nat) : Prop :=
  forall child node st,
    (child < length a)%nat ->
    (exists ac, a !! child = Some ac /\ node ∈ ac) ->
    length (lx st) = length a ->
    length (binary_links st) = length a ->
    all_linked a (lx st) ->
    marked (lx st) node ->
    (unmarked_count (lx st) < depth)%nat ->
    exists st', recursive_links depth a t child node st = Ok st' /\
                links_post a t st st' child.

(** The number of vertices a search has seen. *)
Definition count_true (seen : list bool) : nat := count_if (fun b => b) seen.

(** The id of vertex [u] in a state of the component search. *)
Definition label_at (st : cstate) (u : nat) : nat := default 0%nat (membership st !! u).

(** Before an isolated vertex [v] is tried: it is not added, and the ids of
    the added vertices are below the number of components. *)
Definition before_inv (n v : nat) (st : cstate) : Prop :=
  length (already_added st) = n /\ length (membership st) = n /\
  seen_at (already_added st) v = false /\
  (forall u, seen_at (already_added st) u = true -> (label_at st u < no_of_clusters st)%nat).

(** After [v] was tried: its id is [c] and no other added vertex has it. *)
Definition after_inv (n v c : nat) (st : cstate) : Prop :=
  length (already_added st) = n /\ length (membership st) = n /\
  seen_at (already_added st) v = true /\ label_at st v = c /\
  (c < no_of_clusters st)%nat /\
  (forall u, u <> v -> seen_at (already_added st) u = true -> label_at st u <> c).

(** What the loop over [first_node] keeps: the arrays have one cell per
    vertex, no id reaches the number of components found, and that number
    does not exceed the number of vertices tried. *)
Record visit_inv (n tried : nat) (st : cstate) : Prop := {
  vi_added : length (already_added st) = n;
  vi_members : length (membership st) = n;
  vi_ids : Forall (fun c => (c <= Nat.pred (no_of_clusters st))%nat) (membership st);
  vi_count : (no_of_clusters st <= tried)%nat
}.


(** ** An example: the complete bipartite graph on 2 + 3 vertices *)

Definition k23 : Graph :=
  {| vs_VX := [0; 0; 1; 1; 1];
     vs_GT := [0; 0; 0; 1; 1];
     vs_name := [0; 0; 1; 1; 1];
     es := [ {| e_from := 0; e_to := 2 |}; {| e_from := 0; e_to := 3 |};
             {| e_from := 0; e_to := 4 |}; {| e_from := 1; e_to := 2 |};
             {| e_from := 1; e_to := 3 |}; {| e_from := 1; e_to := 4 |} ]%nat |}.

(** A stand-in for igraph with the values it computes on [k23]: every edge
    has betweenness 7/3, a lower vertex 3/2 and an upper vertex 1/3; the
    spanning tree is the star of vertex 0 and the edge from 1 to 2. *)
Definition k23_igraph : IGraph :=
  {| Projection := unit;
     is_bipartite := fun _ => true;
     is_connected := fun _ => true;
     bipartite_projection := fun _ => (tt, tt);
     edge_betweenness := fun g => map (fun _ => (7 # 3)%Q) (es g);
     betweenness := fun g => map (fun t => if t =? 0 then (3 # 2)%Q else (1 # 3)%Q) (vs_VX g);
     modularity := fun _ _ => 0%Q;
     modularity_weighted := fun _ _ => 0%Q;
     spanning_tree := fun _ _ => [[2; 3; 4]; [2]; [0; 1]; [0]; [0]]%nat;
     fastgreedy_cut := fun g k => imap (fun v _ => Nat.min v (Z.to_nat k - 1)) (vs_VX g) |}.

(** A stand-in for the metric libraries and for the engine, which returns
    the initial population. *)
Definition k23_metrics : Metrics :=
  {| adjusted_rand_score := fun _ _ => 0%Q;
     edgelist2biadjacency := fun l =>
       Ok {| shape0 := S (max_list (map fst l)); shape1 := S (max_list (map snd l));
             coo := l |};
     bimodularity := fun _ _ _ => 0%Q;
     conductance := fun _ _ => 0%Q;
     edges_inside := fun _ _ => 0%Q;
     gini_index := fun _ => 0%Q |}.

Definition k23_pymoo : @Pymoo k23_igraph :=
  {| minimize := fun _ pop _ _ _ _ => {| res_X := pop; res_history := [] |};
     hypervolume := fun _ _ _ _ => 0%Q |}.

Definition default_params : RawParams :=
  {| raw_mode := None; raw_popsize := None; raw_termination := None;
     raw_save_history := None; raw_seed := None; raw_initialization := None;
     raw_mutation := None |}.

(** A generator whose first draws are 2/5 and 0 and whose later draws are
    all 9/10, and the same after its first draw. *)
Definition example_rs : RandomState :=
  {| tape := fun k => match k with
                      | 0%nat => (2 # 5)%Q
                      | 1%nat => 0%Q
                      | _ => (9 # 10)%Q
                      end;
     cursor := 0 |}.

(** The problem instance the constructor builds for [k23] in mode [m]
    (see [k23_problem_built]). *)
Definition k23_problem (m : string) : Problem (ig := k23_igraph) :=
  {| graph_ := k23; mode_ := m; n_var_ := 5;
     n_obj_ := (if String.eqb m "3d" then 3 else 2);
     n_obj := (if String.eqb m "3d" then 3 else 2);
     n_constr_ := 0;
     xl_ := [0; 0; 0; 0; 0]; xu_ := [3; 3; 2; 2; 2];
     xl := [0; 0; 0; 0; 0]; xu := [3; 3; 2; 2; 2];
     vertices_ := [0; 0; 1; 1; 1]; groundtruth_ := [0; 0; 0; 1; 1];
     proj0_ := [0; 1]%nat; proj1_ := [2; 3; 4]%nat;
     adj_list_ := [[2; 3; 4]; [2; 3; 4]; [0; 1]; [0; 1]; [0; 1]]%nat;
     graph_proj1_ := (tt : @Projection k23_igraph);
     graph_proj2_ := (tt : @Projection k23_igraph);
     full_weights := [7 # 3; 7 # 3; 7 # 3; 7 # 3; 7 # 3; 7 # 3]%Q;
     weights := [3 # 2; 3 # 2; 1 # 3; 1 # 3; 1 # 3]%Q;
     prob1 := [3 # 12; 3 # 12; 2 # 12; 2 # 12; 2 # 12]%Q;
     prob2 := [324 # 864; 324 # 864; 108 # 1296; 108 # 1296; 108 # 1296]%Q;
     prob3 := [972 # 2376; 972 # 2376; 216 # 3564; 216 # 3564; 216 # 3564]%Q |}.

Definition example_rs1 : RandomState := {| tape := tape example_rs; cursor := 1 |}.

(** ** Further predicates *)

(** [v] can be reached from [u] along the selected edges, taken in either
    direction. *)
Inductive joined (edges : list (nat * nat)) (u : nat) : nat -> Prop :=
  | joined_here : joined edges u u
  | joined_step v w :
      joined edges u v -> (v, w) ∈ edges \/ (w, v) ∈ edges -> joined edges u w.

(** Both ends of every edge are vertices. *)
Definition edges_below (n : nat) (edges : list (nat * nat)) : Prop :=
  Forall (fun e => (e.1 < n)%nat /\ (e.2 < n)%nat) edges.

(** What the component search keeps about edges: the added vertices are
    closed under the edges, and the two ends of an edge between added
    vertices have one id. *)
Definition edge_inv (edges : list (nat * nat)) (n : nat) (st : cstate) : Prop :=
  length (already_added st) = n /\ length (membership st) = n /\
  forall u v, (u, v) ∈ edges \/ (v, u) ∈ edges -> (u < n)%nat -> (v < n)%nat ->
              seen_at (already_added st) u = true ->
              seen_at (already_added st) v = true /\ label_at st u = label_at st v.

(** Added vertices with one id are joined, and ids are below the number of
    components. *)
Definition joined_inv (edges : list (nat * nat)) (n : nat) (st : cstate) : Prop :=
  length (already_added st) = n /\ length (membership st) = n /\
  (forall u, seen_at (already_added st) u = true -> (label_at st u < no_of_clusters st)%nat) /\
  forall u v, seen_at (already_added st) u = true -> seen_at (already_added st) v = true ->
              label_at st u = label_at st v -> joined edges u v.

(** What the component search keeps about the order of ids, after the
    vertices below [k] were tried: they are added; ids are below the number
    of components; and every id has a first vertex below [k], which
    precedes every vertex with a larger id. *)
Definition order_inv (n k : nat) (st : cstate) : Prop :=
  length (already_added st) = n /\ length (membership st) = n /\
  (forall u, (u < k)%nat -> (u < n)%nat -> seen_at (already_added st) u = true) /\
  (forall u, seen_at (already_added st) u = true -> (label_at st u < no_of_clusters st)%nat) /\
  forall c, (c < no_of_clusters st)%nat ->
    exists w, (w < k)%nat /\ seen_at (already_added st) w = true /\ label_at st w = c /\
              forall u, seen_at (already_added st) u = true -> (c < label_at st u)%nat ->
                        (w < u)%nat.

(** [pop'] is [pop] with some genes set to 0, each at a vertex whose degree
    bound in [xu] exceeds 1. *)
Definition zeroed (xu : list Z) (pop pop' : list (list Z)) : Prop :=
  length pop' = length pop /\
  forall r row', pop' !! r = Some row' ->
    exists row, pop !! r = Some row /\ length row' = length row /\
      forall j g', row' !! j = Some g' ->
        exists g, row !! j = Some g /\
                  (g' = g \/ (g' = 0 /\ exists d, xu !! j = Some d /\ 1 < d)).

(** The biadjacency matrix of [k23]. *)
Definition k23_badj : Badj :=
  {| shape0 := 2; shape1 := 3;
     coo := [(0, 0); (0, 1); (0, 2); (1, 0); (1, 1); (1, 2)]%nat |}.

(** [X'] has the shape of [X], and every gene of [X'] is the gene [X] has
    at its place or a value that [new] allows in its column. *)
Definition rewritten (new : nat -> Z -> Prop) (X X' : list (list Z)) : Prop :=
  length X' = length X /\
  forall r row', X' !! r = Some row' ->
    exists row, X !! r = Some row /\ length row' = length row /\
      forall j g', row' !! j = Some g' ->
        exists g, row !! j = Some g /\ (g' = g \/ new j g').

(** [g] lies above the lower bound of column [j] and not above its upper
    bound. *)
Definition within (lo hi : list Z) (j : nat) (g : Z) : Prop :=
  exists a b, lo !! j = Some a /\ hi !! j = Some b /\ a < g <= b.

(** Every raw draw of the generator lies in [[0, 1)]. *)
Definition unit_draws (rs : RandomState) : Prop :=
  forall k, (0 <= tape rs k)%Q /\ (tape rs k < 1)%Q.

(** The graph with one edge. *)
Definition k11 : Graph :=
  {| vs_VX := [0; 1]; vs_GT := [0; 0]; vs_name := [0; 1];
     es := [ {| e_from := 0; e_to := 1 |} ]%nat |}.

(** The detector the constructor builds for a population of 6 genomes
    (see [k23_detector_built]). *)
Definition k23_detector : Detector (ig := k23_igraph) :=
  {| name_ := "multicriteria";
     params_ := {| mode := "3d"; popsize := 6; termination := None; save_history := true;
                   seed := None; initialization := ""; mutation := "" |};
     min_num_clusters_ := 1; max_num_clusters_ := 30;
     dgraph_ := None; results_ := []; problem_ := None; pop_ := []; res_ := None |}.

(** The entry of the biadjacency matrix that stands for the edge [e]: its
    row and its column are the positions of the ends of [e] in the lists
    [proj0] and [proj1] of the vertices of the two kinds. *)
Definition badj_entry (proj0 proj1 : list nat) (e : Edge) (p : nat * nat) : Prop :=
  exists lo up,
    (lo = e_from e /\ up = e_to e \/ lo = e_to e /\ up = e_from e) /\
    proj0 !! p.1 = Some lo /\ proj1 !! p.2 = Some up.

(** The attribute ['name'] is 0 or 1 on every vertex and differs on the
    ends of every edge. *)
Definition named_two_sided (g : Graph) : Prop :=
  Forall (fun z => z = 0 \/ z = 1) (vs_name g) /\
  Forall (fun e => exists a b, vs_name g !! e_from e = Some a /\
                               vs_name g !! e_to e = Some b /\ a <> b) (es g).

(** A square matrix of side [k] without negative entries. *)
Definition counts (k : nat) (e : list (list Q)) : Prop :=
  length e = k /\
  Forall (fun row => length row = k /\ Forall (fun c => (0 <= c)%Q) row) e.

(** ** ComDetMultiLevel: the dissimilarity between communities *)

(** [d[i][j]] and [d[i][j] = v] on a numpy matrix, for indices that are
    not negative. *)
Definition np_get (d : list (list Q)) (i j : nat) : res Q :=
  row ← py_get d i;
  py_get row j.

Definition np_set (d : list (list Q)) (i j : nat) (v : Q) : res (list (list Q)) :=
  row ← py_get d i;
  row' ← py_set row j v;
  py_set d i row'.

(** The matrix [d] that [ComDetMultiLevel] hands to the hierarchical
    clustering, from the memberships [res1.membership] and
    [res2.membership] of the two projections and the edge list of the
    graph. *)
Definition dissimilarity (membership1 membership2 : list nat) (edges : list (nat * nat))
  : res (list (list Q)) :=
  let assignment := membership1 ++ membership2 in
  top1 ← py_max membership1;
  let k1 := S top1 in
  top2 ← py_max membership2;
  let k2 := S top2 in
  let n := (k1 + k2)%nat in
  d ← for_each (fun d ei =>
          e ← py_get edges ei;
          index1 ← py_get assignment e.1;
          a2 ← py_get assignment e.2;
          let index2 := (k1 + a2)%nat in
          v ← np_get d index1 index2;
          d ← np_set d index1 index2 (v + 1)%Q;
          v ← np_get d index2 index1;
          np_set d index2 index1 (v + 1)%Q)
        (replicate n (replicate n 0%Q)) (seq 0 (length edges));
  for_each (fun d d1 =>
      d ← for_each (fun d d2 =>
              v ← np_get d d1 d2;
              np_set d d1 d2 (1 / (1 + v))%Q)
            d (seq 0 n);
      np_set d d1 d1 0%Q)
    d (seq 0 n).

(** A square matrix of side [n]. *)
Definition square (n : nat) (d : list (list Q)) : Prop :=
  length d = n /\ Forall (fun row => length row = n) d.

(** The vertices that carry the label [b] among the first [p] vertices, in
    increasing order. *)
Definition labelled (m : list nat) (b p : nat) : list nat :=
  filter (fun i => m !! i = Some b) (seq 0 p).

(** Gene [j] of [row] selects no edge that crosses the clusters [test]: it
    is 0, or vertex [j] has at most one neighbour, or the selected
    neighbour has the label of [j]. *)
Definition uncut (adj_list : list (list nat)) (xu : list Z) (test : list nat)
    (row : list Z) (j : nat) : Prop :=
  forall g d, row !! j = Some g -> g <> 0 -> xu !! j = Some d -> 1 < d ->
    exists a nb t, adj_list !! j = Some a /\ py_index a (g - 1) = Ok nb /\
                   test !! nb = Some t /\ test !! j = Some t.

(** A generator whose first draw is 0 and whose later draws are all 1/2. *)
Definition example_rs_half : RandomState :=
  {| tape := fun k => match k with
                      | 0%nat => 0%Q
                      | _ => (1 # 2)%Q
                      end;
     cursor := 0 |}.

(** ** The walk of the centrality-biased mutation, in sums *)

Section WalkSums.
Context {ig : IGraph}.

(** The sum of the betweenness of the edges at [l]: [total]. *)
Definition incident_total (problem : Problem) (l : nat) : Q :=
  sumQ (attr_bs (select_source_in [l] (graph_es problem))).

(** The sum of the weights the walk gives the neighbours of [l]. *)
Definition walk_mass (problem : Problem) (l : nat) (adj_l : list nat) : Q :=
  sumQ (walk_weights (select_source_in [l] (graph_es problem)) (incident_total problem l)
          adj_l).

End WalkSums.

(** * Properties *)

(** ** Results and loops *)

Lemma bind_Ok {A B} (m : res A) (f : A -> res B) (b : B) :
  (m ≫= f) = Ok b -> exists a, m = Ok a /\ f a = Ok b.
Proof. destruct m as [a|e]; simpl; [eauto | discriminate]. Qed.

Lemma py_assert_Ok c msg u : py_assert c msg = Ok u -> c = true.
Proof. destruct c; [done | discriminate]. Qed.

Lemma py_get_Ok {A} (l : list A) i a : py_get l i = Ok a <-> l !! i = Some a.
Proof. unfold py_get. destruct (l !! i); split; congruence. Qed.

Lemma py_get_lt {A} (l : list A) i :
  (i < length l)%nat -> exists a, py_get l i = Ok a /\ l !! i = Some a.
Proof.
  intros Hi. destruct (lookup_lt_is_Some_2 l i Hi) as [a Ha].
  exists a. split; [by apply py_get_Ok | done].
Qed.

Lemma py_get_ge {A} (l : list A) i : (length l <= i)%nat -> py_get l i = Raise IndexError.
Proof. intros Hi. unfold py_get. by rewrite lookup_ge_None_2. Qed.

Lemma bind_Ok_l {A B} (a : A) (f : A -> res B) : (Ok a ≫= f) = f a.
Proof. reflexivity. Qed.

Lemma for_each_cons {A S} (f : S -> A -> res S) s a l :
  for_each f s (a :: l) = (f s a ≫= fun s' => for_each f s' l).
Proof. reflexivity. Qed.

Lemma map_fmap {A B} (f : A -> B) (l : list A) : map f l = f <$> l.
Proof. reflexivity. Qed.

(** A loop invariant: what holds before the loop and is kept by every
    iteration that returns holds after a loop that returns. *)
Lemma for_each_inv {A S} (P : S -> Prop) (f : S -> A -> res S) l :
  (forall s a s', a ∈ l -> P s -> f s a = Ok s' -> P s') ->
  forall s s', P s -> for_each f s l = Ok s' -> P s'.
Proof.
  induction l as [|a l IH]; intros Hstep s s' Hs Hrun; simpl in Hrun.
  - by inversion Hrun; subst.
  - apply bind_Ok in Hrun as (s1 & H1 & H2).
    apply (IH (fun s0 a0 s0' Hin => Hstep s0 a0 s0' (list_elem_of_further _ _ _ Hin)) s1 s');
      [|done].
    eapply Hstep; [apply list_elem_of_here | exact Hs | exact H1].
Qed.

(** The same with progress: a loop whose iterations all return, returns. *)
Lemma for_each_total {A S} (P : S -> Prop) (f : S -> A -> res S) l :
  (forall s a, a ∈ l -> P s -> exists s', f s a = Ok s' /\ P s') ->
  forall s, P s -> exists s', for_each f s l = Ok s' /\ P s'.
Proof.
  induction l as [|a l IH]; intros Hstep s Hs; simpl.
  - eauto.
  - destruct (Hstep s a (list_elem_of_here _ _) Hs) as (s1 & H1 & HP1).
    rewrite H1. simpl.
    apply IH; [|done].
    intros s0 a0 Hin. apply Hstep. by apply list_elem_of_further.
Qed.

(** ** Objective count and objective vector (C1) *)

Section ObjectiveCount.
Context {ig : IGraph}.

Lemma init_fields m graph problem :
  MultiCriteriaProblem_init m graph = Ok problem ->
  mode_ problem = m /\
  n_obj problem = (if String.eqb m "3d" then 3 else 2) /\
  n_obj_ problem = n_obj problem /\
  graph_ problem = graph /\
  n_var_ problem = vcount graph /\
  adj_list_ problem = get_adjlist graph /\
  xu_ problem = indegree graph /\
  xu problem = indegree graph /\
  xl problem = replicate (vcount graph) 0 /\
  vertices_ problem = vs_VX graph /\
  proj0_ problem = indices_of 0 (vs_VX graph) /\
  proj1_ problem = indices_of 1 (vs_VX graph) /\
  full_weights problem = edge_betweenness graph /\
  vcount graph <> 0%nat.
Proof.
  unfold MultiCriteriaProblem_init. intros Hi.
  apply bind_Ok in Hi as (u1 & _ & Hi).
  apply bind_Ok in Hi as (u2 & _ & Hi).
  apply bind_Ok in Hi as (u3 & Hne & Hi).
  apply bind_Ok in Hi as (u4 & _ & Hi).
  apply bind_Ok in Hi as (p1 & _ & Hi).
  apply bind_Ok in Hi as (p2 & _ & Hi).
  apply bind_Ok in Hi as (p3 & _ & Hi).
  apply py_assert_Ok in Hne.
  injection Hi as <-. simpl. unfold base_init_n_obj.
  repeat split; try reflexivity.
  intros Hz. rewrite Hz in Hne. discriminate.
Qed.

Lemma evaluate_4d_length problem x r :
  mode_ problem = "4d"%string ->
  _evaluate problem x = Ok r -> exists F, r = Some F /\ length F = 4%nat.
Proof.
  intros Hm He. unfold _evaluate in He. rewrite Hm in He. simpl in He.
  apply bind_Ok in He as (mk & _ & He).
  apply bind_Ok in He as (l0 & _ & He).
  apply bind_Ok in He as (l1 & _ & He).
  injection He as <-. eauto.
Qed.

(** In the modes ['2d'] and ['3d'] the objective vector has as many entries
    as the problem declares objectives. *)
Lemma objective_count_2d_3d m graph problem x r :
  m = "2d"%string \/ m = "3d"%string ->
  MultiCriteriaProblem_init m graph = Ok problem ->
  _evaluate problem x = Ok r ->
  exists F, r = Some F /\ Z.of_nat (length F) = n_obj problem.
Proof.
  intros Hm Hi He. destruct (init_fields _ _ _ Hi) as (Hmode & Hn & _).
  unfold _evaluate in He. rewrite Hmode in He. rewrite Hn.
  apply bind_Ok in He as (mk & _ & He).
  destruct Hm as [-> | ->]; simpl in He.
  - injection He as <-. eauto.
  - apply bind_Ok in He as (l0 & _ & He).
    apply bind_Ok in He as (l1 & _ & He).
    injection He as <-. eauto.
Qed.

(** C1 (the code departs from the claim): a problem built with mode ['4d']
    declares 2 objectives, in [n_obj_] and in the attribute [n_obj] of the
    base class, while every evaluation that returns yields an objective
    vector of length 4. *)
Theorem mode_4d_declares_two_objectives graph problem :
  MultiCriteriaProblem_init "4d" graph = Ok problem ->
  n_obj problem = 2 /\ n_obj_ problem = 2 /\
  forall x r, _evaluate problem x = Ok r -> exists F, r = Some F /\ length F = 4%nat.
Proof.
  intros Hi. destruct (init_fields _ _ _ Hi) as (Hm & Hn & Hn' & _).
  simpl in Hn. repeat split; [done | congruence |].
  intros x r. by apply evaluate_4d_length.
Qed.

End ObjectiveCount.

Example k23_problem_built :
  MultiCriteriaProblem_init (ig := k23_igraph) "2d" k23 = Ok (k23_problem "2d") /\
  MultiCriteriaProblem_init (ig := k23_igraph) "3d" k23 = Ok (k23_problem "3d") /\
  MultiCriteriaProblem_init (ig := k23_igraph) "4d" k23 = Ok (k23_problem "4d").
Proof. repeat split; vm_compute; reflexivity. Qed.

Lemma mode_4d_declares_two_objectives_witness :
  MultiCriteriaProblem_init (ig := k23_igraph) "4d" k23 = Ok (k23_problem "4d") /\
  (n_obj (k23_problem "4d") = 2 /\ n_obj_ (k23_problem "4d") = 2 /\
   forall x r, _evaluate (k23_problem "4d") x = Ok r ->
               exists F, r = Some F /\ length F = 4%nat).
Proof.
  split.
  - vm_compute. reflexivity.
  - apply (mode_4d_declares_two_objectives (ig := k23_igraph) k23).
    vm_compute. reflexivity.
Defined.

(** In mode ['4d'] the objective vector of the genome that selects the
    first neighbour of every vertex of [k23] has 4 entries. *)
Example evaluate_4d_k23 :
  _evaluate (k23_problem "4d") [1; 1; 1; 1; 1] = Ok (Some [0; 0; 0; 1]%Q).
Proof. vm_compute. reflexivity. Qed.

(** ** Uniform mutation (C2) *)

(** C2 (the code departs from the claim): on a population of 2 genomes over
    the 5 vertices of [k23], the first gene of the first genome is replaced
    at the draw 2/5, which is below 1/len(X) = 1/2 but not below
    1/n_var = 1/5. The threshold of [PizMutation._do] is the reciprocal of
    the number of genomes, not of the number of design variables. *)
Theorem PizMutation_threshold_is_population_size :
  n_var_ (k23_problem "3d") = 5%nat /\
  tape example_rs 0 = (2 # 5)%Q /\
  Qltb (2 # 5) (1 / Qnat (n_var_ (k23_problem "3d"))) = false /\
  exists rs',
    PizMutation_do (k23_problem "3d") [[2; 1; 1; 1; 1]; [2; 1; 1; 1; 1]] example_rs
    = Ok ([[1; 1; 1; 1; 1]; [2; 1; 1; 1; 1]], rs').
Proof.
  split; [reflexivity|].
  split; [reflexivity|].
  split; [vm_compute; reflexivity|].
  eexists. vm_compute. reflexivity.
Qed.

(** ** Hypervolume needs results and a saved history (C9) *)

Section Hypervolume.
Context {ig : IGraph} {pm : Pymoo} {mt : Metrics}.

Lemma fresh_detector_has_no_results name params lo hi self :
  ComDetMultiCriteria_init name params lo hi = Ok self -> results_ self = [].
Proof.
  unfold ComDetMultiCriteria_init. intros Hi.
  apply bind_Ok in Hi as (? & _ & Hi).
  apply bind_Ok in Hi as (? & _ & Hi).
  apply bind_Ok in Hi as (? & _ & Hi).
  by injection Hi as <-.
Qed.

Lemma save_history_false_is_kept name params lo hi self :
  raw_save_history params = Some false ->
  ComDetMultiCriteria_init name params lo hi = Ok self ->
  save_history (params_ self) = false.
Proof.
  unfold ComDetMultiCriteria_init. intros Hs Hi.
  apply bind_Ok in Hi as (? & _ & Hi).
  apply bind_Ok in Hi as (? & _ & Hi).
  apply bind_Ok in Hi as (? & _ & Hi).
  injection Hi as <-. simpl. by rewrite Hs.
Qed.

(** C9: on a detector without results (as the constructor leaves it, see
    [fresh_detector_has_no_results]) or with the history not saved,
    [compute_hypervolume] raises an assertion error; it returns nothing. *)
Theorem compute_hypervolume_refuses (self : Detector) :
  results_ self = [] \/ save_history (params_ self) = false ->
  exists msg, compute_hypervolume self = Raise (AssertionError msg).
Proof.
  intros Hc. unfold compute_hypervolume.
  destruct (results_ self) as [|r rs] eqn:Hr; simpl.
  - eauto.
  - destruct Hc as [Hc | Hc]; [discriminate|].
    rewrite Hc. simpl. eauto.
Qed.

End Hypervolume.

Lemma compute_hypervolume_refuses_witness :
  exists self,
    ComDetMultiCriteria_init (ig := k23_igraph) "multicriteria" default_params 1 30
      = Ok self /\
    exists msg, compute_hypervolume (pm := k23_pymoo) self = Raise (AssertionError msg).
Proof.
  eexists. split.
  - vm_compute. reflexivity.
  - apply (compute_hypervolume_refuses (pm := k23_pymoo)). left. reflexivity.
Defined.

(** ** Bipartite performance (C8) *)

Lemma Qnat_nonzero k : (0 < k)%nat -> Qeq_bool (Qnat k) 0 = false.
Proof.
  intros Hk. unfold Qnat, Qeq_bool. simpl.
  apply Z.eqb_neq. lia.
Qed.

Lemma count_if_app {A} (f : A -> bool) l1 l2 :
  count_if f (l1 ++ l2) = (count_if f l1 + count_if f l2)%nat.
Proof. unfold count_if. by rewrite List.filter_app, length_app. Qed.

Lemma count_if_map {A B} (f : B -> bool) (g : A -> B) l :
  count_if f (map g l) = count_if (fun a => f (g a)) l.
Proof.
  unfold count_if. induction l as [|a l IH]; simpl; [done|].
  destruct (f (g a)); simpl; by rewrite IH.
Qed.

Section Performance.
Variables (badj : Badj) (communities : list nat).
Hypothesis labelled : (shape0 badj + shape1 badj <= length communities)%nat.

(** The loop over [j] for a lower vertex [i] adds the correct pairs of [i]. *)
Lemma performance_row i perf js :
  (i < shape0 badj)%nat ->
  Forall (fun j => (j < shape1 badj)%nat) js ->
  for_each (fun perf_pairs j =>
              ci ← py_get communities i;
              cj ← py_get communities (shape0 badj + j);
              if (has_edge (coo badj) i j && Nat.eqb ci cj)
                 || (negb (has_edge (coo badj) i j) && negb (Nat.eqb ci cj))
              then Ok (S perf_pairs) else Ok perf_pairs) perf js
  = Ok (perf + count_if (fun j => correct_pair badj communities (i, j)) js)%nat.
Proof.
  intros Hi Hjs. set (body := fun (perf_pairs : nat) (j : nat) => _).
  revert perf.
  induction Hjs as [|j js Hj _ IH]; intros perf.
  - simpl. f_equal. unfold count_if. simpl. lia.
  - rewrite for_each_cons.
    assert (body perf j
            = Ok (if correct_pair badj communities (i, j) then S perf else perf)) as ->.
    { unfold body, correct_pair, label. simpl.
      destruct (py_get_lt communities i) as (ci & -> & ->); [lia|].
      destruct (py_get_lt communities (shape0 badj + j)) as (cj & -> & ->); [lia|].
      simpl. by destruct (_ || _). }
    rewrite bind_Ok_l, IH. f_equal.
    unfold count_if. simpl.
    destruct (correct_pair badj communities (i, j)); simpl; lia.
Qed.

Lemma performance_rows perf is_ :
  Forall (fun i => (i < shape0 badj)%nat) is_ ->
  for_each (fun perf_pairs i =>
      for_each (fun perf_pairs j =>
          ci ← py_get communities i;
          cj ← py_get communities (shape0 badj + j);
          if (has_edge (coo badj) i j && Nat.eqb ci cj)
             || (negb (has_edge (coo badj) i j) && negb (Nat.eqb ci cj))
          then Ok (S perf_pairs) else Ok perf_pairs)
        perf_pairs (seq 0 (shape1 badj))) perf is_
  = Ok (perf + count_if (correct_pair badj communities)
                        (list_prod is_ (seq 0 (shape1 badj))))%nat.
Proof.
  intros His. revert perf.
  induction His as [|i is_ Hi _ IH]; intros perf.
  - simpl. f_equal. unfold count_if. simpl. lia.
  - rewrite for_each_cons, performance_row; [|done|].
    + rewrite bind_Ok_l, IH. f_equal.
      change (list_prod (i :: is_) (seq 0 (shape1 badj)))
        with (map (fun y => (i, y)) (seq 0 (shape1 badj))
              ++ list_prod is_ (seq 0 (shape1 badj))).
      rewrite count_if_app, count_if_map. lia.
    + apply Forall_forall. intros j Hj. apply elem_of_seq in Hj. lia.
Qed.

End Performance.

(** C8: on a matrix with at least one row and one column and a label for
    each of its vertices, [bi_performance] returns the number of pairs
    (i in Lower, j in Upper) that have an edge and one community or no edge
    and two communities, divided by |Lower| * |Upper|. *)
Theorem bi_performance_counts_correct_pairs (badj : Badj) (communities : list nat) :
  (0 < shape0 badj)%nat ->
  (0 < shape1 badj)%nat ->
  (shape0 badj + shape1 badj <= length communities)%nat ->
  bi_performance badj communities = Ok (performance_spec badj communities).
Proof.
  intros H0 H1 Hlen. unfold bi_performance.
  rewrite (performance_rows badj communities Hlen).
  - rewrite bind_Ok_l. unfold py_div. rewrite Qnat_nonzero; [done | nia].
  - apply Forall_forall. intros i Hi. apply elem_of_seq in Hi. lia.
Qed.

Lemma bi_performance_counts_correct_pairs_witness :
  let badj := {| shape0 := 2; shape1 := 3;
                 coo := [(0, 0); (0, 1); (0, 2); (1, 0); (1, 1); (1, 2)]%nat |} in
  bi_performance badj [0; 1; 0; 0; 1]%nat = Ok (performance_spec badj [0; 1; 0; 0; 1]%nat).
Proof.
  intros badj.
  apply (bi_performance_counts_correct_pairs badj [0; 1; 0; 0; 1]%nat); simpl; lia.
Defined.

(** ** Result collation removes duplicates (C7) *)







Lemma metric_tuple_record_of value :
  length value = length cols -> metric_tuple (record_of value) = value.
Proof. intros Hl. unfold metric_tuple, record_of. by rewrite snd_zip by lia. Qed.

Section Collation.
Context {ig : IGraph} {pm : Pymoo} {mt : Metrics}.

Lemma collate_one_length name graph problem badj x value :
  collate_one name graph problem badj x = Ok value -> length value = length cols.
Proof.
  unfold collate_one. intros Hc.
  repeat (apply bind_Ok in Hc as (? & _ & Hc)).
  by injection Hc as <-.
Qed.


End Collation.


(** ** Genes out of range (C4) *)

(** A loop raises [e] when one of its iterations raises [e] in every state
    and [e] is all the earlier iterations can raise. *)
Lemma for_each_raises {A S} (f : S -> A -> res S) (e : exn) (i : A) l :
  (forall s a e', f s a = Raise e' -> e' = e) ->
  i ∈ l ->
  (forall s, f s i = Raise e) ->
  forall s, for_each f s l = Raise e.
Proof.
  intros Honly Hin Hi. induction l as [|a l IH]; intros s.
  - by apply elem_of_nil in Hin.
  - rewrite for_each_cons. destruct (f s a) as [s'|e'] eqn:Hf.
    + rewrite bind_Ok_l. apply elem_of_cons in Hin as [->|Hin].
      * rewrite Hi in Hf. discriminate.
      * by apply IH.
    + simpl. f_equal. by eapply Honly.
Qed.

Lemma for_each_ext {A S} (f g : S -> A -> res S) l :
  (forall s a, f s a = g s a) -> forall s, for_each f s l = for_each g s l.
Proof.
  intros Hfg. induction l as [|a l IH]; intros s; [done|].
  rewrite !for_each_cons, Hfg. destruct (g s a); [apply IH | done].
Qed.

Lemma py_get_raises {A} (l : list A) i e : py_get l i = Raise e -> e = IndexError.
Proof. unfold py_get. destruct (l !! i); congruence. Qed.

Lemma py_index_raises {A} (l : list A) i e : py_index l i = Raise e -> e = IndexError.
Proof.
  unfold py_index. repeat case_match; try congruence; apply py_get_raises.
Qed.

Lemma py_index_above {A} (l : list A) i :
  Z.of_nat (length l) <= i -> py_index l i = Raise IndexError.
Proof.
  intros Hi. unfold py_index.
  destruct (0 <=? i) eqn:H0; [|apply Z.leb_gt in H0; lia].
  apply py_get_ge. lia.
Qed.

Lemma sol_edges_above_degree n_var adj_list x i g a :
  (i < n_var)%nat ->
  x !! i = Some g ->
  adj_list !! i = Some a ->
  Z.of_nat (length a) < g ->
  sol_edges n_var adj_list x = Raise IndexError.
Proof.
  intros Hi Hx Ha Hg. unfold sol_edges.
  apply (for_each_raises _ IndexError i).
  - intros s k e He.
    destruct (py_get x k) as [xk|e1] eqn:H1; simpl in He;
      [|injection He as <-; by eapply py_get_raises].
    destruct (0 <? xk); [|discriminate].
    destruct (py_get adj_list k) as [ak|e2] eqn:H2; simpl in He;
      [|injection He as <-; by eapply py_get_raises].
    destruct (py_index ak (xk - 1)) as [j|e3] eqn:H3; simpl in He; [discriminate|].
    injection He as <-. by eapply py_index_raises.
  - apply elem_of_seq. lia.
  - intros s. apply py_get_Ok in Hx, Ha. rewrite Hx. simpl.
    destruct (0 <? g) eqn:H0; [|apply Z.ltb_ge in H0; lia].
    rewrite Ha. simpl. rewrite py_index_above by lia. done.
Qed.

Lemma py_get_map {A B} (f : A -> B) (l : list A) i :
  py_get (map f l) i = (a ← py_get l i; Ok (f a)).
Proof.
  unfold py_get. rewrite map_fmap, list_lookup_fmap. by destruct (l !! i).
Qed.

Lemma sol_edges_negative_as_zero n_var adj_list x :
  sol_edges n_var adj_list (map (Z.max 0) x) = sol_edges n_var adj_list x.
Proof.
  unfold sol_edges. apply for_each_ext. intros s i.
  rewrite py_get_map. destruct (py_get x i) as [g|e]; [|done].
  rewrite !bind_Ok_l.
  destruct (0 <? g) eqn:H0.
  - apply Z.ltb_lt in H0. rewrite Z.max_r by lia.
    destruct (0 <? g) eqn:H1; [done | apply Z.ltb_ge in H1; lia].
  - apply Z.ltb_ge in H0. rewrite Z.max_l by lia. done.
Qed.

Section OutOfRange.
Context {ig : IGraph}.

(** C4, as the code has it: a gene above the degree of its vertex makes the
    evaluation raise [IndexError]; a gene below 0 raises nothing, the
    evaluation reads it as it reads 0, "no edge". *)
Theorem evaluate_gene_out_of_range (problem : Problem) (x : list Z) :
  (forall i g a,
     (i < n_var_ problem)%nat -> x !! i = Some g -> adj_list_ problem !! i = Some a ->
     Z.of_nat (length a) < g ->
     _evaluate problem x = Raise IndexError) /\
  _evaluate problem (map (Z.max 0) x) = _evaluate problem x.
Proof.
  split.
  - intros i g a Hi Hx Ha Hg. unfold _evaluate, decode.
    by rewrite (sol_edges_above_degree _ _ _ i g a).
  - unfold _evaluate, decode. by rewrite sol_edges_negative_as_zero.
Qed.

End OutOfRange.

Lemma evaluate_gene_out_of_range_witness :
  _evaluate (k23_problem "3d") [4; 1; 1; 1; 1] = Raise IndexError /\
  _evaluate (k23_problem "3d") (map (Z.max 0) [-1; 1; 1; 1; 1])
  = _evaluate (k23_problem "3d") [-1; 1; 1; 1; 1].
Proof.
  split.
  - apply (proj1 (evaluate_gene_out_of_range (k23_problem "3d") [4; 1; 1; 1; 1])
             0%nat 4 [2; 3; 4]%nat); [simpl; lia | reflexivity | reflexivity | simpl; lia].
  - apply (proj2 (evaluate_gene_out_of_range (k23_problem "3d") [-1; 1; 1; 1; 1])).
Defined.

(** The claim as the spec has it fails: the genome with the gene -1 at
    vertex 0 of [k23] is evaluated without any error, to the objective
    vector of the genome with 0 in its place. *)
Lemma negative_gene_is_not_signalled :
  _evaluate (k23_problem "3d") [-1; 1; 1; 1; 1] = Ok (Some [0; 0; 1]%Q) /\
  _evaluate (k23_problem "3d") [0; 1; 1; 1; 1] = Ok (Some [0; 0; 1]%Q).
Proof. split; vm_compute; reflexivity. Qed.

(** ** Centrality-biased mutation (C3) *)

Lemma randint_range low high rs :
  low < high ->
  (0 <= tape rs (cursor rs))%Q -> (tape rs (cursor rs) < 1)%Q ->
  exists v, randint low high rs = Ok (v, {| tape := tape rs; cursor := S (cursor rs) |})
            /\ v = low + Qfloor (tape rs (cursor rs) * inject_Z (high - low))
            /\ low <= v < high.
Proof.
  intros Hlh H0 H1. unfold randint.
  destruct (low <? high) eqn:Hl; [|apply Z.ltb_ge in Hl; lia].
  eexists. split; [reflexivity|]. split; [reflexivity|].
  cbn [next_draw fst snd].
  set (u := tape rs (cursor rs)) in *.
  assert (Hd : (0 < inject_Z (high - low))%Q).
  { change 0%Q with (inject_Z 0). rewrite <- Zlt_Qlt. lia. }
  assert (Hlo : 0 <= Qfloor (u * inject_Z (high - low))).
  { change 0 with (Qfloor (inject_Z 0)) at 1. apply Qfloor_resp_le.
    change (inject_Z 0) with 0%Q. apply Qmult_le_0_compat; [done | by apply Qlt_le_weak]. }
  assert (Hhi : Qfloor (u * inject_Z (high - low)) < high - low).
  { rewrite Zlt_Qlt.
    apply Qle_lt_trans with (u * inject_Z (high - low))%Q; [apply Qfloor_le|].
    rewrite <- (Qmult_1_l (inject_Z (high - low))) at 2.
    apply Qmult_lt_compat_r; done. }
  lia.
Qed.

Section Walk.
Variables (edges : EdgeSeq) (total rnd : Q) (v : Z).
Hypothesis total_nonzero : Qeq_bool total 0 = false.

(** The walk returns the first position at which the running sum of
    [walk_weights] exceeds the draw, and the value [v] it was handed when
    there is none. *)
Lemma hoc_walk_first_exceeding pre rest cp :
  hoc_walk edges (pre ++ rest) total rnd (seq (length pre) (length rest)) cp v
  = Ok (match first_exceeding rnd cp (length pre) (walk_weights edges total rest) with
        | Some h => Z.of_nat h + 1
        | None => v
        end).
Proof.
  revert pre cp. induction rest as [|nb rest IH]; intros pre cp; [done|].
  cbn [length seq hoc_walk walk_weights map first_exceeding].
  assert (Hnb : py_get (pre ++ nb :: rest) (length pre) = Ok nb).
  { apply py_get_Ok. by rewrite list_lookup_middle. }
  rewrite Hnb, bind_Ok_l. unfold walk_p, py_div. rewrite total_nonzero, bind_Ok_l.
  destruct (Qltb rnd _); [done|].
  specialize (IH (pre ++ [nb])).
  rewrite <- app_assoc, length_app in IH. simpl in IH.
  replace (length pre + 1)%nat with (S (length pre)) in IH by lia.
  apply IH.
Qed.

End Walk.

(** Among the edges at [l], those at a neighbour [nb] are the edges that
    join [l] and [nb]. *)
Lemma select_source_in_pair (l nb : nat) (edges : EdgeSeq) :
  nb <> l ->
  select_source_in [nb] (select_source_in [l] edges)
  = filter (fun eb => source eb.1 = Nat.min l nb /\ target eb.1 = Nat.max l nb) edges.
Proof.
  intros Hne. unfold select_source_in.
  etransitivity; [apply (list_filter_filter (A := Edge * Q))|].
  apply list_filter_iff. intros [e w]. cbn [fst].
  rewrite !list_elem_of_singleton. unfold source, target. lia.
Qed.

(** The weights of the walk: the betweenness of the edge to each neighbour,
    cut to an integer, over the sum of the betweenness of the edges at
    [l]. *)
Lemma walk_weights_incident (edges : EdgeSeq) (l : nat) (total : Q) (adj_l : list nat) :
  l ∉ adj_l ->
  walk_weights (select_source_in [l] edges) total adj_l
  = map (fun nb => (inject_Z (Qtrunc (incident_bs edges l nb)) / total)%Q) adj_l.
Proof.
  intros Hl. unfold walk_weights, incident_bs.
  apply map_ext_in. intros nb Hnb. apply list_elem_of_In in Hnb.
  rewrite select_source_in_pair; [done|]. by intros ->.
Qed.

Section Centrality.
Context {ig : IGraph}.

(** What the body of the mutation returns: the first position at which the
    running sum of [walk_weights] exceeds the second draw, and the value
    drawn first when there is none. *)
Lemma hoc_new_gene_walk (problem : Problem) (l : nat) (rs : RandomState)
    (lo hi : Z) (adj_l : list nat) :
  xl problem !! l = Some lo ->
  xu problem !! l = Some hi ->
  adj_list_ problem !! l = Some adj_l ->
  lo < hi ->
  (0 <= tape rs (cursor rs))%Q ->
  (tape rs (cursor rs) < 1)%Q ->
  Qeq_bool (sumQ (attr_bs (select_source_in [l] (graph_es problem)))) 0 = false ->
  lo + 1 <= lo + 1 + Qfloor (tape rs (cursor rs) * inject_Z (hi - lo)) <= hi /\
  hoc_new_gene problem l rs
  = Ok (match first_exceeding (tape rs (S (cursor rs))) 0 0
                (walk_weights (select_source_in [l] (graph_es problem))
                   (sumQ (attr_bs (select_source_in [l] (graph_es problem)))) adj_l) with
        | Some h => Z.of_nat h + 1
        | None => lo + 1 + Qfloor (tape rs (cursor rs) * inject_Z (hi - lo))
        end,
        {| tape := tape rs; cursor := S (S (cursor rs)) |}).
Proof.
  intros Hlo Hhi Hadj Hlh H0 H1 Htot.
  set (edges := select_source_in [l] (graph_es problem)) in *.
  set (total := sumQ (attr_bs edges)) in *.
  set (v := lo + 1 + Qfloor (tape rs (cursor rs) * inject_Z (hi - lo))).
  set (rnd := tape rs (S (cursor rs))).
  destruct (randint_range (lo + 1) (hi + 1) rs) as (v' & Hr & Hv & Hrange);
    [lia | done | done |].
  replace (hi + 1 - (lo + 1)) with (hi - lo) in Hv by lia.
  fold v in Hv. subst v'. split; [lia|].
  unfold hoc_new_gene.
  apply py_get_Ok in Hlo, Hhi, Hadj.
  rewrite Hlo, bind_Ok_l, Hhi, bind_Ok_l, Hr, bind_Ok_l, Hadj, bind_Ok_l.
  cbn [fst snd random next_draw tape cursor].
  fold edges total rnd.
  pose proof (hoc_walk_first_exceeding edges total rnd v Htot [] adj_l 0%Q) as Hw.
  cbn [app length] in Hw. rewrite Hw.
  reflexivity.
Qed.

(** C3 (the code departs from the claim): when gene [l] of a vertex that
    is not its own neighbour is mutated, a value [v] is first drawn
    uniformly from [lo + 1 .. hi] (1 to the degree of [l]); the walk then
    gives the neighbour at position [h] the weight
    [int(betweenness of the edge to it) / total], the betweenness cut to
    an integer by the integer array [edge_p], where [total] is the sum of
    the betweenness of the edges at [l]; the new gene is [h + 1] for the
    first position at which the running sum of these weights exceeds the
    second draw, and it is [v], not the last index, when no running sum
    does. *)
Theorem hoc_new_gene_choice (problem : Problem) (l : nat) (rs : RandomState)
    (lo hi : Z) (adj_l : list nat) :
  xl problem !! l = Some lo ->
  xu problem !! l = Some hi ->
  adj_list_ problem !! l = Some adj_l ->
  l ∉ adj_l ->
  lo < hi ->
  (0 <= tape rs (cursor rs))%Q ->
  (tape rs (cursor rs) < 1)%Q ->
  Qeq_bool (sumQ (attr_bs (select_source_in [l] (graph_es problem)))) 0 = false ->
  let total := sumQ (attr_bs (select_source_in [l] (graph_es problem))) in
  let weights :=
    map (fun nb => (inject_Z (Qtrunc (incident_bs (graph_es problem) l nb)) / total)%Q)
        adj_l in
  let v := lo + 1 + Qfloor (tape rs (cursor rs) * inject_Z (hi - lo)) in
  let rnd := tape rs (S (cursor rs)) in
  lo + 1 <= v <= hi /\
  hoc_new_gene problem l rs
  = Ok (match first_exceeding rnd 0 0 weights with
        | Some h => Z.of_nat h + 1
        | None => v
        end,
        {| tape := tape rs; cursor := S (S (cursor rs)) |}).
Proof.
  intros Hlo Hhi Hadj Hl Hlh H0 H1 Htot total weights v rnd.
  destruct (hoc_new_gene_walk problem l rs lo hi adj_l Hlo Hhi Hadj Hlh H0 H1 Htot)
    as [Hv Hg].
  split; [exact Hv|]. rewrite Hg.
  by rewrite (walk_weights_incident (graph_es problem) l _ adj_l Hl).
Qed.

End Centrality.

Lemma hoc_new_gene_choice_witness :
  0 + 1 <= 0 + 1 + Qfloor (tape example_rs1 (cursor example_rs1) * inject_Z (3 - 0)) <= 3 /\
  hoc_new_gene (k23_problem "3d") 0 example_rs1
  = Ok (match first_exceeding (tape example_rs1 (S (cursor example_rs1))) 0 0
                (map (fun nb =>
                        (inject_Z (Qtrunc (incident_bs (graph_es (k23_problem "3d")) 0 nb))
                         / sumQ (attr_bs (select_source_in [0%nat]
                                            (graph_es (k23_problem "3d")))))%Q)
                     [2; 3; 4]%nat) with
        | Some h => Z.of_nat h + 1
        | None => 0 + 1 + Qfloor (tape example_rs1 (cursor example_rs1) * inject_Z (3 - 0))
        end,
        {| tape := tape example_rs1; cursor := S (S (cursor example_rs1)) |}).
Proof.
  apply (hoc_new_gene_choice (k23_problem "3d") 0 example_rs1 0 3 [2; 3; 4]%nat).
  - reflexivity.
  - reflexivity.
  - reflexivity.
  - intros H. repeat (apply elem_of_cons in H as [H|H]; [discriminate H|]).
    by apply elem_of_nil in H.
  - lia.
  - vm_compute. congruence.
  - vm_compute. reflexivity.
  - vm_compute. reflexivity.
Defined.

(** The weights at vertex 0 of [k23], whose three edges have betweenness
    7/3 each: the claim's are 1/3 each, the code's 2/7. *)
Example k23_walk_weights :
  Forall2 Qeq
    (map (fun nb =>
            (incident_bs (graph_es (k23_problem "3d")) 0 nb
             / sumQ (attr_bs (select_source_in [0%nat] (graph_es (k23_problem "3d")))))%Q)
         [2; 3; 4]%nat)
    [1 # 3; 1 # 3; 1 # 3]%Q /\
  Forall2 Qeq
    (map (fun nb =>
            (inject_Z (Qtrunc (incident_bs (graph_es (k23_problem "3d")) 0 nb))
             / sumQ (attr_bs (select_source_in [0%nat] (graph_es (k23_problem "3d")))))%Q)
         [2; 3; 4]%nat)
    [2 # 7; 2 # 7; 2 # 7]%Q.
Proof. split; repeat constructor; vm_compute; reflexivity. Qed.

(** The claim fails at vertex 0 of [k23]: with the draws 0 and 9/10 the
    running sums 2/7, 4/7, 6/7 of the code's weights never exceed the draw
    and the code sets the gene to 1, the value drawn first, where weighted
    sampling over the three edges (running sums 1/3, 2/3, 1) selects
    index 3. *)
Lemma hoc_fallback_is_not_last_index :
  tape example_rs1 1 = 0%Q /\ tape example_rs1 2 = (9 # 10)%Q /\
  hoc_new_gene (k23_problem "3d") 0 example_rs1
  = Ok (1, {| tape := tape example_rs1; cursor := 3 |}) /\
  spec_choice (graph_es (k23_problem "3d")) 0 [2; 3; 4]%nat (9 # 10) = 3 /\
  hoc_new_gene (k23_problem "3d") 0 example_rs1
  <> Ok (spec_choice (graph_es (k23_problem "3d")) 0 [2; 3; 4]%nat (9 # 10),
         {| tape := tape example_rs1; cursor := 3 |}).
Proof.
  split; [reflexivity|]. split; [reflexivity|].
  assert (H1 : hoc_new_gene (k23_problem "3d") 0 example_rs1
               = Ok (1, {| tape := tape example_rs1; cursor := 3 |})).
  { vm_compute. reflexivity. }
  assert (H2 : spec_choice (graph_es (k23_problem "3d")) 0 [2; 3; 4]%nat (9 # 10) = 3).
  { vm_compute. reflexivity. }
  split; [exact H1|]. split; [exact H2|].
  rewrite H1, H2. intros Heq. discriminate Heq.
Qed.

(** With the draws 0 and 1/2 the walk selects: the running sum 4/7 at
    position 1 is the first to exceed the draw, and the gene becomes 2. *)
Example hoc_new_gene_selects :
  hoc_new_gene (k23_problem "3d") 0 example_rs_half
  = Ok (2, {| tape := tape example_rs_half; cursor := 2 |}).
Proof. vm_compute. reflexivity. Qed.

(** At vertex 4 of [k23], the end of two edges, the sum is 14/3, the
    weights are 3/7 each and with the draws 0 and 1/2 the gene becomes 2. *)
Example hoc_new_gene_last_vertex :
  (sumQ (attr_bs (select_source_in [4%nat] (graph_es (k23_problem "3d")))) == 14 # 3)%Q /\
  hoc_new_gene (k23_problem "3d") 4 example_rs_half
  = Ok (2, {| tape := tape example_rs_half; cursor := 2 |}).
Proof. split; vm_compute; reflexivity. Qed.

(** ** Connected components *)

Lemma seen_at_true seen v : seen_at seen v = true <-> seen !! v = Some true.
Proof.
  unfold seen_at. destruct (seen !! v) as [[]|]; simpl; split; congruence.
Qed.

Lemma seen_at_lt seen v : seen_at seen v = true -> (v < length seen)%nat.
Proof. intros Hs. apply seen_at_true in Hs. by eapply lookup_lt_Some. Qed.

Lemma length_spread edges seen : length (spread edges seen) = length seen.
Proof. unfold spread. apply length_imap. Qed.

Lemma seen_at_spread edges seen v :
  seen_at (spread edges seen) v
  = seen_at seen v || ((v <? length seen)%nat && touches edges seen v).
Proof.
  unfold seen_at, spread. rewrite list_lookup_imap.
  destruct (seen !! v) as [b|] eqn:Hv; simpl.
  - apply lookup_lt_Some in Hv. apply Nat.ltb_lt in Hv. by rewrite Hv.
  - apply lookup_ge_None in Hv. apply Nat.ltb_ge in Hv. by rewrite Hv.
Qed.

Lemma length_iter_spread edges k seen :
  length (Nat.iter k (spread edges) seen) = length seen.
Proof. induction k as [|k IH]; simpl; [done|]. by rewrite length_spread. Qed.

Lemma length_flood edges n s : length (flood edges n s) = n.
Proof.
  unfold flood. by rewrite length_iter_spread, length_insert, length_replicate.
Qed.

Section Components.
Variables (edges : list (nat * nat)) (n : nat).

Lemma visit_inv_init :
  visit_inv n 0 {| already_added := replicate n false;
                 membership := replicate n 0%nat;
                 no_of_clusters := 0 |}.
Proof.
  split; simpl; rewrite ?length_replicate; try done.
  apply Forall_replicate. lia.
Qed.

Lemma visit_inv_step tried st first_node :
  visit_inv n tried st -> visit_inv n (S tried) (visit edges n st first_node).
Proof.
  intros [Ha Hm Hi Hc]. unfold visit.
  destruct (seen_at (already_added st) first_node).
  - split; try done. lia.
  - split; simpl; rewrite ?length_imap; try done; [|lia].
    apply Forall_lookup. intros v c Hv.
    rewrite list_lookup_imap in Hv.
    destruct (membership st !! v) as [c0|] eqn:Hc0; [|done].
    simpl in Hv. injection Hv as <-.
    destruct (_ && _); [lia|].
    eapply Forall_lookup_1 in Hi; [|exact Hc0]. simpl in Hi. lia.
Qed.

Lemma visit_inv_fold l tried st :
  visit_inv n tried st -> visit_inv n (tried + length l) (foldl (visit edges n) st l).
Proof.
  revert tried st. induction l as [|v l IH]; intros tried st Hinv; simpl.
  - by rewrite Nat.add_0_r.
  - replace (tried + S (length l))%nat with (S tried + length l)%nat by lia.
    apply IH. by apply visit_inv_step.
Qed.

End Components.

Lemma components_inv t :
  visit_inv (length (b_types t)) (length (b_types t)) (components t).
Proof.
  unfold components.
  pose proof (visit_inv_fold (b_edges t) (length (b_types t))
                (seq 0 (length (b_types t))) 0 _ (visit_inv_init _)) as Hinv.
  by rewrite length_seq in Hinv.
Qed.

Lemma length_clusters t : length (clusters t) = length (b_types t).
Proof. apply (vi_members _ _ _ (components_inv t)). Qed.

Lemma max_list_le l b : Forall (fun c => (c <= b)%nat) l -> (max_list l <= b)%nat.
Proof. induction 1 as [|c l Hc _ IH]; simpl; lia. Qed.

(** The largest id is below the number of vertices. *)
Lemma clusters_max t :
  (0 < length (b_types t))%nat -> (S (max_list (clusters t)) <= length (b_types t))%nat.
Proof.
  intros Hn. destruct (components_inv t) as [_ _ Hi Hc].
  apply max_list_le in Hi. unfold clusters. lia.
Qed.

(** ** The search reaches every vertex joined to its start *)

Lemma count_true_le_length seen : (count_true seen <= length seen)%nat.
Proof.
  unfold count_true, count_if. induction seen as [|[] seen IH]; simpl; lia.
Qed.

Lemma count_true_mono s1 s2 :
  Forall2 (fun b b' => b = true -> b' = true) s1 s2 ->
  (count_true s1 <= count_true s2)%nat /\ (count_true s1 = count_true s2 -> s1 = s2).
Proof.
  unfold count_true, count_if.
  induction 1 as [|b b' s1 s2 Hb _ [IH1 IH2]]; simpl; [done|].
  destruct b, b'; simpl; try (specialize (Hb eq_refl); discriminate).
  - split; [lia|]. intros Heq. f_equal. apply IH2. lia.
  - split; [lia|]. intros Heq. lia.
  - split; [lia|]. intros Heq. f_equal. by apply IH2.
Qed.

Lemma spread_grows edges seen :
  Forall2 (fun b b' => b = true -> b' = true) seen (spread edges seen).
Proof.
  apply Forall2_same_length_lookup_2; [by rewrite length_spread|].
  intros v b b' Hv Hv' ->.
  unfold spread in Hv'. rewrite list_lookup_imap, Hv in Hv'. simpl in Hv'. congruence.
Qed.

(** After [k] rounds the search has stopped growing or has seen [k] more
    vertices than at the start. *)
Lemma iter_spread_progress edges seen k :
  let sk := Nat.iter k (spread edges) seen in
  spread edges sk = sk \/ (count_true seen + k <= count_true sk)%nat.
Proof.
  induction k as [|k IH]; simpl; [right; lia|].
  simpl in IH. set (sk := Nat.iter k (spread edges) seen) in *.
  destruct IH as [Hfix|Hcount]; [left; by rewrite Hfix|].
  destruct (count_true_mono _ _ (spread_grows edges sk)) as [Hle Heq].
  destruct (decide (count_true sk = count_true (spread edges sk))) as [Hc|Hc].
  - left. specialize (Heq Hc). by rewrite <- Heq.
  - right. lia.
Qed.

Lemma count_true_pos seen v : seen !! v = Some true -> (1 <= count_true seen)%nat.
Proof.
  unfold count_true, count_if. revert v.
  induction seen as [|b seen IH]; intros [|v] Hv; simpl in *; try done.
  - injection Hv as ->. simpl. lia.
  - specialize (IH v Hv). destruct b; simpl; lia.
Qed.

(** [n] rounds are enough: the result of [flood] is stable. *)
Lemma flood_stable edges n s :
  (s < n)%nat -> spread edges (flood edges n s) = flood edges n s.
Proof.
  intros Hs. unfold flood.
  set (seen := <[s := true]> (replicate n false)).
  destruct (iter_spread_progress edges seen n) as [Hfix|Hcount]; [done|].
  exfalso.
  assert (H1 : (1 <= count_true seen)%nat).
  { apply (count_true_pos seen s). unfold seen.
    apply list_lookup_insert_eq. by rewrite length_replicate. }
  pose proof (count_true_le_length (Nat.iter n (spread edges) seen)) as Hle.
  rewrite length_iter_spread in Hle. unfold seen in Hle at 2.
  rewrite length_insert, length_replicate in Hle. lia.
Qed.

Lemma iter_spread_keeps edges k seen v :
  seen_at seen v = true -> seen_at (Nat.iter k (spread edges) seen) v = true.
Proof.
  intros Hv. induction k as [|k IH]; simpl; [done|].
  by rewrite seen_at_spread, IH.
Qed.

Lemma flood_start edges n s : (s < n)%nat -> seen_at (flood edges n s) s = true.
Proof.
  intros Hs. unfold flood. apply iter_spread_keeps.
  apply seen_at_true, list_lookup_insert_eq. by rewrite length_replicate.
Qed.

(** The search crosses every edge, in both directions. *)
Lemma flood_crosses edges n s u v :
  (s < n)%nat -> (v < n)%nat ->
  (u, v) ∈ edges \/ (v, u) ∈ edges ->
  seen_at (flood edges n s) u = true -> seen_at (flood edges n s) v = true.
Proof.
  intros Hs Hv He Hu.
  rewrite <- (flood_stable edges n s Hs), seen_at_spread, length_flood.
  apply orb_true_iff. right. apply andb_true_iff. split; [by apply Nat.ltb_lt|].
  unfold touches. apply existsb_exists.
  destruct He as [He|He]; eexists; (split; [apply list_elem_of_In; exact He|]); simpl;
    rewrite Nat.eqb_refl, Hu; simpl; [by rewrite orb_true_r | done].
Qed.

(** When the search from vertex 0 sees every vertex, all vertices get the
    id 0. *)
Lemma components_single t :
  (0 < length (b_types t))%nat ->
  (forall v, (v < length (b_types t))%nat ->
             seen_at (flood (b_edges t) (length (b_types t)) 0) v = true) ->
  clusters t = replicate (length (b_types t)) 0%nat.
Proof.
  intros Hn Hall. unfold clusters, components.
  set (n := length (b_types t)) in *.
  assert (Hseq : seq 0 n = 0%nat :: seq 1 (n - 1)).
  { destruct n; [lia|]. simpl. by rewrite Nat.sub_0_r. }
  rewrite Hseq. cbn [foldl].
  set (st1 := {| already_added := replicate n true; membership := replicate n 0%nat;
                 no_of_clusters := 1 |}).
  assert (Hfirst : visit (b_edges t) n
                     {| already_added := replicate n false;
                        membership := replicate n 0%nat; no_of_clusters := 0 |} 0 = st1).
  { unfold visit, seen_at at 1. simpl.
    rewrite lookup_replicate_2 by lia. simpl. unfold st1. f_equal.
    - apply list_eq. intros v. rewrite list_lookup_imap.
      destruct (decide (v < n)%nat) as [Hv|Hv].
      + rewrite !lookup_replicate_2 by done. simpl. by rewrite Hall.
      + rewrite !lookup_ge_None_2 by (rewrite length_replicate; lia). done.
    - apply list_eq. intros v. rewrite list_lookup_imap.
      destruct (decide (v < n)%nat) as [Hv|Hv].
      + rewrite !lookup_replicate_2 by done. simpl. by destruct (_ && _).
      + rewrite !lookup_ge_None_2 by (rewrite length_replicate; lia). done. }
  rewrite Hfirst.
  assert (Hrest : forall l, Forall (fun v => (v < n)%nat) l ->
                            foldl (visit (b_edges t) n) st1 l = st1).
  { induction l as [|v l IH]; intros Hl; simpl; [done|].
    apply Forall_cons in Hl as [Hv Hl].
    assert (Hskip : visit (b_edges t) n st1 v = st1).
    { unfold visit, seen_at. simpl. by rewrite lookup_replicate_2. }
    rewrite Hskip. by apply IH. }
  rewrite Hrest; [done|].
  apply Forall_forall. intros v Hv. apply elem_of_seq in Hv. lia.
Qed.

(** ** Isolated vertices are communities of their own *)

Section Visits.
Variables (edges : list (nat * nat)) (n : nat).

Lemma visit_added st w u :
  length (already_added st) = n -> (u < n)%nat ->
  seen_at (already_added (visit edges n st w)) u
  = seen_at (already_added st) u
    || (negb (seen_at (already_added st) w) && seen_at (flood edges n w) u).
Proof.
  intros Hlen Hu. unfold visit.
  destruct (seen_at (already_added st) w); simpl; [by rewrite orb_false_r|].
  unfold seen_at at 1. rewrite list_lookup_imap.
  destruct (lookup_lt_is_Some_2 (already_added st) u) as [b Hb]; [lia|].
  rewrite Hb. simpl. unfold seen_at at 2. by rewrite Hb.
Qed.

Lemma visit_label st w u :
  length (membership st) = n -> (u < n)%nat ->
  label_at (visit edges n st w) u
  = if negb (seen_at (already_added st) w) && seen_at (flood edges n w) u
       && negb (seen_at (already_added st) u)
    then no_of_clusters st else label_at st u.
Proof.
  intros Hlen Hu. unfold visit.
  destruct (seen_at (already_added st) w); simpl; [done|].
  unfold label_at at 1. simpl. rewrite list_lookup_imap.
  destruct (lookup_lt_is_Some_2 (membership st) u) as [c Hc]; [lia|].
  rewrite Hc. simpl. unfold label_at. rewrite Hc. simpl. by destruct (_ && _).
Qed.

Lemma visit_lengths st w :
  length (already_added st) = n -> length (membership st) = n ->
  length (already_added (visit edges n st w)) = n /\
  length (membership (visit edges n st w)) = n.
Proof.
  intros Ha Hm. unfold visit. destruct (seen_at _ w); simpl; [done|].
  by rewrite !length_imap.
Qed.

Lemma visit_count st w :
  (no_of_clusters st <= no_of_clusters (visit edges n st w))%nat.
Proof. unfold visit. destruct (seen_at _ w); simpl; lia. Qed.

(** Every vertex tried is added, and stays added. *)
Lemma added_fold l st u :
  length (already_added st) = n -> length (membership st) = n -> (u < n)%nat ->
  seen_at (already_added st) u = true \/ u ∈ l ->
  seen_at (already_added (foldl (visit edges n) st l)) u = true.
Proof.
  revert st. induction l as [|w l IH]; intros st Ha Hm Hu Hcase; simpl.
  - destruct Hcase as [Hc|Hc]; [done | by apply elem_of_nil in Hc].
  - destruct (visit_lengths st w Ha Hm) as [Ha' Hm'].
    apply IH; [done | done | done |].
    destruct Hcase as [Hc|Hc].
    + left. rewrite visit_added, Hc by done. done.
    + apply elem_of_cons in Hc as [->|Hc]; [|by right].
      left. rewrite visit_added by done.
      destruct (seen_at (already_added st) w); [done|].
      simpl. by apply flood_start.
Qed.

End Visits.

Section Isolated.
Variables (edges : list (nat * nat)) (n v : nat).
Hypothesis alone : isolated edges v.
Hypothesis v_lt : (v < n)%nat.

Lemma touches_isolated seen : touches edges seen v = false.
Proof.
  unfold touches. apply not_true_iff_false. intros Hex.
  apply existsb_exists in Hex as (e & He & Ht).
  apply list_elem_of_In in He. destruct (alone e He) as [H1 H2].
  apply orb_true_iff in Ht as [Ht|Ht]; apply andb_true_iff in Ht as [Ht _];
    apply Nat.eqb_eq in Ht; done.
Qed.

(** A search that starts elsewhere never reaches [v]. *)
Lemma flood_misses s : s <> v -> seen_at (flood edges n s) v = false.
Proof.
  intros Hs. unfold flood.
  induction n as [|k IH] at 1; simpl.
  - unfold seen_at. rewrite list_lookup_insert_ne by done.
    by rewrite lookup_replicate_2.
  - rewrite seen_at_spread, IH, touches_isolated. by rewrite andb_false_r.
Qed.

(** The search that starts at [v] reaches nothing else. *)
Lemma flood_alone u : u <> v -> seen_at (flood edges n v) u = false.
Proof.
  intros Hu. unfold flood. revert u Hu.
  induction n as [|k IH] at 1; intros u Hu; simpl.
  - unfold seen_at. rewrite list_lookup_insert_ne by done.
    destruct (replicate n false !! u) as [b|] eqn:Hb; [|done].
    by apply lookup_replicate in Hb as [-> _].
  - rewrite seen_at_spread, IH by done. simpl.
    apply andb_false_iff. right. unfold touches.
    apply not_true_iff_false. intros Hex.
    apply existsb_exists in Hex as (e & He & Ht).
    apply list_elem_of_In in He. destruct (alone e He) as [H1 H2].
    apply orb_true_iff in Ht as [Ht|Ht]; apply andb_true_iff in Ht as [_ Ht].
    + rewrite IH in Ht by done. discriminate.
    + rewrite IH in Ht by done. discriminate.
Qed.

Lemma before_step st w :
  w <> v -> before_inv n v st -> before_inv n v (visit edges n st w).
Proof.
  intros Hw (Ha & Hm & Hv & Hids).
  destruct (visit_lengths edges n st w Ha Hm) as [Ha' Hm'].
  split; [done|]. split; [done|]. split.
  - rewrite visit_added, Hv, flood_misses by done. by rewrite andb_false_r.
  - intros u Hu.
    assert (Hun : (u < n)%nat) by (apply seen_at_lt in Hu; lia).
    rewrite visit_added in Hu by done. rewrite visit_label by done.
    pose proof (visit_count edges n st w) as Hc.
    destruct (seen_at (already_added st) u) eqn:Hau.
    + rewrite andb_false_r. specialize (Hids u Hau). lia.
    + simpl in Hu. rewrite Hu. simpl. unfold visit.
      apply andb_true_iff in Hu as [Hu _]. apply negb_true_iff in Hu.
      rewrite Hu. simpl. lia.
Qed.

Lemma before_fold l st :
  Forall (fun w => w <> v) l -> before_inv n v st ->
  before_inv n v (foldl (visit edges n) st l).
Proof.
  revert st. induction l as [|w l IH]; intros st Hl Hst; simpl; [done|].
  apply Forall_cons in Hl as [Hw Hl]. apply IH; [done|]. by apply before_step.
Qed.

Lemma turn_step st :
  before_inv n v st -> after_inv n v (no_of_clusters st) (visit edges n st v).
Proof.
  intros (Ha & Hm & Hv & Hids).
  destruct (visit_lengths edges n st v Ha Hm) as [Ha' Hm'].
  split; [done|]. split; [done|]. split; [|split; [|split]].
  - rewrite visit_added, Hv, flood_start by done. done.
  - rewrite visit_label, Hv, flood_start by done. done.
  - unfold visit. rewrite Hv. simpl. lia.
  - intros u Hu Hau.
    assert (Hun : (u < n)%nat) by (apply seen_at_lt in Hau; lia).
    rewrite visit_added, flood_alone in Hau by done.
    rewrite andb_false_r, orb_false_r in Hau.
    rewrite visit_label, flood_alone by done. rewrite andb_false_r. simpl.
    specialize (Hids u Hau). lia.
Qed.

Lemma after_step c st w : after_inv n v c st -> after_inv n v c (visit edges n st w).
Proof.
  intros (Ha & Hm & Hv & Hl & Hc & Hids).
  destruct (visit_lengths edges n st w Ha Hm) as [Ha' Hm'].
  pose proof (visit_count edges n st w) as Hcount.
  split; [done|]. split; [done|]. split; [|split; [|split]].
  - rewrite visit_added, Hv by done. done.
  - rewrite visit_label, Hv by done. by rewrite andb_false_r.
  - lia.
  - intros u Hu Hau.
    assert (Hun : (u < n)%nat) by (apply seen_at_lt in Hau; lia).
    rewrite visit_added in Hau by done. rewrite visit_label by done.
    destruct (seen_at (already_added st) u) eqn:Hu0.
    + rewrite andb_false_r. by apply Hids.
    + simpl in Hau. rewrite Hau. simpl. lia.
Qed.

Lemma after_fold c l st :
  after_inv n v c st -> after_inv n v c (foldl (visit edges n) st l).
Proof.
  revert st. induction l as [|w l IH]; intros st Hst; simpl; [done|].
  apply IH. by apply after_step.
Qed.

End Isolated.

(** In the membership list an isolated vertex shares its id with no other
    vertex. *)
Lemma clusters_isolated t v u :
  isolated (b_edges t) v ->
  (v < length (b_types t))%nat -> (u < length (b_types t))%nat -> u <> v ->
  clusters t !! u <> clusters t !! v.
Proof.
  intros Halone Hv Hu Huv. unfold clusters, components.
  set (n := length (b_types t)) in *.
  set (st0 := {| already_added := replicate n false; membership := replicate n 0%nat;
                 no_of_clusters := 0 |}).
  assert (Hseq : seq 0 n = seq 0 v ++ v :: seq (S v) (n - S v)).
  { replace n with (v + S (n - S v))%nat at 1 by lia.
    rewrite seq_app. simpl. done. }
  rewrite Hseq, foldl_app. cbn [foldl].
  set (st1 := foldl (visit (b_edges t) n) st0 (seq 0 v)).
  assert (H1 : before_inv n v st1).
  { apply before_fold; [done | done | |].
    - apply Forall_forall. intros w Hw. apply elem_of_seq in Hw. lia.
    - unfold before_inv, st0. simpl. rewrite !length_replicate.
      split; [done|]. split; [done|]. split.
      + unfold seen_at. by rewrite lookup_replicate_2.
      + intros w Hw. unfold seen_at in Hw.
        destruct (replicate n false !! w) as [b|] eqn:Hb; [|done].
        apply lookup_replicate in Hb as [-> _]. done. }
  assert (H2 : after_inv n v (no_of_clusters st1) (visit (b_edges t) n st1 v)).
  { by apply turn_step. }
  set (st3 := foldl (visit (b_edges t) n) (visit (b_edges t) n st1 v)
                    (seq (S v) (n - S v))).
  assert (H3 : after_inv n v (no_of_clusters st1) st3).
  { apply after_fold; done. }
  destruct H3 as (Ha & Hm & Hav & Hlv & _ & Hids).
  assert (Hau : seen_at (already_added st3) u = true).
  { destruct H1 as (Ha1 & Hm1 & _).
    destruct (visit_lengths (b_edges t) n st1 v Ha1 Hm1) as [Ha2 Hm2].
    destruct (decide (u < v)%nat) as [Hlt|Hge].
    - apply added_fold; [done | done | done |]. left.
      rewrite visit_added by done.
      assert (Hin : seen_at (already_added st1) u = true).
      { apply added_fold; [apply length_replicate | apply length_replicate | done |].
        right. apply elem_of_seq. lia. }
      by rewrite Hin.
    - apply added_fold; [done | done | done |]. right. apply elem_of_seq. lia. }
  specialize (Hids u Huv Hau).
  unfold label_at in Hids, Hlv.
  destruct (lookup_lt_is_Some_2 (membership st3) u) as [cu Hcu]; [lia|].
  destruct (lookup_lt_is_Some_2 (membership st3) v) as [cv Hcv]; [lia|].
  rewrite Hcu, Hcv in *. simpl in *. congruence.
Qed.

(** ** Adjacency lists *)

Lemma length_get_adjlist g : length (get_adjlist g) = vcount g.
Proof. unfold get_adjlist. by rewrite length_map, length_seq. Qed.

Lemma lookup_get_adjlist g i a :
  get_adjlist g !! i = Some a -> a = neighbors g i /\ (i < vcount g)%nat.
Proof.
  unfold get_adjlist. rewrite map_fmap, list_lookup_fmap. intros Hl.
  destruct (seq 0 (vcount g) !! i) as [k|] eqn:Hk; [|done].
  apply lookup_seq in Hk as [-> Hk]. simpl in Hl. injection Hl as <-. done.
Qed.

(** A neighbour is the other end of an edge. *)
Lemma elem_of_neighbors g v u :
  u ∈ neighbors g v ->
  (u < vcount g)%nat /\
  exists e, e ∈ es g /\ source e = Nat.min v u /\ target e = Nat.max v u.
Proof.
  unfold neighbors. intros Hu.
  apply list_elem_of_In, in_flat_map in Hu as (w & Hw & Hu).
  apply list_elem_of_In, elem_of_seq in Hw.
  apply list_elem_of_In, elem_of_replicate in Hu as [Heq Hm]. subst w.
  split; [lia|].
  assert (Hm' : multiplicity g v u <> 0%nat).
  { unfold adjacency_count in Hm. destruct (Nat.eqb v u); lia. }
  clear Hm. rename Hm' into Hm.
  unfold multiplicity in Hm.
  destruct (filter _ (es g)) as [|e l] eqn:Hf; [done|].
  assert (He : e ∈ filter (fun e => source e = Nat.min v u /\ target e = Nat.max v u) (es g)).
  { rewrite Hf. apply list_elem_of_here. }
  apply list_elem_of_filter in He as [[Hs Ht] He]. eauto.
Qed.

Lemma bipartite_edge_ok_swap types i j :
  bipartite_edge_ok types (j, i) = bipartite_edge_ok types (i, j).
Proof.
  unfold bipartite_edge_ok. simpl.
  destruct (types !! i) as [[]|], (types !! j) as [[]|]; reflexivity.
Qed.

Lemma neighbors_two_sided g v u :
  two_sided g -> u ∈ neighbors g v ->
  bipartite_edge_ok (map truthy (vs_VX g)) (v, u) = true.
Proof.
  intros Hg Hu. apply elem_of_neighbors in Hu as (_ & e & He & Hs & Ht).
  specialize (Hg e He). unfold source, target in Hs, Ht.
  destruct (decide (e_from e = v /\ e_to e = u)) as [[<- <-]|Hne]; [done|].
  assert (e_from e = u /\ e_to e = v) as [<- <-] by lia.
  by rewrite bipartite_edge_ok_swap.
Qed.

(** ** Decoding (C5) *)

Lemma py_index_in_range {A} (l : list A) (i : Z) :
  0 <= i < Z.of_nat (length l) -> exists a, py_index l i = Ok a /\ a ∈ l.
Proof.
  intros Hi. unfold py_index.
  destruct (0 <=? i) eqn:H0; [|apply Z.leb_gt in H0; lia].
  destruct (py_get_lt l (Z.to_nat i)) as (a & Ha & Hl); [lia|].
  exists a. split; [done|]. apply list_elem_of_lookup. eauto.
Qed.

(** The edges a genome in range selects are edges of the adjacency lists. *)
Lemma sol_edges_in_range adj_list x :
  in_range adj_list x ->
  exists edges,
    sol_edges (length adj_list) adj_list x = Ok edges /\
    Forall (fun e => exists a g, adj_list !! e.1 = Some a /\ e.2 ∈ a
                                 /\ x !! e.1 = Some g /\ a !! Z.to_nat (g - 1) = Some e.2
                                 /\ 0 < g) edges.
Proof.
  intros [Hlen Hr]. unfold sol_edges.
  apply for_each_total; [|constructor].
  intros acc i Hi Hacc. apply elem_of_seq in Hi.
  destruct (py_get_lt x i) as (g & -> & Hg); [lia|].
  destruct (py_get_lt adj_list i) as (a & Ha & Hla); [lia|].
  rewrite bind_Ok_l. destruct (0 <? g) eqn:H0; [|eauto].
  apply Z.ltb_lt in H0. rewrite Ha, bind_Ok_l.
  specialize (Hr i g a Hg Hla).
  unfold py_index. destruct (0 <=? g - 1) eqn:H1; [|apply Z.leb_gt in H1; lia].
  destruct (py_get_lt a (Z.to_nat (g - 1))) as (j & -> & Hj); [lia|].
  rewrite bind_Ok_l. eexists. split; [reflexivity|].
  apply Forall_app. split; [done|]. apply Forall_singleton. simpl.
  exists a, g. repeat split; try done. apply list_elem_of_lookup. eauto.
Qed.

Lemma Bipartite_Ok types edges :
  Forall (fun e => bipartite_edge_ok (map truthy types) e = true) edges ->
  Bipartite types edges = Ok {| b_types := map truthy types; b_edges := edges |}.
Proof.
  intros He. unfold Bipartite.
  destruct (forallb _ edges) eqn:Hf; [done|].
  assert (forallb (bipartite_edge_ok (map truthy types)) edges = true); [|congruence].
  apply forallb_forall. intros e Hin. apply list_elem_of_In in Hin.
  by eapply Forall_forall in He.
Qed.

Section Decode.
Context {ig : IGraph}.

(** Decoding a genome in range on a problem the constructor built. *)
Lemma decode_in_range m graph problem x :
  MultiCriteriaProblem_init m graph = Ok problem ->
  two_sided graph ->
  in_range (adj_list_ problem) x ->
  exists edges,
    sol_edges (n_var_ problem) (adj_list_ problem) x = Ok edges /\
    decode problem x
    = Ok (clusters {| b_types := map truthy (vs_VX graph); b_edges := edges |},
          S (max_list (clusters {| b_types := map truthy (vs_VX graph);
                                   b_edges := edges |}))) /\
    Forall (fun e => exists a g, adj_list_ problem !! e.1 = Some a /\ e.2 ∈ a
                                 /\ x !! e.1 = Some g /\ a !! Z.to_nat (g - 1) = Some e.2
                                 /\ 0 < g) edges.
Proof.
  intros Hi Hg Hx.
  destruct (init_fields _ _ _ Hi)
    as (_ & _ & _ & Hgr & Hn & Hadj & _ & _ & _ & _ & _ & _ & _ & Hne).
  destruct (sol_edges_in_range _ _ Hx) as (edges & He & Hedges).
  assert (Hlen : length (adj_list_ problem) = n_var_ problem).
  { by rewrite Hadj, length_get_adjlist, Hn. }
  rewrite Hlen in He. exists edges. split; [done|]. split; [|done].
  unfold decode. rewrite He, bind_Ok_l, Hgr.
  rewrite Bipartite_Ok, bind_Ok_l.
  - set (t := {| b_types := _; b_edges := _ |}).
    assert (Hnz : clusters t <> []).
    { intros Hnil. apply (f_equal length) in Hnil.
      rewrite length_clusters in Hnil. simpl in Hnil.
      rewrite length_map in Hnil. unfold vcount in Hne. done. }
    unfold py_max. destruct (clusters t) eqn:Hc; [done|]. by rewrite bind_Ok_l.
  - eapply Forall_impl; [exact Hedges|].
    intros [i j] (a & g & Ha & Hj & _). simpl in *.
    rewrite Hadj in Ha. apply lookup_get_adjlist in Ha as [-> _].
    by apply neighbors_two_sided.
Qed.

(** C5: on a problem built for a two-sided graph, a genome with one gene
    per vertex, each in [[0, deg(i)]], decodes to one community id per
    vertex; the number of communities lies between 1 and the number of
    vertices; and a vertex that no selected edge ends at shares its id with
    no other vertex. *)
Theorem decode_assigns_every_vertex m graph problem x :
  MultiCriteriaProblem_init m graph = Ok problem ->
  two_sided graph ->
  in_range (adj_list_ problem) x ->
  exists edges membership num_clusters,
    sol_edges (n_var_ problem) (adj_list_ problem) x = Ok edges /\
    decode problem x = Ok (membership, num_clusters) /\
    length membership = vcount graph /\
    (1 <= num_clusters <= vcount graph)%nat /\
    (forall v u, isolated edges v -> (v < vcount graph)%nat -> (u < vcount graph)%nat ->
                 u <> v -> membership !! u <> membership !! v).
Proof.
  intros Hi Hg Hx.
  destruct (decode_in_range _ _ _ _ Hi Hg Hx) as (edges & He & Hd & _).
  destruct (init_fields _ _ _ Hi)
    as (_ & _ & _ & _ & _ & _ & _ & _ & _ & _ & _ & _ & _ & Hne).
  exists edges. eexists. eexists. split; [exact He|]. split; [exact Hd|].
  set (t := {| b_types := _; b_edges := _ |}).
  assert (Hn : length (b_types t) = vcount graph) by (simpl; by rewrite length_map).
  rewrite length_clusters, Hn. split; [done|]. split.
  - pose proof (clusters_max t) as Hmax. rewrite Hn in Hmax. lia.
  - intros v u Hiso Hv Hu Huv. apply clusters_isolated; [done | lia | lia | done].
Qed.

End Decode.

Lemma k23_two_sided : two_sided k23.
Proof.
  intros e He. simpl in He.
  repeat (apply elem_of_cons in He as [->|He]; [reflexivity|]).
  by apply elem_of_nil in He.
Qed.

Lemma k23_in_range : in_range (adj_list_ (k23_problem "3d")) [0; 1; 0; 2; 2].
Proof.
  split; [reflexivity|]. intros i g a Hi Ha.
  do 5 (destruct i as [|i]; [injection Hi as <-; injection Ha as <-; simpl; lia|]).
  done.
Qed.

Lemma decode_assigns_every_vertex_witness :
  exists edges membership num_clusters,
    sol_edges (n_var_ (k23_problem "3d")) (adj_list_ (k23_problem "3d")) [0; 1; 0; 2; 2]
    = Ok edges /\
    decode (k23_problem "3d") [0; 1; 0; 2; 2] = Ok (membership, num_clusters) /\
    length membership = vcount k23 /\
    (1 <= num_clusters <= vcount k23)%nat /\
    (forall v u, isolated edges v -> (v < vcount k23)%nat -> (u < vcount k23)%nat ->
                 u <> v -> membership !! u <> membership !! v).
Proof.
  apply (decode_assigns_every_vertex (ig := k23_igraph) "3d" k23 (k23_problem "3d")
           [0; 1; 0; 2; 2]).
  - vm_compute. reflexivity.
  - exact k23_two_sided.
  - exact k23_in_range.
Defined.

(** Decoding on [k23]: vertex 0 selects nothing and nothing selects it. *)
Example decode_k23 :
  decode (k23_problem "3d") [0; 1; 0; 2; 2] = Ok ([0; 1; 1; 1; 1]%nat, 2%nat).
Proof. vm_compute. reflexivity. Qed.

(** ** Seeding from the spanning tree *)

(** A loop invariant that knows which iterations are over. *)
Lemma for_each_prefix {A S} (P : list A -> S -> Prop) (f : S -> A -> res S) l :
  (forall pre a post s, l = pre ++ a :: post -> P pre s ->
                        exists s', f s a = Ok s' /\ P (pre ++ [a]) s') ->
  forall s, P [] s -> exists s', for_each f s l = Ok s' /\ P l s'.
Proof.
  intros Hstep.
  assert (Hgen : forall post pre s, l = pre ++ post -> P pre s ->
                 exists s', for_each f s post = Ok s' /\ P l s').
  { induction post as [|a post IH]; intros pre s Hl Hp.
    - rewrite app_nil_r in Hl. subst pre. simpl. eauto.
    - destruct (Hstep pre a post s Hl Hp) as (s1 & H1 & Hp1).
      rewrite for_each_cons, H1, bind_Ok_l.
      apply (IH (pre ++ [a])); [|done]. by rewrite <- app_assoc. }
  intros s Hs. by apply (Hgen l []).
Qed.

Lemma keeps_refl x : keeps x x.
Proof. apply Forall2_same_length_lookup_2; [done|]. intros; congruence. Qed.

Lemma keeps_length x x' : keeps x x' -> length x' = length x.
Proof. intros Hk. symmetry. by eapply Forall2_length. Qed.

Lemma keeps_lookup x x' v g :
  keeps x x' -> x !! v = Some g -> g <> -1 -> x' !! v = Some g.
Proof.
  intros Hk Hv Hg.
  destruct (Forall2_lookup_l _ _ _ _ _ Hk Hv) as (g' & Hv' & Hgg).
  rewrite Hv'. f_equal. by apply Hgg.
Qed.

Lemma keeps_trans x x' x'' : keeps x x' -> keeps x' x'' -> keeps x x''.
Proof.
  intros H1 H2. apply Forall2_same_length_lookup_2.
  - apply Forall2_length in H1, H2. congruence.
  - intros v g g'' Hv Hv'' Hg.
    pose proof (keeps_lookup _ _ _ _ H1 Hv Hg) as Hv'.
    pose proof (keeps_lookup _ _ _ _ H2 Hv' Hg) as Hv2. congruence.
Qed.

Lemma keeps_marked x x' v : keeps x x' -> marked x v -> marked x' v.
Proof. intros Hk (g & Hv & Hg). exists g. split; [by eapply keeps_lookup | done]. Qed.

Lemma keeps_unmarked x x' : keeps x x' -> (unmarked_count x' <= unmarked_count x)%nat.
Proof.
  unfold unmarked_count, count_if.
  induction 1 as [|g g' x x' Hg _ IH]; simpl; [done|].
  destruct (g =? -1) eqn:E, (g' =? -1) eqn:E'; simpl; lia.
Qed.

Lemma keeps_insert x v g : x !! v = Some (-1) -> keeps x (<[v := g]> x).
Proof.
  intros Hv. apply Forall2_same_length_lookup_2; [by rewrite length_insert|].
  intros u h h' Hu Hu' Hh.
  destruct (decide (u = v)) as [->|Hne]; [congruence|].
  rewrite list_lookup_insert_ne in Hu' by done. congruence.
Qed.

Lemma unmarked_insert x v g :
  x !! v = Some (-1) -> g <> -1 ->
  S (unmarked_count (<[v := g]> x)) = unmarked_count x.
Proof.
  unfold unmarked_count, count_if. revert v.
  induction x as [|h x IH]; intros [|v] Hv Hg; simpl in *; try done.
  - injection Hv as ->. simpl.
    destruct (g =? -1) eqn:E; [apply Z.eqb_eq in E; done | done].
  - specialize (IH v Hv Hg). destruct (h =? -1); simpl; lia.
Qed.

Lemma linked_keeps a x x' v : keeps x x' -> linked a x v -> linked a x' v.
Proof.
  intros Hk. induction 1 as [H0 | v g av p Hv Hg Ha Hp _ IH].
  - apply linked_root. by eapply keeps_lookup.
  - eapply linked_child; eauto. eapply keeps_lookup; eauto. lia.
Qed.

Lemma closed_keeps t x x' v : keeps x x' -> closed t x v -> closed t x' v.
Proof. intros Hk Hc tv c Ht Hin. eapply keeps_marked; eauto. Qed.

(** The loop over [j]: the gene of [node_index] becomes the position, from
    1, of an entry of [a_node] that holds [node_origin]. *)
Lemma draw_links_spec a_node node origin st :
  (node < length (lx st))%nat ->
  (node < length (binary_links st))%nat ->
  exists st1,
    for_each (draw_link a_node node origin) st (seq 0 (length a_node)) = Ok st1 /\
    length (binary_links st1) = length (binary_links st) /\
    (((origin ∉ a_node) /\ lx st1 = lx st) \/
     exists j, a_node !! j = Some origin /\ lx st1 = <[node := Z.of_nat j + 1]> (lx st)).
Proof.
  intros Hx Hb.
  destruct (for_each_prefix
    (fun pre st1 =>
       length (binary_links st1) = length (binary_links st) /\
       (((forall j, j ∈ pre -> a_node !! j <> Some origin) /\ lx st1 = lx st) \/
        exists j, a_node !! j = Some origin /\ lx st1 = <[node := Z.of_nat j + 1]> (lx st)))
    (draw_link a_node node origin) (seq 0 (length a_node))) with (s := st)
    as (st1 & Hrun & Hlen & Hcase).
  - intros pre j post s Hsplit [Hlen Hcase].
    assert (Hj : j ∈ seq 0 (length a_node)).
    { rewrite Hsplit. apply elem_of_app. right. apply list_elem_of_here. }
    apply elem_of_seq in Hj.
    unfold draw_link.
    destruct (py_get_lt a_node j) as (aj & -> & Haj); [lia|]. rewrite bind_Ok_l.
    assert (Hxs : length (lx s) = length (lx st)).
    { destruct Hcase as [[_ ->]|(j' & _ & ->)]; [done | by rewrite length_insert]. }
    destruct (Nat.eqb aj origin) eqn:E.
    + apply Nat.eqb_eq in E. subst aj.
      unfold py_set.
      destruct (node <? length (lx s))%nat eqn:E1; [|apply Nat.ltb_ge in E1; lia].
      destruct (node <? length (binary_links s))%nat eqn:E2; [|apply Nat.ltb_ge in E2; lia].
      rewrite !bind_Ok_l. eexists. split; [reflexivity|]. simpl.
      split; [by rewrite length_insert|].
      right. exists j. split; [done|].
      destruct Hcase as [[_ ->]|(j' & _ & ->)]; [done|].
      by rewrite list_insert_insert_eq.
    + apply Nat.eqb_neq in E. eexists. split; [reflexivity|]. split; [done|].
      destruct Hcase as [[Hno Heq]|Hyes]; [|by right].
      left. split; [|done]. intros k Hk.
      apply elem_of_app in Hk as [Hk|Hk]; [by apply Hno|].
      apply list_elem_of_singleton in Hk. subst k. congruence.
  - split; [done|]. left. split; [|done]. intros j Hj. by apply elem_of_nil in Hj.
  - exists st1. split; [done|]. split; [done|].
    destruct Hcase as [[Hno Heq]|Hyes]; [|by right].
    left. split; [|done]. intros Hin.
    apply list_elem_of_lookup in Hin as [j Hj].
    apply (Hno j); [|done]. apply elem_of_seq.
    apply lookup_lt_Some in Hj. lia.
Qed.

Lemma marked_dec x v : {marked x v} + {~ marked x v}.
Proof.
  unfold marked. destruct (x !! v) as [g|] eqn:Hv.
  - destruct (decide (g = -1)) as [->|Hg].
    + right. intros (g' & Hg' & Hne). congruence.
    + left. eauto.
  - right. intros (g' & Hg' & _). congruence.
Qed.

Section Orientation.
Variables (a t : list (list nat)).
Hypothesis same_length : length t = length a.
(** A tree edge from [u] to [v] is a graph edge, which [v] lists too. *)
Hypothesis tree_edge :
  forall u v tu, t !! u = Some tu -> v ∈ tu ->
                 (v < length a)%nat /\ exists av, a !! v = Some av /\ u ∈ av.

(** The loop over the tree neighbours of a marked [node]. *)
Lemma children_spec depth node m_node st1 :
  links_ok a t depth ->
  t !! node = Some m_node ->
  length (lx st1) = length a ->
  length (binary_links st1) = length a ->
  all_linked a (lx st1) ->
  marked (lx st1) node ->
  (unmarked_count (lx st1) < depth)%nat ->
  exists st',
    for_each (fun st i =>
                child ← py_get m_node i;
                recursive_links depth a t child node st)
             st1 (seq 0 (length m_node)) = Ok st' /\
    keeps (lx st1) (lx st') /\
    length (binary_links st') = length a /\
    all_linked a (lx st') /\
    (forall v, marked (lx st') v -> ~ marked (lx st1) v -> closed t (lx st') v) /\
    (forall c, c ∈ m_node -> marked (lx st') c).
Proof.
  intros Hrl Hnode Hx Hb Hlink Hmark Hfuel.
  destruct (for_each_prefix
    (fun pre st2 =>
       keeps (lx st1) (lx st2) /\
       length (binary_links st2) = length a /\
       all_linked a (lx st2) /\
       (forall v, marked (lx st2) v -> ~ marked (lx st1) v -> closed t (lx st2) v) /\
       (forall i c, i ∈ pre -> m_node !! i = Some c -> marked (lx st2) c))
    (fun st i => child ← py_get m_node i; recursive_links depth a t child node st)
    (seq 0 (length m_node))) with (s := st1)
    as (st' & Hrun & Hk & Hb' & Hl' & Hnew & Hdone).
  - intros pre i post st2 Hsplit (Hk & Hb2 & Hl2 & Hnew & Hdone).
    assert (Hi : i ∈ seq 0 (length m_node)).
    { rewrite Hsplit. apply elem_of_app. right. apply list_elem_of_here. }
    apply elem_of_seq in Hi.
    destruct (py_get_lt m_node i) as (c & -> & Hc); [lia|]. rewrite bind_Ok_l.
    assert (Hcin : c ∈ m_node) by (apply list_elem_of_lookup; eauto).
    destruct (tree_edge node c m_node Hnode Hcin) as [Hcn Hback].
    destruct (Hrl c node st2) as (st3 & Hcall & Hk3 & Hb3 & Hl3 & Hm3 & Hnew3); try done.
    + rewrite (keeps_length _ _ Hk). done.
    + by eapply keeps_marked.
    + pose proof (keeps_unmarked _ _ Hk). lia.
    + exists st3. split; [done|].
      split; [by eapply keeps_trans|].
      split; [congruence|]. split; [done|]. split.
      * intros v Hv3 Hv1. destruct (marked_dec (lx st2) v) as [Hv2|Hv2].
        -- eapply closed_keeps; [exact Hk3|]. by apply Hnew.
        -- by apply Hnew3.
      * intros i' c' Hi' Hc'. apply elem_of_app in Hi' as [Hi'|Hi'].
        -- eapply keeps_marked; [exact Hk3|]. by eapply Hdone.
        -- apply list_elem_of_singleton in Hi'. subst i'.
           rewrite Hc in Hc'. injection Hc' as <-. done.
  - split; [apply keeps_refl|]. split; [done|]. split; [done|].
    split; [intros v Hv Hnv; done|]. intros i c Hi. by apply elem_of_nil in Hi.
  - exists st'. repeat (split; [done|]).
    intros c Hc. apply list_elem_of_lookup in Hc as [i Hi].
    apply (Hdone i c); [|done]. apply elem_of_seq.
    apply lookup_lt_Some in Hi. lia.
Qed.

(** With more calls left than vertices unmarked, [recursive_links]
    returns. *)
Lemma recursive_links_ok depth : links_ok a t depth.
Proof.
  induction depth as [|d IH]; intros child node st Hc (ac & Hac & Hin) Hx Hb Hl Hm Hfuel;
    [lia|].
  cbn [recursive_links].
  destruct (py_get_lt (lx st) child) as (xn & -> & Hxn); [lia|]. rewrite bind_Ok_l.
  destruct (decide (xn = -1)) as [->|Hne].
  - simpl. apply py_get_Ok in Hac. rewrite Hac, bind_Ok_l.
    destruct (draw_links_spec ac child node st) as (st1 & -> & Hb1 & Hcase); [lia | lia |].
    rewrite bind_Ok_l.
    destruct Hcase as [[Hno _]|(j & Hj & Hx1)]; [done|].
    destruct (lookup_lt_is_Some_2 t child) as [m_node Hmn]; [lia|].
    assert (Hget : py_get t child = Ok m_node) by (by apply py_get_Ok).
    rewrite Hget, bind_Ok_l.
    assert (Hk1 : keeps (lx st) (lx st1)) by (rewrite Hx1; by apply keeps_insert).
    assert (Hc1 : lx st1 !! child = Some (Z.of_nat j + 1)).
    { rewrite Hx1. apply list_lookup_insert_eq. lia. }
    assert (Hmc : marked (lx st1) child) by (exists (Z.of_nat j + 1); split; [done | lia]).
    destruct (children_spec d child m_node st1 IH Hmn)
      as (st' & Hrun & Hk & Hb' & Hl' & Hnew & Hdone).
    + rewrite Hx1, length_insert. done.
    + congruence.
    + intros v Hv. destruct (decide (v = child)) as [->|Hvc].
      * eapply linked_child; [exact Hc1 | lia | by apply py_get_Ok in Hac | |].
        -- replace (Z.to_nat (Z.of_nat j + 1 - 1)) with j by lia. done.
        -- eapply linked_keeps; [exact Hk1|]. by apply Hl.
      * eapply linked_keeps; [exact Hk1|]. apply Hl.
        destruct Hv as (g & Hg & Hgne). exists g. split; [|done].
        by rewrite Hx1, list_lookup_insert_ne in Hg.
    + exact Hmc.
    + pose proof (unmarked_insert (lx st) child (Z.of_nat j + 1) Hxn) as Hu.
      rewrite <- Hx1 in Hu. lia.
    + exists st'. split; [done|]. split; [by eapply keeps_trans|].
      split; [congruence|]. split; [done|].
      split; [by eapply keeps_marked|].
      intros v Hv Hnv. destruct (decide (v = child)) as [->|Hvc].
      * intros tv c Htv Hcin. rewrite Hmn in Htv. injection Htv as <-. by apply Hdone.
      * apply Hnew; [done|]. intros (g & Hg & Hgne). apply Hnv.
        exists g. split; [|done]. by rewrite Hx1, list_lookup_insert_ne in Hg.
  - assert (Hneq : negb (xn =? -1) = true).
    { apply negb_true_iff. by apply Z.eqb_neq. }
    rewrite Hneq. exists st. split; [done|].
    split; [apply keeps_refl|]. split; [done|]. split; [done|].
    split; [by exists xn|]. intros v Hv Hnv. done.
Qed.

End Orientation.

Lemma unmarked_replicate k : unmarked_count (replicate k (-1)) = k.
Proof.
  unfold unmarked_count, count_if. induction k as [|k IH]; simpl; [done|]. by rewrite IH.
Qed.

Section Seed.
Variables (a t : list (list nat)).
Hypothesis same_length : length t = length a.
Hypothesis tree_edge :
  forall u v tu, t !! u = Some tu -> v ∈ tu ->
                 (v < length a)%nat /\ exists av, a !! v = Some av /\ u ∈ av.
Hypothesis connected : forall v, (v < length a)%nat -> tree_reach t 0 v.
Hypothesis nonempty : (0 < length a)%nat.

(** The loop that translates the tree into a genome: its first iteration
    marks every vertex and links it to vertex 0, the others find nothing
    left to do. *)
Lemma seed_loop_spec depth :
  (length a <= depth)%nat ->
  exists st,
    for_each (seed_vertex depth a t)
             {| lx := replicate (length a) (-1); temp_edges := [];
                binary_links := replicate (length a) (-1) |}
             (seq 0 (length a)) = Ok st /\
    length (lx st) = length a /\
    (forall v, (v < length a)%nat -> marked (lx st) v) /\
    all_linked a (lx st) /\
    lx st !! 0%nat = Some 0.
Proof.
  intros Hdepth.
  set (n := length a) in *.
  assert (Hseq : seq 0 n = 0%nat :: seq 1 (n - 1)).
  { destruct n; [lia|]. simpl. by rewrite Nat.sub_0_r. }
  rewrite Hseq, for_each_cons.
  set (st_init := {| lx := replicate n (-1); temp_edges := [];
                     binary_links := replicate n (-1) |}).
  set (st0 := {| lx := <[0%nat := 0]> (replicate n (-1)); temp_edges := [];
                 binary_links := replicate n (-1) |}).
  destruct (lookup_lt_is_Some_2 t 0%nat) as [m_0 Hm0]; [lia|].
  assert (Hinit0 : replicate n (-1) !! 0%nat = Some (-1)).
  { apply lookup_replicate. split; [done | lia]. }
  assert (Hx0 : lx st0 !! 0%nat = Some 0).
  { simpl. apply list_lookup_insert_eq. rewrite length_replicate. lia. }
  assert (Hrest0 : forall v g, v <> 0%nat -> lx st0 !! v = Some g -> g = -1).
  { intros v g Hv Hg. simpl in Hg. rewrite list_lookup_insert_ne in Hg by done.
    by apply lookup_replicate in Hg as [-> _]. }
  destruct (children_spec a t same_length tree_edge depth 0 m_0 st0)
    as (st' & Hrun & Hk & Hb' & Hl' & Hnew & Hdone).
  - by apply recursive_links_ok.
  - done.
  - simpl. by rewrite length_insert, length_replicate.
  - simpl. by rewrite length_replicate.
  - intros v (g & Hg & Hgne). destruct (decide (v = 0%nat)) as [->|Hv].
    + by apply linked_root.
    + by apply Hrest0 in Hg.
  - exists 0. done.
  - pose proof (unmarked_insert (replicate n (-1)) 0 0 Hinit0) as Hu.
    rewrite unmarked_replicate in Hu. simpl. lia.
  - assert (Hall : forall v, (v < n)%nat -> marked (lx st') v).
    { intros v Hv. specialize (connected v Hv).
      induction connected as [|u w tu _ IHu Htu Hw].
      - eapply keeps_marked; [exact Hk|]. exists 0. done.
      - assert (Hu : (u < n)%nat).
        { apply lookup_lt_Some in Htu. unfold n. lia. }
        specialize (IHu Hu).
        assert (Hcl : closed t (lx st') u).
        { destruct (decide (u = 0%nat)) as [->|Hu0].
          - intros tv c Htv Hc. rewrite Hm0 in Htv. injection Htv as <-. by apply Hdone.
          - apply Hnew; [done|]. intros (g & Hg & Hgne). by apply Hrest0 in Hg. }
        by eapply Hcl. }
    assert (Hfirst : seed_vertex depth a t st_init 0 = Ok st').
    { unfold seed_vertex. simpl.
      assert (Hg0 : py_get (replicate n (-1)) 0 = Ok (-1)) by (by apply py_get_Ok).
      rewrite Hg0, bind_Ok_l. simpl.
      unfold py_set. rewrite length_replicate.
      destruct (0 <? n)%nat eqn:E; [|apply Nat.ltb_ge in E; lia].
      rewrite bind_Ok_l.
      assert (Hgm : py_get t 0 = Ok m_0) by (by apply py_get_Ok).
      by rewrite Hgm, bind_Ok_l. }
    rewrite Hfirst, bind_Ok_l.
    destruct (for_each_total (fun s => s = st') (seed_vertex depth a t) (seq 1 (n - 1)))
      with (s := st') as (st'' & Hrest & ->); [|done|].
    + intros s i Hi ->. apply elem_of_seq in Hi.
      destruct (Hall i) as (g & Hg & Hgne); [lia|].
      unfold seed_vertex. apply py_get_Ok in Hg. rewrite Hg, bind_Ok_l.
      destruct (g =? -1) eqn:E; [apply Z.eqb_eq in E; done|]. eauto.
    + exists st'. split; [done|].
      split; [rewrite (keeps_length _ _ Hk); simpl; by rewrite length_insert, length_replicate|].
      split; [done|]. split; [done|].
      by eapply keeps_lookup.
Qed.

End Seed.

(** ** The seed genome is one community (C6) *)

Lemma for_each_prefix_inv {A S} (P : list A -> S -> Prop) (f : S -> A -> res S) l :
  (forall pre a post s s', l = pre ++ a :: post -> P pre s -> f s a = Ok s' ->
                           P (pre ++ [a]) s') ->
  forall s s', P [] s -> for_each f s l = Ok s' -> P l s'.
Proof.
  intros Hstep.
  assert (Hgen : forall post pre s s', l = pre ++ post -> P pre s ->
                 for_each f s post = Ok s' -> P l s').
  { induction post as [|a post IH]; intros pre s s' Hl Hp Hrun.
    - rewrite app_nil_r in Hl. subst pre. simpl in Hrun. by injection Hrun as <-.
    - rewrite for_each_cons in Hrun. apply bind_Ok in Hrun as (s1 & H1 & Hrun).
      apply (IH (pre ++ [a]) s1 s'); [by rewrite <- app_assoc | | done].
      by eapply Hstep. }
  intros s s' Hs Hrun. by apply (Hgen l [] s s').
Qed.

(** Every gene above 0 contributes the edge to the neighbour it selects. *)
Lemma sol_edges_selects n_var adj_list x edges i g av p :
  sol_edges n_var adj_list x = Ok edges ->
  (i < n_var)%nat -> x !! i = Some g -> 0 < g ->
  adj_list !! i = Some av -> av !! Z.to_nat (g - 1) = Some p ->
  (i, p) ∈ edges.
Proof.
  intros Hrun Hi Hx Hg Ha Hp.
  assert (Hall : forall k, k ∈ seq 0 n_var -> k = i -> (i, p) ∈ edges).
  { unfold sol_edges in Hrun.
    refine (for_each_prefix_inv
              (fun pre acc => forall k, k ∈ pre -> k = i -> (i, p) ∈ acc)
              _ _ _ [] edges _ Hrun).
    - intros pre k post acc acc' _ Hpre Hstep k' Hk' ->.
      destruct (py_get x k) as [xk|] eqn:Hxk; [|discriminate].
      rewrite bind_Ok_l in Hstep.
      destruct (0 <? xk) eqn:H0.
      + apply bind_Ok in Hstep as (ak & Hak & Hstep).
        apply bind_Ok in Hstep as (j & Hj & Hstep). injection Hstep as <-.
        apply elem_of_app in Hk' as [Hk'|Hk'].
        * apply elem_of_app. left. by apply (Hpre i).
        * apply list_elem_of_singleton in Hk'. subst k.
          apply py_get_Ok in Hxk, Hak.
          assert (xk = g) by congruence. assert (ak = av) by congruence. subst xk ak.
          unfold py_index in Hj.
          destruct (0 <=? g - 1) eqn:H1; [|apply Z.leb_gt in H1; lia].
          apply py_get_Ok in Hj. assert (j = p) by congruence. subst j.
          apply elem_of_app. right. apply list_elem_of_here.
      + injection Hstep as <-.
        apply elem_of_app in Hk' as [Hk'|Hk']; [by apply (Hpre i)|].
        apply list_elem_of_singleton in Hk'. subst k.
        apply py_get_Ok in Hxk. assert (xk = g) by congruence. subst xk.
        apply Z.ltb_ge in H0. lia.
    - intros k Hk. by apply elem_of_nil in Hk. }
  apply (Hall i); [|done]. apply elem_of_seq. lia.
Qed.

Lemma multiplicity_sym g v u : multiplicity g v u = multiplicity g u v.
Proof. unfold multiplicity. by rewrite Nat.min_comm, Nat.max_comm. Qed.

Lemma adjacency_count_pos g v u :
  (0 < adjacency_count g v u)%nat <-> (0 < multiplicity g v u)%nat.
Proof. unfold adjacency_count. destruct (Nat.eqb v u); lia. Qed.

Lemma elem_of_neighbors_iff g v u :
  u ∈ neighbors g v <-> (u < vcount g)%nat /\ (0 < multiplicity g v u)%nat.
Proof.
  unfold neighbors. rewrite list_elem_of_In, in_flat_map. split.
  - intros (w & Hw & Hu).
    apply list_elem_of_In, elem_of_seq in Hw.
    apply list_elem_of_In, elem_of_replicate in Hu as [Heq Hm]. subst w.
    split; [lia|]. apply adjacency_count_pos. lia.
  - intros [Hu Hm]. exists u. split.
    + apply list_elem_of_In, elem_of_seq. lia.
    + apply list_elem_of_In, elem_of_replicate. split; [done|].
      apply adjacency_count_pos in Hm. lia.
Qed.

(** A neighbour lists the vertex in turn. *)
Lemma neighbors_sym g v u :
  (v < vcount g)%nat -> u ∈ neighbors g v -> v ∈ neighbors g u.
Proof.
  intros Hv Hu. apply elem_of_neighbors_iff in Hu as [Hu Hm].
  apply elem_of_neighbors_iff. split; [done|]. by rewrite multiplicity_sym.
Qed.

Lemma lookup_get_adjlist_lt g i :
  (i < vcount g)%nat -> get_adjlist g !! i = Some (neighbors g i).
Proof.
  intros Hi. unfold get_adjlist. rewrite map_fmap, list_lookup_fmap.
  by rewrite lookup_seq_lt.
Qed.

Lemma max_list_replicate_0 k : max_list (replicate k 0%nat) = 0%nat.
Proof. induction k as [|k IH]; simpl; [done|]. by rewrite IH. Qed.

Section SeedDecodes.
Context {ig : IGraph}.

(** The seeding returns: a genome in range with gene 0 at vertex 0, in
    which every vertex is linked to vertex 0. *)
Lemma mst_genome_spec m graph problem depth :
  MultiCriteriaProblem_init m graph = Ok problem ->
  spans (get_adjlist graph) (spanning_tree graph (edge_betweenness graph)) ->
  (vcount graph <= depth)%nat ->
  exists x,
    mst_genome depth problem = Ok x /\
    x !! 0%nat = Some 0 /\
    in_range (adj_list_ problem) x /\
    (forall v, (v < vcount graph)%nat -> linked (get_adjlist graph) x v).
Proof.
  intros Hi (Hlen & Hsub & Hconn) Hdepth.
  destruct (init_fields _ _ _ Hi)
    as (_ & _ & _ & Hgr & Hn & Hadj & _ & _ & _ & _ & _ & _ & _ & Hne).
  set (a := get_adjlist graph) in *.
  set (t := spanning_tree graph (edge_betweenness graph)) in *.
  assert (Hla : length a = vcount graph) by apply length_get_adjlist.
  assert (Htree : forall u v tu, t !! u = Some tu -> v ∈ tu ->
            (v < length a)%nat /\ exists av, a !! v = Some av /\ u ∈ av).
  { intros u v tu Htu Hv. destruct (Hsub u v tu Htu Hv) as (au & Hau & Hvu).
    apply lookup_get_adjlist in Hau as [-> Hu].
    pose proof (neighbors_sym _ _ _ Hu Hvu) as Huv.
    apply elem_of_neighbors_iff in Hvu as [Hv' _].
    split; [lia|]. exists (neighbors graph v).
    split; [by apply lookup_get_adjlist_lt | done]. }
  destruct (seed_loop_spec a t Hlen Htree Hconn) with (depth := depth)
    as (st & Hrun & Hxlen & Hmarked & Hlinked & Hx0); [lia | lia |].
  exists (lx st). split; [|split; [done|split]].
  - unfold mst_genome. rewrite Hgr, Hadj, Hn. fold a t.
    rewrite <- Hla, Hrun. done.
  - rewrite Hadj. fold a. split; [done|].
    intros i g av Hig Hav.
    assert (Him : marked (lx st) i).
    { apply Hmarked. apply lookup_lt_Some in Hav. lia. }
    destruct (Hlinked i Him) as [H0|v g' av' p Hv Hg' Hav' Hp _].
    + assert (g = 0) by congruence. lia.
    + assert (g' = g) by congruence. assert (av' = av) by congruence. subst g' av'.
      apply lookup_lt_Some in Hp. lia.
  - intros v Hv. apply Hlinked, Hmarked. lia.
Qed.

(** C6: on a problem built for a two-sided graph whose spanning tree
    connects all the vertices, and with at least as many nested calls
    allowed as there are vertices, the seeding returns a genome with gene 0
    at vertex 0 that decodes to the single community 0 on every vertex:
    [num_clusters] is 1. *)
Theorem mst_seed_is_one_community m graph problem depth :
  MultiCriteriaProblem_init m graph = Ok problem ->
  two_sided graph ->
  spans (get_adjlist graph) (spanning_tree graph (edge_betweenness graph)) ->
  (vcount graph <= depth)%nat ->
  exists x,
    mst_genome depth problem = Ok x /\
    x !! 0%nat = Some 0 /\
    decode problem x = Ok (replicate (vcount graph) 0%nat, 1%nat).
Proof.
  intros Hi Hg Hspan Hdepth.
  destruct (mst_genome_spec _ _ _ _ Hi Hspan Hdepth) as (x & Hx & Hx0 & Hrange & Hlinked).
  destruct (init_fields _ _ _ Hi)
    as (_ & _ & _ & Hgr & Hn & Hadj & _ & _ & _ & _ & _ & _ & _ & Hne).
  exists x. split; [done|]. split; [done|].
  destruct (decode_in_range _ _ _ _ Hi Hg Hrange) as (edges & Hedges & Hd & _).
  rewrite Hd.
  set (bt := {| b_types := map truthy (vs_VX graph); b_edges := edges |}).
  assert (Hbn : length (b_types bt) = vcount graph) by (simpl; by rewrite length_map).
  assert (Hc : clusters bt = replicate (vcount graph) 0%nat).
  { rewrite <- Hbn. apply components_single; [lia|].
    intros v Hv. rewrite Hbn in Hv |- *.
    specialize (Hlinked v Hv).
    clear Hv. induction Hlinked as [H0|v g av p Hv Hg0 Hav Hp Hlp IH].
    - apply flood_start. lia.
    - simpl. assert (Hvn : (v < vcount graph)%nat).
      { apply lookup_lt_Some in Hav. rewrite length_get_adjlist in Hav. done. }
      apply (flood_crosses edges (vcount graph) 0 p v); [lia | done | | exact IH].
      right. rewrite Hadj, Hn in Hedges.
      eapply (sol_edges_selects _ _ _ _ v g av p Hedges); done. }
  rewrite Hc, max_list_replicate_0. done.
Qed.

End SeedDecodes.

Ltac list_mem := repeat first [apply list_elem_of_here | apply list_elem_of_further].

Lemma k23_spans :
  spans (get_adjlist k23)
        (@spanning_tree k23_igraph k23 (@edge_betweenness k23_igraph k23)).
Proof.
  split; [reflexivity|]. split.
  - intros u v tu Htu Hv.
    do 5 (destruct u as [|u];
          [injection Htu as <-; eexists; split; [reflexivity|];
           repeat (apply elem_of_cons in Hv as [->|Hv]; [list_mem|]);
           by apply elem_of_nil in Hv|]).
    done.
  - intros v Hv.
    assert (H0 : tree_reach (@spanning_tree k23_igraph k23 (@edge_betweenness k23_igraph k23))
                   0 0) by constructor.
    assert (H2 : tree_reach (@spanning_tree k23_igraph k23 (@edge_betweenness k23_igraph k23))
                   0 2).
    { eapply tree_reach_step; [exact H0 | reflexivity | list_mem]. }
    destruct v as [|[|[|[|[|v]]]]].
    + exact H0.
    + eapply tree_reach_step; [exact H2 | reflexivity | list_mem].
    + exact H2.
    + eapply tree_reach_step; [exact H0 | reflexivity | list_mem].
    + eapply tree_reach_step; [exact H0 | reflexivity | list_mem].
    + simpl in Hv. lia.
Qed.

Lemma mst_seed_is_one_community_witness :
  exists x,
    mst_genome (ig := k23_igraph) 5 (k23_problem "3d") = Ok x /\
    x !! 0%nat = Some 0 /\
    decode (k23_problem "3d") x = Ok (replicate (vcount k23) 0%nat, 1%nat).
Proof.
  apply (mst_seed_is_one_community (ig := k23_igraph) "3d" k23 (k23_problem "3d") 5).
  - vm_compute. reflexivity.
  - exact k23_two_sided.
  - exact k23_spans.
  - unfold vcount. simpl. lia.
Defined.

(** ** The first row of the initial population (C10) *)

Lemma set_gene_Ok (X : list (list Z)) i l v row :
  X !! i = Some row -> (l < length row)%nat ->
  set_gene X i l v = Ok (<[i := <[l := v]> row]> X).
Proof.
  intros Hrow Hl. unfold set_gene, py_set.
  apply py_get_Ok in Hrow as Hget. rewrite Hget, bind_Ok_l.
  destruct (l <? length row)%nat eqn:E; [|apply Nat.ltb_ge in E; lia].
  rewrite bind_Ok_l.
  apply lookup_lt_Some in Hrow.
  destruct (i <? length X)%nat eqn:E'; [done | apply Nat.ltb_ge in E'; lia].
Qed.

(** Writing to row [i] leaves the other rows as they are. *)
Lemma set_gene_frame (X X' : list (list Z)) i l v k :
  set_gene X i l v = Ok X' -> k <> i -> X' !! k = X !! k.
Proof.
  unfold set_gene, py_set. intros Hs Hk.
  apply bind_Ok in Hs as (row & _ & Hs).
  apply bind_Ok in Hs as (row' & _ & Hs).
  destruct (i <? length X)%nat; [|discriminate].
  injection Hs as <-. by rewrite list_lookup_insert_ne.
Qed.

Lemma in_range_zero a row j : in_range a row -> in_range a (<[j := 0]> row).
Proof.
  intros [Hlen Hr]. split; [by rewrite length_insert|].
  intros i g av Hi Hav. destruct (decide (i = j)) as [->|Hne].
  - apply list_lookup_insert_Some in Hi as [(_ & <- & _)|[Hne _]]; [lia | done].
  - rewrite list_lookup_insert_ne in Hi by done. eauto.
Qed.

Section Diversity.
Context {ig : IGraph}.

Lemma cut_gene_frame problem test ctr pop j pop' :
  cut_gene problem test ctr pop j = Ok pop' -> ctr <> 0%nat -> pop' !! 0%nat = pop !! 0%nat.
Proof.
  unfold cut_gene. intros Hc Hctr.
  apply bind_Ok in Hc as (row & _ & Hc).
  apply bind_Ok in Hc as (g & _ & Hc).
  apply bind_Ok in Hc as ([] & _ & Hc); [|by injection Hc as <-].
  apply bind_Ok in Hc as (d & _ & Hc).
  destruct (1 <? d); [|by injection Hc as <-].
  eapply set_gene_frame; [exact Hc | lia].
Qed.

(** The diversity phase does not write to row 0. *)
Lemma diversify_frame problem popsize pop pop' :
  diversify problem popsize pop = Ok pop' -> pop' !! 0%nat = pop !! 0%nat.
Proof.
  unfold diversify. intros Hd.
  apply bind_Ok in Hd as (r & Hrun & Hd). injection Hd as <-.
  assert (Hinv : r.1 !! 0%nat = pop !! 0%nat /\ r.2 <> 0%nat); [|by destruct Hinv].
  refine (for_each_inv (fun st => st.1 !! 0%nat = pop !! 0%nat /\ st.2 <> 0%nat)
            _ _ _ (pop, 1%nat) r _ Hrun); [|by split].
  intros [pop1 ctr] k [pop2 ctr2] _ [Hrow Hctr] Hstep. simpl in *.
  apply bind_Ok in Hstep as (pop3 & Hinner & Hstep). injection Hstep as <- <-.
  split; [|lia]. rewrite <- Hrow.
  refine (for_each_inv (fun s => s !! 0%nat = pop1 !! 0%nat) _ _ _ pop1 pop3 _ Hinner);
    [|done].
  intros s j s' _ Hs Hcut. rewrite <- Hs. by eapply cut_gene_frame.
Qed.

(** On rows in range and cuts that label every vertex, the diversity
    phase returns. *)
Lemma diversify_total m graph problem popsize pop :
  MultiCriteriaProblem_init m graph = Ok problem ->
  (forall k, length (fastgreedy_cut graph k) = vcount graph) ->
  length pop = popsize ->
  Forall (in_range (adj_list_ problem)) pop ->
  exists pop', diversify problem popsize pop = Ok pop' /\ length pop' = popsize.
Proof.
  intros Hi Hcut Hlen Hrows.
  destruct (init_fields _ _ _ Hi)
    as (_ & _ & _ & Hgr & Hn & Hadj & Hxu & _ & _ & _ & _ & _ & _ & Hne).
  unfold diversify.
  destruct (for_each_prefix
    (fun pre (st : list (list Z) * nat) =>
       st.2 = S (length pre) /\ length st.1 = popsize /\
       Forall (in_range (adj_list_ problem)) st.1)
    (fun st k =>
       let test := fastgreedy_cut (graph_ problem) (Z.of_nat k) in
       pop' ← for_each (cut_gene problem test st.2) st.1 (seq 0 (n_var_ problem));
       Ok (pop', S st.2))
    (seq 2 (Nat.min popsize (n_var_ problem) - 1))) with (s := (pop, 1%nat))
    as (r & Hrun & _ & Hlen' & _).
  - intros pre k post [pop1 ctr] Hsplit (Hctr & Hl1 & Hr1). simpl in *.
    assert (Hpre : (length pre < Nat.min popsize (n_var_ problem) - 1)%nat).
    { apply (f_equal length) in Hsplit.
      rewrite length_seq, length_app in Hsplit. simpl in Hsplit. lia. }
    destruct (for_each_total
      (fun pop2 => length pop2 = popsize /\ Forall (in_range (adj_list_ problem)) pop2)
      (cut_gene problem (fastgreedy_cut (graph_ problem) (Z.of_nat k)) ctr)
      (seq 0 (n_var_ problem))) with (s := pop1) as (pop3 & Hinner & Hl3 & Hr3);
      [|done|].
    + intros pop2 j Hj [Hl2 Hr2]. apply elem_of_seq in Hj.
      unfold cut_gene.
      destruct (lookup_lt_is_Some_2 pop2 ctr) as [row Hrow]; [lia|].
      pose proof (Forall_lookup_1 _ _ _ _ Hr2 Hrow) as [Hrl Hrg].
      assert (Hgetrow : py_get pop2 ctr = Ok row) by (by apply py_get_Ok).
      rewrite Hgetrow, bind_Ok_l.
      assert (Hal : length (adj_list_ problem) = n_var_ problem).
      { by rewrite Hadj, length_get_adjlist, Hn. }
      destruct (py_get_lt row j) as (g & -> & Hg); [lia|]. rewrite bind_Ok_l.
      assert (Hzero : exists pop4, set_gene pop2 ctr j 0 = Ok pop4 /\
                length pop4 = popsize /\ Forall (in_range (adj_list_ problem)) pop4).
      { rewrite (set_gene_Ok pop2 ctr j 0 row) by (done || lia).
        eexists. split; [reflexivity|]. split; [by rewrite length_insert|].
        apply Forall_insert; [done|]. by apply in_range_zero. }
      assert (Hd : exists d, py_get (xu_ problem) j = Ok d).
      { destruct (py_get_lt (xu_ problem) j) as (d & Hd & _); [|eauto].
        rewrite Hxu. unfold indegree. rewrite length_map, length_get_adjlist. lia. }
      destruct Hd as [d Hd].
      destruct (g =? 0) eqn:Hg0.
      * rewrite bind_Ok_l. eauto.
      * apply Z.eqb_neq in Hg0.
        destruct (py_get_lt (adj_list_ problem) j) as (a_j & -> & Haj); [lia|].
        rewrite bind_Ok_l.
        specialize (Hrg j g a_j Hg Haj).
        destruct (py_index_in_range a_j (g - 1)) as (nb & -> & Hnb); [lia|].
        rewrite bind_Ok_l.
        rewrite Hadj in Haj. apply lookup_get_adjlist in Haj as [-> _].
        apply elem_of_neighbors in Hnb as [Hnb _].
        rewrite Hgr.
        destruct (py_get_lt (fastgreedy_cut graph (Z.of_nat k)) nb) as (t_nb & -> & _);
          [rewrite Hcut; lia|].
        destruct (py_get_lt (fastgreedy_cut graph (Z.of_nat k)) j) as (t_j & -> & _);
          [rewrite Hcut; lia|].
        rewrite !bind_Ok_l.
        destruct (negb (Nat.eqb t_nb t_j)); [|eauto].
        rewrite Hd, bind_Ok_l. destruct (1 <? d); eauto.
    + rewrite Hinner, bind_Ok_l. eexists. split; [reflexivity|]. simpl.
      rewrite length_app. simpl. split; [lia|]. done.
  - simpl. done.
  - cbv zeta in Hrun |- *. rewrite Hrun, bind_Ok_l. eauto.
Qed.

(** C10: with a spanning tree that connects all the vertices, cuts that
    label every vertex and enough nested calls allowed, [initialize_pop]
    returns [popsize] rows, and for a population size of at least 1 its row
    0 is the genome derived from the spanning tree, gene for gene. *)
Theorem initialize_pop_keeps_seed_row m graph problem depth popsize :
  MultiCriteriaProblem_init m graph = Ok problem ->
  spans (get_adjlist graph) (spanning_tree graph (edge_betweenness graph)) ->
  (forall k, length (fastgreedy_cut graph k) = vcount graph) ->
  (vcount graph <= depth)%nat ->
  (1 <= popsize)%nat ->
  exists x pop,
    mst_genome depth problem = Ok x /\
    initialize_pop depth problem popsize = Ok pop /\
    length pop = popsize /\
    pop !! 0%nat = Some x.
Proof.
  intros Hi Hspan Hcut Hdepth Hpop.
  destruct (mst_genome_spec _ _ _ _ Hi Hspan Hdepth) as (x & Hx & _ & Hrange & _).
  destruct (diversify_total m graph problem popsize (replicate popsize x) Hi Hcut)
    as (pop & Hd & Hlen).
  - apply length_replicate.
  - by apply Forall_replicate.
  - exists x, pop. split; [done|].
    unfold initialize_pop. rewrite Hx, bind_Ok_l.
    split; [done|]. split; [done|].
    rewrite (diversify_frame _ _ _ _ Hd). apply lookup_replicate_2. lia.
Qed.

End Diversity.

Lemma k23_cuts k : length (@fastgreedy_cut k23_igraph k23 k) = vcount k23.
Proof. reflexivity. Qed.

Lemma initialize_pop_keeps_seed_row_witness :
  exists x pop,
    mst_genome (ig := k23_igraph) 5 (k23_problem "3d") = Ok x /\
    initialize_pop 5 (k23_problem "3d") 6 = Ok pop /\
    length pop = 6%nat /\
    pop !! 0%nat = Some x.
Proof.
  apply (initialize_pop_keeps_seed_row (ig := k23_igraph) "3d" k23 (k23_problem "3d") 5 6).
  - vm_compute. reflexivity.
  - exact k23_spans.
  - exact k23_cuts.
  - unfold vcount. simpl. lia.
  - lia.
Defined.

(** The initial population of 6 genomes on [k23]: row 0 is the seed. *)
Example initialize_pop_k23 :
  initialize_pop (ig := k23_igraph) 5 (k23_problem "3d") 6
  = Ok [[0; 1; 1; 1; 1]; [0; 1; 0; 0; 0]; [0; 0; 0; 0; 0];
        [0; 0; 0; 0; 0]; [0; 0; 0; 0; 0]; [0; 1; 1; 1; 1]].
Proof. vm_compute. reflexivity. Qed.

(** * Further properties *)

(** ** Communities are the connected components of the selected edges *)

Lemma joined_trans edges u v w : joined edges u v -> joined edges v w -> joined edges u w.
Proof.
  intros Huv Hvw. induction Hvw as [|x y _ IH He]; [done|].
  by eapply joined_step.
Qed.

Lemma joined_sym edges u v : joined edges u v -> joined edges v u.
Proof.
  induction 1 as [|x y _ IH He]; [constructor|].
  eapply joined_trans; [|exact IH].
  eapply joined_step; [constructor|]. tauto.
Qed.

Lemma joined_lt n edges u v :
  edges_below n edges -> (u < n)%nat -> joined edges u v -> (v < n)%nat.
Proof.
  intros Hb Hu. induction 1 as [|x y _ IH He]; [done|].
  destruct He as [He|He]; eapply Forall_forall in Hb; try exact He; simpl in Hb; lia.
Qed.

(** What the search from [s] sees is joined to [s]. *)
Lemma flood_sound edges n s v :
  seen_at (flood edges n s) v = true -> joined edges s v.
Proof.
  unfold flood. generalize n at 1. intros k. revert v.
  induction k as [|k IH]; intros v Hv; simpl in Hv.
  - apply seen_at_true in Hv.
    destruct (decide (v = s)) as [->|Hne]; [constructor|].
    rewrite list_lookup_insert_ne in Hv by done.
    by apply lookup_replicate in Hv as [? _].
  - rewrite seen_at_spread in Hv. apply orb_true_iff in Hv as [Hv|Hv]; [by apply IH|].
    apply andb_true_iff in Hv as [_ Hv]. unfold touches in Hv.
    apply existsb_exists in Hv as ([a b] & He & Ht). apply list_elem_of_In in He.
    simpl in Ht. apply orb_true_iff in Ht as [Ht|Ht]; apply andb_true_iff in Ht as [Heq Hs];
      apply Nat.eqb_eq in Heq; subst.
    + eapply joined_step; [apply IH; exact Hs|]. by right.
    + eapply joined_step; [apply IH; exact Hs|]. by left.
Qed.

Section EdgeSearch.
Variables (edges : list (nat * nat)) (n : nat).

Lemma edge_inv_step st w : (w < n)%nat -> edge_inv edges n st -> edge_inv edges n (visit edges n st w).
Proof.
  intros Hw (Ha & Hm & Hinv).
  destruct (visit_lengths edges n st w Ha Hm) as [Ha' Hm'].
  split; [done|]. split; [done|].
  intros u v He Hu Hv Hau.
  rewrite visit_added in Hau by done.
  rewrite (visit_added edges n st w v), !visit_label by done.
  destruct (seen_at (already_added st) u) eqn:Hu0.
  - destruct (Hinv u v He Hu Hv Hu0) as [Hv0 Hl]. rewrite Hv0.
    rewrite !andb_false_r. done.
  - simpl in Hau. apply andb_true_iff in Hau as [Hnw Hfu]. rewrite Hnw, Hfu. simpl.
    assert (Hfv : seen_at (flood edges n w) v = true).
    { apply (flood_crosses edges n w u v); done. }
    rewrite Hfv.
    destruct (seen_at (already_added st) v) eqn:Hv0.
    + assert (He' : (v, u) ∈ edges \/ (u, v) ∈ edges) by tauto.
      destruct (Hinv v u He' Hv Hu Hv0) as [Hu1 _]. congruence.
    + simpl. done.
Qed.

Lemma edge_inv_fold l st :
  Forall (fun w => (w < n)%nat) l -> edge_inv edges n st ->
  edge_inv edges n (foldl (visit edges n) st l).
Proof.
  revert st. induction l as [|w l IH]; intros st Hl Hst; simpl; [done|].
  apply Forall_cons in Hl as [Hw Hl]. apply IH; [done|]. by apply edge_inv_step.
Qed.

Lemma joined_inv_step st w : joined_inv edges n st -> joined_inv edges n (visit edges n st w).
Proof.
  intros (Ha & Hm & Hids & Hinv).
  destruct (visit_lengths edges n st w Ha Hm) as [Ha' Hm'].
  assert (Hcount : no_of_clusters (visit edges n st w)
                   = if seen_at (already_added st) w then no_of_clusters st
                     else S (no_of_clusters st)).
  { unfold visit. by destruct (seen_at (already_added st) w). }
  split; [done|]. split; [done|]. split.
  - intros u Hau.
    assert (Hu : (u < n)%nat) by (apply seen_at_lt in Hau; lia).
    rewrite visit_added in Hau by done. rewrite visit_label, Hcount by done.
    destruct (seen_at (already_added st) u) eqn:Hu0.
    + rewrite andb_false_r. specialize (Hids u Hu0).
      destruct (seen_at (already_added st) w); lia.
    + simpl in Hau. apply andb_true_iff in Hau as [Hnw Hfu].
      rewrite Hnw, Hfu. simpl. apply negb_true_iff in Hnw. rewrite Hnw. lia.
  - intros u v Hau Hav.
    assert (Hu : (u < n)%nat) by (apply seen_at_lt in Hau; lia).
    assert (Hv : (v < n)%nat) by (apply seen_at_lt in Hav; lia).
    rewrite visit_added in Hau, Hav by done. rewrite !visit_label by done.
    destruct (seen_at (already_added st) u) eqn:Hu0,
             (seen_at (already_added st) v) eqn:Hv0; simpl in *.
    + rewrite !andb_false_r. by apply Hinv.
    + apply andb_true_iff in Hav as [Hnw Hfv]. rewrite Hnw, Hfv, andb_false_r. simpl.
      specialize (Hids u Hu0). lia.
    + apply andb_true_iff in Hau as [Hnw Hfu]. rewrite Hnw, Hfu, andb_false_r. simpl.
      specialize (Hids v Hv0). lia.
    + apply andb_true_iff in Hau as [Hnw Hfu]. apply andb_true_iff in Hav as [_ Hfv].
      intros _. eapply joined_trans.
      * apply joined_sym. eapply flood_sound. exact Hfu.
      * eapply flood_sound. exact Hfv.
Qed.

Lemma joined_inv_fold l st :
  joined_inv edges n st -> joined_inv edges n (foldl (visit edges n) st l).
Proof.
  revert st. induction l as [|w l IH]; intros st Hst; simpl; [done|].
  apply IH. by apply joined_inv_step.
Qed.

End EdgeSearch.

Lemma seen_at_replicate_false k v : seen_at (replicate k false) v = false.
Proof.
  unfold seen_at. destruct (replicate k false !! v) as [b|] eqn:Hb; [|done].
  by apply lookup_replicate in Hb as [-> _].
Qed.

Lemma clusters_lookup t u :
  (u < length (b_types t))%nat -> clusters t !! u = Some (label_at (components t) u).
Proof.
  intros Hu. unfold label_at, clusters.
  destruct (lookup_lt_is_Some_2 (membership (components t)) u) as [c Hc].
  - pose proof (length_clusters t) as Hl. unfold clusters in Hl. lia.
  - by rewrite Hc.
Qed.

Lemma components_all_added t u :
  (u < length (b_types t))%nat -> seen_at (already_added (components t)) u = true.
Proof.
  intros Hu. unfold components.
  apply added_fold; [apply length_replicate | apply length_replicate | done |].
  right. apply elem_of_seq. lia.
Qed.

(** Two vertices have one community id exactly when selected edges join
    them. *)
Lemma clusters_joined t u v :
  edges_below (length (b_types t)) (b_edges t) ->
  (u < length (b_types t))%nat -> (v < length (b_types t))%nat ->
  clusters t !! u = clusters t !! v <-> joined (b_edges t) u v.
Proof.
  intros Hb Hu Hv. set (n := length (b_types t)) in *.
  set (st0 := {| already_added := replicate n false; membership := replicate n 0%nat;
                 no_of_clusters := 0 |}).
  assert (Hseq : Forall (fun w => (w < n)%nat) (seq 0 n)).
  { apply Forall_forall. intros w Hw. apply elem_of_seq in Hw. lia. }
  assert (He : edge_inv (b_edges t) n (components t)).
  { apply edge_inv_fold; [done|]. split; [apply length_replicate|].
    split; [apply length_replicate|]. intros x y _ _ _ Hx. simpl in Hx.
    by rewrite seen_at_replicate_false in Hx. }
  assert (Hj : joined_inv (b_edges t) n (components t)).
  { apply joined_inv_fold. split; [apply length_replicate|].
    split; [apply length_replicate|]. split.
    - intros x Hx. simpl in Hx. by rewrite seen_at_replicate_false in Hx.
    - intros x y Hx. simpl in Hx. by rewrite seen_at_replicate_false in Hx. }
  rewrite !clusters_lookup by done. split.
  - intros Heq. injection Heq as Heq.
    destruct Hj as (_ & _ & _ & Hj). apply Hj; [| |done]; by apply components_all_added.
  - intros Hjoin. f_equal. induction Hjoin as [|x y Hux IH Hxy]; [done|].
    assert (Hx : (x < n)%nat) by exact (joined_lt n (b_edges t) u x Hb Hu Hux).
    assert (Hy : (y < n)%nat).
    { apply (joined_lt n (b_edges t) u y Hb Hu). by eapply joined_step. }
    rewrite (IH Hx). destruct He as (_ & _ & He).
    apply (He x y Hxy Hx Hy). by apply components_all_added.
Qed.

(** ** Community ids follow the order of first discovery *)

Section OrderSearch.
Variables (edges : list (nat * nat)) (n : nat).

Lemma order_inv_step k st :
  (k < n)%nat -> order_inv n k st -> order_inv n (S k) (visit edges n st k).
Proof.
  intros Hk (Ha & Hm & Hdone & Hids & Hfirst).
  destruct (visit_lengths edges n st k Ha Hm) as [Ha' Hm'].
  assert (Hcount : no_of_clusters (visit edges n st k)
                   = if seen_at (already_added st) k then no_of_clusters st
                     else S (no_of_clusters st)).
  { unfold visit. by destruct (seen_at (already_added st) k). }
  assert (Hnew : forall u, (u < n)%nat -> seen_at (already_added st) u = false ->
                           (k <= u)%nat).
  { intros u Hu Hu0. destruct (decide (k <= u)%nat) as [|Hlt]; [done|].
    rewrite Hdone in Hu0 by lia. discriminate. }
  split; [done|]. split; [done|]. split; [|split].
  - intros u Hu Hun. rewrite visit_added by done.
    destruct (decide (u = k)) as [->|Hne].
    + destruct (seen_at (already_added st) k); [done|]. simpl. by apply flood_start.
    + rewrite Hdone by lia. done.
  - intros u Hau.
    assert (Hu : (u < n)%nat) by (apply seen_at_lt in Hau; lia).
    rewrite visit_added in Hau by done. rewrite visit_label, Hcount by done.
    destruct (seen_at (already_added st) u) eqn:Hu0.
    + rewrite andb_false_r. specialize (Hids u Hu0).
      destruct (seen_at (already_added st) k); lia.
    + simpl in Hau. apply andb_true_iff in Hau as [Hnk Hfu].
      rewrite Hnk, Hfu. simpl. apply negb_true_iff in Hnk. rewrite Hnk. lia.
  - intros c Hc. rewrite Hcount in Hc.
    assert (Hold : (c < no_of_clusters st)%nat ->
              exists w, (w < S k)%nat /\
                seen_at (already_added (visit edges n st k)) w = true /\
                label_at (visit edges n st k) w = c /\
                forall u, seen_at (already_added (visit edges n st k)) u = true ->
                          (c < label_at (visit edges n st k) u)%nat -> (w < u)%nat).
    { intros Hc0. destruct (Hfirst c Hc0) as (w & Hw & Haw & Hlw & Hmin).
      assert (Hwn : (w < n)%nat) by lia.
      exists w. split; [lia|]. split; [by rewrite visit_added, Haw|].
      split; [by rewrite visit_label, Haw, andb_false_r|].
      intros u Hau Hlu.
      assert (Hu : (u < n)%nat) by (apply seen_at_lt in Hau; lia).
      rewrite visit_added in Hau by done. rewrite visit_label in Hlu by done.
      destruct (seen_at (already_added st) u) eqn:Hu0.
      - rewrite andb_false_r in Hlu. by apply Hmin.
      - specialize (Hnew u Hu Hu0). lia. }
    destruct (seen_at (already_added st) k) eqn:Hk0; [by apply Hold|].
    destruct (decide (c < no_of_clusters st)%nat) as [Hc0|Hc0]; [by apply Hold|].
    assert (c = no_of_clusters st) by lia. subst c.
    exists k. split; [lia|].
    split; [rewrite visit_added, Hk0 by done; simpl; by apply flood_start|].
    split; [rewrite visit_label, Hk0, flood_start by done; done|].
    intros u Hau Hlu.
    assert (Hu : (u < n)%nat) by (apply seen_at_lt in Hau; lia).
    rewrite visit_added in Hau by done. rewrite visit_label in Hlu by done.
    destruct (seen_at (already_added st) u) eqn:Hu0.
    + rewrite andb_false_r in Hlu. specialize (Hids u Hu0). lia.
    + simpl in Hau. apply andb_true_iff in Hau as [_ Hfu].
      rewrite Hk0, Hfu in Hlu. simpl in Hlu. lia.
Qed.

Lemma order_inv_fold k :
  (k <= n)%nat ->
  order_inv n k (foldl (visit edges n)
                   {| already_added := replicate n false; membership := replicate n 0%nat;
                      no_of_clusters := 0 |} (seq 0 k)).
Proof.
  induction k as [|k IH]; intros Hk.
  - simpl. split; [apply length_replicate|]. split; [apply length_replicate|].
    split; [intros; lia|]. split.
    + intros u Hu. simpl in Hu. by rewrite seen_at_replicate_false in Hu.
    + intros c Hc. simpl in Hc. lia.
  - rewrite seq_S, foldl_app. simpl. apply order_inv_step; [lia|]. apply IH. lia.
Qed.

End OrderSearch.

Lemma components_order t :
  order_inv (length (b_types t)) (length (b_types t)) (components t).
Proof. unfold components. by apply order_inv_fold. Qed.

(** Every id below the number of components is the id of some vertex, and
    the ids smaller than the id of [v] occur before [v]. *)
Lemma clusters_order t v c :
  clusters t !! v = Some c ->
  (c < no_of_clusters (components t))%nat /\
  forall c', (c' < c)%nat -> exists u, (u < v)%nat /\ clusters t !! u = Some c'.
Proof.
  intros Hv.
  assert (Hvn : (v < length (b_types t))%nat).
  { apply lookup_lt_Some in Hv. by rewrite length_clusters in Hv. }
  rewrite clusters_lookup in Hv by done. injection Hv as Hv.
  destruct (components_order t) as (_ & _ & _ & Hids & Hfirst).
  pose proof (Hids v (components_all_added t v Hvn)) as Hc. rewrite Hv in Hc.
  split; [done|]. intros c' Hc'.
  destruct (Hfirst c') as (w & Hw & Haw & Hlw & Hmin); [lia|].
  exists w. split.
  - apply Hmin; [by apply components_all_added | lia].
  - rewrite clusters_lookup by done. by rewrite Hlw.
Qed.

(** On a graph with a vertex, the number of components is the largest id
    plus one. *)
Lemma components_count t :
  (0 < length (b_types t))%nat ->
  no_of_clusters (components t) = S (max_list (clusters t)).
Proof.
  intros Hn.
  destruct (components_order t) as (_ & _ & _ & Hids & Hfirst).
  assert (Hle : (max_list (clusters t) < no_of_clusters (components t))%nat).
  { pose proof (Hids 0%nat (components_all_added t 0%nat Hn)) as H0.
    assert (Hall : Forall (fun c => (c <= Nat.pred (no_of_clusters (components t)))%nat)
                     (clusters t)).
    { apply Forall_lookup. intros u c Hu.
      destruct (clusters_order t u c Hu) as [Hc _]. lia. }
    apply max_list_le in Hall. lia. }
  destruct (Hfirst (Nat.pred (no_of_clusters (components t)))) as (w & Hw & _ & Hlw & _);
    [lia|].
  assert (Hin : Nat.pred (no_of_clusters (components t)) ∈ clusters t).
  { apply list_elem_of_lookup. exists w. rewrite clusters_lookup by done. by rewrite Hlw. }
  apply max_list_elem_of_le in Hin. lia.
Qed.

(** ** What decoding guarantees *)

Section DecodeProperties.
Context {ig : IGraph}.

Lemma decode_edges_below m graph problem (x : list Z) edges :
  MultiCriteriaProblem_init m graph = Ok problem ->
  Forall (fun e => exists a g, adj_list_ problem !! e.1 = Some a /\ e.2 ∈ a
                               /\ x !! e.1 = Some g /\ a !! Z.to_nat (g - 1) = Some e.2
                               /\ 0 < g) edges ->
  edges_below (vcount graph) edges.
Proof.
  intros Hi Hedges.
  destruct (init_fields _ _ _ Hi)
    as (_ & _ & _ & _ & _ & Hadj & _).
  eapply Forall_impl; [exact Hedges|].
  intros [i j] (a & g & Ha & Hj & _). simpl in *.
  rewrite Hadj in Ha. apply lookup_get_adjlist in Ha as [-> Hi'].
  apply elem_of_neighbors in Hj as [Hj _]. done.
Qed.

(** X1: on a problem built for a two-sided graph, a genome in range
    decodes to a membership list in which two vertices have the same
    community id exactly when a chain of selected edges joins them. *)
Theorem decode_communities_are_components m graph problem x :
  MultiCriteriaProblem_init m graph = Ok problem ->
  two_sided graph ->
  in_range (adj_list_ problem) x ->
  exists edges membership num_clusters,
    sol_edges (n_var_ problem) (adj_list_ problem) x = Ok edges /\
    decode problem x = Ok (membership, num_clusters) /\
    forall u v, (u < vcount graph)%nat -> (v < vcount graph)%nat ->
                (membership !! u = membership !! v <-> joined edges u v).
Proof.
  intros Hi Hg Hx.
  destruct (decode_in_range _ _ _ _ Hi Hg Hx) as (edges & He & Hd & Hedges).
  exists edges. eexists. eexists. split; [exact He|]. split; [exact Hd|].
  intros u v Hu Hv.
  set (t := {| b_types := map truthy (vs_VX graph); b_edges := edges |}).
  assert (Hn : length (b_types t) = vcount graph) by (simpl; by rewrite length_map).
  apply (clusters_joined t u v); rewrite ?Hn; try done.
  simpl. by eapply decode_edges_below.
Qed.

(** X2: a vertex and the neighbour its gene selects get the same community
    id. *)
Theorem selected_neighbour_shares_community m graph problem x i g a p :
  MultiCriteriaProblem_init m graph = Ok problem ->
  two_sided graph ->
  in_range (adj_list_ problem) x ->
  x !! i = Some g -> 0 < g ->
  adj_list_ problem !! i = Some a -> a !! Z.to_nat (g - 1) = Some p ->
  exists membership num_clusters c,
    decode problem x = Ok (membership, num_clusters) /\
    membership !! i = Some c /\ membership !! p = Some c.
Proof.
  intros Hi Hg Hx Hxi Hg0 Ha Hp.
  destruct (decode_in_range _ _ _ _ Hi Hg Hx) as (edges & He & Hd & Hedges).
  destruct (init_fields _ _ _ Hi)
    as (_ & _ & _ & _ & Hn & Hadj & _).
  set (t := {| b_types := map truthy (vs_VX graph); b_edges := edges |}) in *.
  assert (Hlen : length (b_types t) = vcount graph) by (simpl; by rewrite length_map).
  assert (Hiv : (i < vcount graph)%nat).
  { apply lookup_lt_Some in Ha. rewrite Hadj, length_get_adjlist in Ha. done. }
  assert (Hpv : (p < vcount graph)%nat).
  { rewrite Hadj in Ha. apply lookup_get_adjlist in Ha as [-> _].
    assert (Hin : p ∈ neighbors graph i) by (apply list_elem_of_lookup; eauto).
    by apply elem_of_neighbors in Hin as [? _]. }
  assert (Hedge : (i, p) ∈ edges).
  { eapply (sol_edges_selects _ _ _ _ i g a p He); try done. lia. }
  assert (Hsame : clusters t !! i = clusters t !! p).
  { apply clusters_joined; rewrite ?Hlen; try done.
    - simpl. by eapply decode_edges_below.
    - eapply joined_step; [constructor|]. by left. }
  exists (clusters t), (S (max_list (clusters t))), (label_at (components t) i).
  split; [exact Hd|].
  split; [apply clusters_lookup; lia|].
  rewrite <- Hsame. apply clusters_lookup. lia.
Qed.

(** X3: whenever decoding returns, vertex 0 has community id 0, the ids
    smaller than the id of a vertex occur at vertices before it, and every
    id below [num_clusters] is the id of some vertex. *)
Theorem decode_ids_in_discovery_order problem x membership num_clusters :
  decode problem x = Ok (membership, num_clusters) ->
  membership !! 0%nat = Some 0%nat /\
  (forall v c, membership !! v = Some c ->
     (c < num_clusters)%nat /\
     forall c', (c' < c)%nat -> exists u, (u < v)%nat /\ membership !! u = Some c') /\
  (forall c, (c < num_clusters)%nat -> exists u, membership !! u = Some c).
Proof.
  unfold decode. intros Hd.
  apply bind_Ok in Hd as (edges & _ & Hd).
  apply bind_Ok in Hd as (t & _ & Hd).
  apply bind_Ok in Hd as (top & Htop & Hd).
  injection Hd as <- <-.
  assert (Hn : (0 < length (b_types t))%nat).
  { rewrite <- length_clusters. unfold py_max in Htop.
    destruct (clusters t); [discriminate | simpl; lia]. }
  assert (Hk : S top = no_of_clusters (components t)).
  { rewrite components_count by done. unfold py_max in Htop.
    destruct (clusters t); [discriminate|]. by injection Htop as <-. }
  rewrite Hk.
  assert (Hord : forall v c, clusters t !! v = Some c ->
     (c < no_of_clusters (components t))%nat /\
     forall c', (c' < c)%nat -> exists u, (u < v)%nat /\ clusters t !! u = Some c').
  { intros v c. apply clusters_order. }
  split; [|split; [exact Hord|]].
  - pose proof (clusters_lookup t 0%nat Hn) as H0. rewrite H0. f_equal.
    destruct (label_at (components t) 0) as [|c] eqn:Hc; [done|].
    destruct (Hord 0%nat (S c)) as [_ Hsm]; [exact H0|].
    destruct (Hsm 0%nat) as (u & Hu & _); lia.
  - intros c Hc.
    destruct (components_order t) as (_ & _ & _ & _ & Hfirst).
    destruct (Hfirst c Hc) as (w & Hw & _ & Hlw & _).
    exists w. rewrite clusters_lookup by done. by rewrite Hlw.
Qed.

End DecodeProperties.

Section CountAgrees.
Context {ig : IGraph} {pm : Pymoo} {mt : Metrics}.

(** X4: on a problem whose [vertices_] are the ['VX'] of its graph (as the
    constructor builds it), the cluster count that result collation
    reports for a genome (column [num_clusters], [len(c)]) is the
    [num_clusters] objective its evaluation computes ([max(membership) + 1]). *)
Theorem collated_count_is_evaluated_count name graph problem badj x value :
  vertices_ problem = vs_VX (graph_ problem) ->
  collate_one name graph problem badj x = Ok value ->
  exists membership num_clusters,
    decode problem x = Ok (membership, num_clusters) /\
    value !! 1%nat = Some (PInt (Z.of_nat num_clusters)).
Proof.
  intros Hvx Hc. unfold collate_one in Hc.
  apply bind_Ok in Hc as (edges & He & Hc).
  apply bind_Ok in Hc as (t & Ht & Hc).
  apply bind_Ok in Hc as (l0 & Hl0 & Hc).
  apply bind_Ok in Hc as (l1 & Hl1 & Hc).
  apply bind_Ok in Hc as (mur & _ & Hc).
  apply bind_Ok in Hc as (top & Htop & Hc).
  apply bind_Ok in Hc as (cs & _ & Hc).
  apply bind_Ok in Hc as (perf & _ & Hc).
  injection Hc as <-.
  assert (Hne : membership (components t) <> []).
  { intros Hnil.
    assert (Hlab : forall proj l, labels_of [] proj = Ok l -> l = []).
    { intros proj l. unfold labels_of.
      refine (for_each_inv (fun acc => acc = []) _ _ _ [] l eq_refl).
      intros acc i acc' _ -> Hstep. unfold py_get in Hstep. rewrite lookup_nil in Hstep.
      discriminate. }
    rewrite Hnil in Hl0, Hl1. apply Hlab in Hl0, Hl1. subst l0 l1. discriminate. }
  assert (Hn : (0 < length (b_types t))%nat).
  { rewrite <- length_clusters. unfold clusters.
    destruct (membership (components t)); [done | simpl; lia]. }
  exists (clusters t), (S (max_list (clusters t))). split.
  - unfold decode. rewrite He, bind_Ok_l, <- Hvx, Ht, bind_Ok_l.
    unfold py_max, clusters. destruct (membership (components t)); [done|]. done.
  - simpl. by rewrite components_count.
Qed.

End CountAgrees.

Lemma decode_communities_are_components_witness :
  exists edges membership num_clusters,
    sol_edges (n_var_ (k23_problem "3d")) (adj_list_ (k23_problem "3d")) [0; 1; 0; 2; 2]
    = Ok edges /\
    decode (k23_problem "3d") [0; 1; 0; 2; 2] = Ok (membership, num_clusters) /\
    forall u v, (u < vcount k23)%nat -> (v < vcount k23)%nat ->
                (membership !! u = membership !! v <-> joined edges u v).
Proof.
  apply (decode_communities_are_components (ig := k23_igraph) "3d" k23 (k23_problem "3d")
           [0; 1; 0; 2; 2]).
  - vm_compute. reflexivity.
  - exact k23_two_sided.
  - exact k23_in_range.
Defined.

Lemma selected_neighbour_shares_community_witness :
  exists membership num_clusters c,
    decode (k23_problem "3d") [0; 1; 0; 2; 2] = Ok (membership, num_clusters) /\
    membership !! 1%nat = Some c /\ membership !! 2%nat = Some c.
Proof.
  apply (selected_neighbour_shares_community (ig := k23_igraph) "3d" k23 (k23_problem "3d")
           [0; 1; 0; 2; 2] 1 1 [2; 3; 4]%nat 2).
  - vm_compute. reflexivity.
  - exact k23_two_sided.
  - exact k23_in_range.
  - reflexivity.
  - lia.
  - reflexivity.
  - reflexivity.
Defined.

Lemma decode_ids_in_discovery_order_witness :
  [0; 1; 1; 1; 1]%nat !! 0%nat = Some 0%nat /\
  (forall v c, [0; 1; 1; 1; 1]%nat !! v = Some c ->
     (c < 2)%nat /\
     forall c', (c' < c)%nat ->
                exists u, (u < v)%nat /\ [0; 1; 1; 1; 1]%nat !! u = Some c') /\
  (forall c, (c < 2)%nat -> exists u, [0; 1; 1; 1; 1]%nat !! u = Some c).
Proof.
  apply (decode_ids_in_discovery_order (ig := k23_igraph) (k23_problem "3d") [0; 1; 0; 2; 2]).
  vm_compute. reflexivity.
Defined.

Lemma collated_count_is_evaluated_count_witness :
  exists value membership num_clusters,
    collate_one (mt := k23_metrics) "multicriteria" k23 (k23_problem "3d") k23_badj
      [0; 1; 0; 2; 2] = Ok value /\
    decode (k23_problem "3d") [0; 1; 0; 2; 2] = Ok (membership, num_clusters) /\
    value !! 1%nat = Some (PInt (Z.of_nat num_clusters)).
Proof.
  destruct (collate_one (mt := k23_metrics) "multicriteria" k23 (k23_problem "3d") k23_badj
              [0; 1; 0; 2; 2]) as [value|e] eqn:Hc; [|vm_compute in Hc; discriminate Hc].
  destruct (collated_count_is_evaluated_count (mt := k23_metrics) "multicriteria" k23
              (k23_problem "3d") k23_badj [0; 1; 0; 2; 2] value eq_refl Hc)
    as (membership & num_clusters & Hd & Hv).
  exists value, membership, num_clusters. done.
Defined.

(** ** What the seeding guarantees *)

Section SeedProperties.
Context {ig : IGraph}.

(** X5: under the conditions of the seeding (a spanning tree that connects
    all the vertices, enough nested calls), the seed genome is in range
    and its only gene 0 is the one of vertex 0: every other vertex selects
    a neighbour. *)
Theorem mst_genome_zero_only_at_root m graph problem depth :
  MultiCriteriaProblem_init m graph = Ok problem ->
  spans (get_adjlist graph) (spanning_tree graph (edge_betweenness graph)) ->
  (vcount graph <= depth)%nat ->
  exists x,
    mst_genome depth problem = Ok x /\
    in_range (adj_list_ problem) x /\
    forall v g, x !! v = Some g -> (g = 0 <-> v = 0%nat).
Proof.
  intros Hi Hspan Hdepth.
  destruct (mst_genome_spec _ _ _ _ Hi Hspan Hdepth) as (x & Hx & Hx0 & Hrange & Hlinked).
  destruct (init_fields _ _ _ Hi) as (_ & _ & _ & _ & _ & Hadj & _).
  exists x. split; [done|]. split; [done|].
  intros v g Hv.
  assert (Hvn : (v < vcount graph)%nat).
  { apply lookup_lt_Some in Hv. destruct Hrange as [Hlen _].
    rewrite Hlen, Hadj, length_get_adjlist in Hv. done. }
  destruct (Hlinked v Hvn) as [H0|w g' av p Hw Hg' _ _ _].
  - assert (g = 0) by congruence. done.
  - assert (g' = g) by congruence. subst g'. split; [lia|].
    intros ->. rewrite Hx0 in Hw. injection Hw as <-. lia.
Qed.

Lemma zeroed_refl xu pop : zeroed xu pop pop.
Proof.
  split; [done|]. intros r row Hr. exists row. split; [done|]. split; [done|].
  intros j g Hj. exists g. split; [done|]. by left.
Qed.

Lemma zeroed_trans xu pop1 pop2 pop3 :
  zeroed xu pop1 pop2 -> zeroed xu pop2 pop3 -> zeroed xu pop1 pop3.
Proof.
  intros [Hl12 H12] [Hl23 H23]. split; [congruence|].
  intros r row3 Hr3.
  destruct (H23 r row3 Hr3) as (row2 & Hr2 & Hlen23 & Hg23).
  destruct (H12 r row2 Hr2) as (row1 & Hr1 & Hlen12 & Hg12).
  exists row1. split; [done|]. split; [congruence|].
  intros j g3 Hj3.
  destruct (Hg23 j g3 Hj3) as (g2 & Hj2 & Hc23).
  destruct (Hg12 j g2 Hj2) as (g1 & Hj1 & Hc12).
  exists g1. split; [done|].
  destruct Hc23 as [->|[-> Hd]]; [done|]. by right.
Qed.

Lemma set_gene_inv (X X' : list (list Z)) i l v :
  set_gene X i l v = Ok X' ->
  exists row, X !! i = Some row /\ (l < length row)%nat /\ X' = <[i := <[l := v]> row]> X.
Proof.
  unfold set_gene, py_set. intros Hs.
  apply bind_Ok in Hs as (row & Hrow & Hs). apply py_get_Ok in Hrow.
  destruct (l <? length row)%nat eqn:E; [|discriminate]. rewrite bind_Ok_l in Hs.
  destruct (i <? length X)%nat; [|discriminate]. injection Hs as <-.
  apply Nat.ltb_lt in E. eauto.
Qed.

Lemma set_gene_zeroed xu (X X' : list (list Z)) i l d :
  set_gene X i l 0 = Ok X' -> xu !! l = Some d -> 1 < d -> zeroed xu X X'.
Proof.
  intros Hs Hd Hd1. apply set_gene_inv in Hs as (row & Hrow & Hl & ->).
  split; [by rewrite length_insert|].
  intros r row' Hr. destruct (decide (r = i)) as [->|Hne].
  - rewrite list_lookup_insert_eq in Hr by (by eapply lookup_lt_Some).
    injection Hr as <-. exists row. split; [done|]. split; [by rewrite length_insert|].
    intros j g' Hj. destruct (decide (j = l)) as [->|Hjl].
    + rewrite list_lookup_insert_eq in Hj by done. injection Hj as <-.
      destruct (lookup_lt_is_Some_2 row l Hl) as [g Hg]. exists g. split; [done|].
      right. eauto.
    + rewrite list_lookup_insert_ne in Hj by done. exists g'. split; [done|]. by left.
  - rewrite list_lookup_insert_ne in Hr by done.
    exists row'. split; [done|]. split; [done|].
    intros j g' Hj. exists g'. split; [done|]. by left.
Qed.

(** What one step of the diversity phase does: nothing, or it sets gene [j]
    of row [ctr] to 0 at a vertex of degree above 1. *)
Lemma cut_gene_effect problem test ctr pop j pop' :
  cut_gene problem test ctr pop j = Ok pop' ->
  pop' = pop \/
  exists d, xu_ problem !! j = Some d /\ 1 < d /\ set_gene pop ctr j 0 = Ok pop'.
Proof.
  unfold cut_gene. intros Hc.
  apply bind_Ok in Hc as (row & _ & Hc).
  apply bind_Ok in Hc as (g & _ & Hc).
  apply bind_Ok in Hc as ([] & _ & Hc); [|left; by injection Hc as <-].
  apply bind_Ok in Hc as (d & Hd & Hc). apply py_get_Ok in Hd.
  destruct (1 <? d) eqn:E; [|left; by injection Hc as <-].
  apply Z.ltb_lt in E. right. eauto.
Qed.

Lemma diversify_zeroed problem popsize pop pop' :
  diversify problem popsize pop = Ok pop' -> zeroed (xu_ problem) pop pop'.
Proof.
  unfold diversify. intros Hd.
  apply bind_Ok in Hd as (r & Hrun & Hd). injection Hd as <-.
  refine (for_each_inv (fun st => zeroed (xu_ problem) pop st.1) _ _ _ (pop, 1%nat) r _ Hrun);
    [|apply zeroed_refl].
  intros [pop1 ctr] k [pop2 ctr2] _ Hz Hstep. simpl in *.
  apply bind_Ok in Hstep as (pop3 & Hinner & Hstep). injection Hstep as <- <-.
  refine (for_each_inv (fun s => zeroed (xu_ problem) pop s) _ _ _ pop1 pop3 Hz Hinner).
  intros s j s' _ Hs Hcut.
  apply cut_gene_effect in Hcut as [->|(d & Hd & Hd1 & Hset)]; [done|].
  eapply zeroed_trans; [exact Hs|]. by eapply set_gene_zeroed.
Qed.

(** X6: whenever the diversity phase returns, the population has the same
    shape and every gene is the gene it had or 0; a gene becomes 0 only at
    a vertex whose degree bound exceeds 1. *)
Theorem diversify_only_zeroes problem popsize pop pop' :
  diversify problem popsize pop = Ok pop' -> zeroed (xu_ problem) pop pop'.
Proof. apply diversify_zeroed. Qed.

Lemma cut_gene_frame_row problem test ctr pop j pop' r :
  cut_gene problem test ctr pop j = Ok pop' -> r <> ctr -> pop' !! r = pop !! r.
Proof.
  intros Hc Hr. apply cut_gene_effect in Hc as [->|(d & _ & _ & Hset)]; [done|].
  by eapply set_gene_frame.
Qed.

(** X7: whenever the diversity phase returns, the rows from
    [min(popsize, n_var)] on are the rows it was given. *)
Theorem diversify_keeps_tail_rows problem popsize pop pop' r :
  diversify problem popsize pop = Ok pop' ->
  (Nat.min popsize (n_var_ problem) <= r)%nat ->
  pop' !! r = pop !! r.
Proof.
  unfold diversify. intros Hd Hr.
  apply bind_Ok in Hd as (res & Hrun & Hd). injection Hd as <-.
  assert (Hinv : res.2 = S (length (seq 2 (Nat.min popsize (n_var_ problem) - 1)))
                 /\ res.1 !! r = pop !! r); [|by destruct Hinv].
  refine (for_each_prefix_inv
            (fun pre (st : list (list Z) * nat) =>
               st.2 = S (length pre) /\ st.1 !! r = pop !! r)
            _ _ _ (pop, 1%nat) res _ Hrun); [|by split].
  intros pre k post [pop1 ctr] [pop2 ctr2] Hsplit [Hctr Hrow] Hstep. simpl in *.
  apply bind_Ok in Hstep as (pop3 & Hinner & Hstep). injection Hstep as <- <-.
  assert (Hpre : (length pre < Nat.min popsize (n_var_ problem) - 1)%nat).
  { apply (f_equal length) in Hsplit.
    rewrite length_seq, length_app in Hsplit. simpl in Hsplit. lia. }
  split; [rewrite length_app; simpl; lia|].
  rewrite <- Hrow.
  refine (for_each_inv (fun s => s !! r = pop1 !! r) _ _ _ pop1 pop3 eq_refl Hinner).
  intros s j s' _ Hs Hcut. rewrite <- Hs. eapply cut_gene_frame_row; [exact Hcut|lia].
Qed.

Lemma zeroed_in_range a xu (x : list Z) popsize pop :
  in_range a x -> zeroed xu (replicate popsize x) pop -> Forall (in_range a) pop.
Proof.
  intros [Hlen Hr] [_ Hz]. apply Forall_lookup. intros r row' Hrow'.
  destruct (Hz r row' Hrow') as (row & Hrow & Hl & Hg).
  apply lookup_replicate in Hrow as [-> _].
  split; [congruence|]. intros i g' av Hi Hav.
  destruct (Hg i g' Hi) as (g & Hxi & [->|[-> _]]); [by eapply Hr|].
  lia.
Qed.

(** X8: under the conditions of the seeding and cuts that label every
    vertex, every row of the initial population is a genome in range: one
    gene per vertex, each in [[0, deg(i)]]. *)
Theorem initialize_pop_rows_in_range m graph problem depth popsize :
  MultiCriteriaProblem_init m graph = Ok problem ->
  spans (get_adjlist graph) (spanning_tree graph (edge_betweenness graph)) ->
  (forall k, length (fastgreedy_cut graph k) = vcount graph) ->
  (vcount graph <= depth)%nat ->
  exists pop,
    initialize_pop depth problem popsize = Ok pop /\
    length pop = popsize /\
    Forall (in_range (adj_list_ problem)) pop.
Proof.
  intros Hi Hspan Hcut Hdepth.
  destruct (mst_genome_spec _ _ _ _ Hi Hspan Hdepth) as (x & Hx & _ & Hrange & _).
  destruct (diversify_total m graph problem popsize (replicate popsize x) Hi Hcut)
    as (pop & Hd & Hlen).
  - apply length_replicate.
  - by apply Forall_replicate.
  - exists pop. unfold initialize_pop. rewrite Hx, bind_Ok_l.
    split; [done|]. split; [done|].
    eapply zeroed_in_range; [exact Hrange|]. by eapply diversify_zeroed.
Qed.

End SeedProperties.

Lemma mst_genome_zero_only_at_root_witness :
  exists x,
    mst_genome (ig := k23_igraph) 5 (k23_problem "3d") = Ok x /\
    in_range (adj_list_ (k23_problem "3d")) x /\
    forall v g, x !! v = Some g -> (g = 0 <-> v = 0%nat).
Proof.
  apply (mst_genome_zero_only_at_root (ig := k23_igraph) "3d" k23 (k23_problem "3d") 5).
  - vm_compute. reflexivity.
  - exact k23_spans.
  - unfold vcount. simpl. lia.
Defined.

Lemma diversify_only_zeroes_witness :
  zeroed (xu_ (k23_problem "3d")) (replicate 6 [0; 1; 1; 1; 1])
    [[0; 1; 1; 1; 1]; [0; 1; 0; 0; 0]; [0; 0; 0; 0; 0];
     [0; 0; 0; 0; 0]; [0; 0; 0; 0; 0]; [0; 1; 1; 1; 1]].
Proof.
  apply (diversify_only_zeroes (ig := k23_igraph) (k23_problem "3d") 6).
  vm_compute. reflexivity.
Defined.

Lemma diversify_keeps_tail_rows_witness :
  [[0; 1; 1; 1; 1]; [0; 1; 0; 0; 0]; [0; 0; 0; 0; 0];
   [0; 0; 0; 0; 0]; [0; 0; 0; 0; 0]; [0; 1; 1; 1; 1]] !! 5%nat
  = replicate 6 [0; 1; 1; 1; 1] !! 5%nat.
Proof.
  apply (diversify_keeps_tail_rows (ig := k23_igraph) (k23_problem "3d") 6).
  - vm_compute. reflexivity.
  - vm_compute. lia.
Defined.

Lemma initialize_pop_rows_in_range_witness :
  exists pop,
    initialize_pop (ig := k23_igraph) 5 (k23_problem "3d") 6 = Ok pop /\
    length pop = 6%nat /\
    Forall (in_range (adj_list_ (k23_problem "3d"))) pop.
Proof.
  apply (initialize_pop_rows_in_range (ig := k23_igraph) "3d" k23 (k23_problem "3d") 5 6).
  - vm_compute. reflexivity.
  - exact k23_spans.
  - exact k23_cuts.
  - unfold vcount. simpl. lia.
Defined.

(** ** Mutation *)

Lemma rewritten_refl new X : rewritten new X X.
Proof.
  split; [done|]. intros r row Hr. exists row. split; [done|]. split; [done|].
  intros j g Hj. exists g. split; [done|]. by left.
Qed.

Lemma rewritten_trans new X1 X2 X3 :
  rewritten new X1 X2 -> rewritten new X2 X3 -> rewritten new X1 X3.
Proof.
  intros [Hl12 H12] [Hl23 H23]. split; [congruence|].
  intros r row3 Hr3.
  destruct (H23 r row3 Hr3) as (row2 & Hr2 & Hlen23 & Hg23).
  destruct (H12 r row2 Hr2) as (row1 & Hr1 & Hlen12 & Hg12).
  exists row1. split; [done|]. split; [congruence|].
  intros j g3 Hj3.
  destruct (Hg23 j g3 Hj3) as (g2 & Hj2 & Hc23).
  destruct (Hg12 j g2 Hj2) as (g1 & Hj1 & Hc12).
  exists g1. split; [done|].
  destruct Hc23 as [->|Hn]; [done|]. by right.
Qed.

Lemma insert_rewritten new (X : list (list Z)) i l v row :
  X !! i = Some row -> (l < length row)%nat -> new l v ->
  rewritten new X (<[i := <[l := v]> row]> X).
Proof.
  intros Hrow Hl Hnew.
  split; [by rewrite length_insert|].
  intros r row' Hr. destruct (decide (r = i)) as [->|Hne].
  - rewrite list_lookup_insert_eq in Hr by (by eapply lookup_lt_Some).
    injection Hr as <-. exists row. split; [done|]. split; [by rewrite length_insert|].
    intros j g' Hj. destruct (decide (j = l)) as [->|Hjl].
    + rewrite list_lookup_insert_eq in Hj by done. injection Hj as <-.
      destruct (lookup_lt_is_Some_2 row l Hl) as [g Hg]. exists g. split; [done|].
      by right.
    + rewrite list_lookup_insert_ne in Hj by done. exists g'. split; [done|]. by left.
  - rewrite list_lookup_insert_ne in Hr by done.
    exists row'. split; [done|]. split; [done|].
    intros j g' Hj. exists g'. split; [done|]. by left.
Qed.

Lemma rewritten_row new X X' i row :
  rewritten new X X' -> X !! i = Some row ->
  exists row', X' !! i = Some row' /\ length row' = length row.
Proof.
  intros [Hlen Hrows] Hrow.
  destruct (lookup_lt_is_Some_2 X' i) as [row' Hrow'].
  { rewrite Hlen. by eapply lookup_lt_Some. }
  destruct (Hrows i row' Hrow') as (row0 & Hrow0 & Hl & _).
  exists row'. split; [done|]. congruence.
Qed.

Section PizzutiMutation.
Context {ig : IGraph}.

(** X9: on a population that is not empty, whose rows are no longer than
    the bounds, with every lower bound below the upper bound and draws in
    [[0, 1)], [PizMutation._do] returns a population of the same shape in
    which every gene is the gene it was given or lies in
    [[xl[l] + 1, xu[l]]]; it only moves the generator forward. *)
Theorem PizMutation_keeps_genes_or_redraws problem X rs :
  X <> [] ->
  Forall (fun row => (length row <= length (xl problem))%nat) X ->
  Forall2 Z.lt (xl problem) (xu problem) ->
  unit_draws rs ->
  exists X' rs',
    PizMutation_do problem X rs = Ok (X', rs') /\
    rewritten (within (xl problem) (xu problem)) X X' /\
    tape rs' = tape rs /\ (cursor rs <= cursor rs')%nat.
Proof.
  intros Hne Hrows Hbounds Hdraws.
  set (new := within (xl problem) (xu problem)).
  set (P := fun st : list (list Z) * RandomState =>
              rewritten new X st.1 /\ tape st.2 = tape rs /\ (cursor rs <= cursor st.2)%nat).
  unfold PizMutation_do, py_div.
  assert (Hq : Qeq_bool (Qnat (length X)) 0 = false).
  { apply Qnat_nonzero. destruct X; [done|]. simpl. lia. }
  rewrite Hq, bind_Ok_l.
  destruct (for_each_total P
    (fun st i =>
      row ← py_get st.1 i;
      for_each (fun st l =>
          let rr := random st.2 in
          if Qltb rr.1 (1 / Qnat (length X)) then
            lo ← py_get (xl problem) l;
            hi ← py_get (xu problem) l;
            vr ← randint (lo + 1) (hi + 1) rr.2;
            X' ← set_gene st.1 i l vr.1;
            Ok (X', vr.2)
          else Ok (st.1, rr.2))
        st (seq 0 (length row)))
    (seq 0 (length X))) with (s := (X, rs)) as ([X' rs'] & Hrun & HP).
  - intros st i Hi HPst.
    apply elem_of_seq in Hi as [_ Hi]. simpl in Hi.
    destruct (lookup_lt_is_Some_2 X i Hi) as [row0 Hrow0].
    destruct HPst as (Hrw & Htape & Hcur).
    destruct (rewritten_row _ _ _ _ _ Hrw Hrow0) as (row & Hrow & Hlrow).
    apply py_get_Ok in Hrow as Hget. rewrite Hget, bind_Ok_l.
    assert (Hwidth : (length row <= length (xl problem))%nat).
    { rewrite Hlrow. rewrite Forall_lookup in Hrows. by eapply Hrows. }
    apply for_each_total; [|done].
    intros [X1 rs1] l Hl (Hrw1 & Htape1 & Hcur1).
    apply elem_of_seq in Hl as [_ Hl]. simpl in Hl, Hrw1, Htape1, Hcur1.
    cbn [random next_draw fst snd].
    destruct (Qltb _ _).
    + destruct (lookup_lt_is_Some_2 (xl problem) l) as [lo Hlo]; [lia|].
      destruct (Forall2_lookup_l _ _ _ _ _ Hbounds Hlo) as (hi & Hhi & Hlt).
      apply py_get_Ok in Hlo as Hglo. apply py_get_Ok in Hhi as Hghi.
      rewrite Hglo, bind_Ok_l, Hghi, bind_Ok_l.
      destruct (randint_range (lo + 1) (hi + 1)
                  {| tape := tape rs1; cursor := S (cursor rs1) |})
        as (v & Hr & _ & Hv); [lia | simpl; rewrite Htape1; apply Hdraws | simpl; rewrite Htape1; apply Hdraws |].
      rewrite Hr, bind_Ok_l.
      destruct (rewritten_row _ _ _ _ _ Hrw1 Hrow0) as (row1 & Hrow1 & Hlrow1).
      cbn [fst snd].
      rewrite (set_gene_Ok X1 i l v row1 Hrow1) by lia. rewrite bind_Ok_l.
      eexists. split; [reflexivity|]. split; [|split; simpl; [done|lia]].
      simpl. eapply rewritten_trans; [exact Hrw1|].
      apply insert_rewritten; [done|lia|].
      exists lo, hi. split; [done|]. split; [done|]. lia.
    + eexists. split; [reflexivity|]. split; [done|]. split; simpl; [done|lia].
  - split; [apply rewritten_refl|]. split; [done|]. simpl. lia.
  - exists X', rs'. split; [exact Hrun|]. exact HP.
Qed.

End PizzutiMutation.

Lemma example_rs_unit_draws : unit_draws example_rs.
Proof.
  intros k. destruct k as [|[|k]]; split; simpl; unfold Qle, Qlt; simpl; lia.
Qed.

Lemma PizMutation_keeps_genes_or_redraws_witness :
  exists X' rs',
    PizMutation_do (k23_problem "3d") [[0; 1; 1; 1; 1]; [0; 1; 0; 0; 0]] example_rs
    = Ok (X', rs') /\
    rewritten (within (xl (k23_problem "3d")) (xu (k23_problem "3d")))
      [[0; 1; 1; 1; 1]; [0; 1; 0; 0; 0]] X' /\
    tape rs' = tape example_rs /\ (cursor example_rs <= cursor rs')%nat.
Proof.
  apply (PizMutation_keeps_genes_or_redraws (ig := k23_igraph) (k23_problem "3d")
           [[0; 1; 1; 1; 1]; [0; 1; 0; 0; 0]] example_rs).
  - discriminate.
  - repeat constructor.
  - repeat constructor.
  - exact example_rs_unit_draws.
Defined.

(** The run of this example: the first draw 2/5 is below 1/2, so gene 0 of
    row 0 is drawn again (from the draw 0, the value 1); no later draw is
    below 1/2. *)
Example PizMutation_k23 :
  PizMutation_do (k23_problem "3d") [[0; 1; 1; 1; 1]; [0; 1; 0; 0; 0]] example_rs
  = Ok ([[1; 1; 1; 1; 1]; [0; 1; 0; 0; 0]], {| tape := tape example_rs; cursor := 11 |}).
Proof. vm_compute. reflexivity. Qed.

(** ** The random initial population *)

Section PizzutiSeeding.
Context {ig : IGraph}.

(** X13: on a problem the constructor built for a graph in which every
    vertex has a neighbour, and with draws in [[0, 1)], the ['pizzuti']
    initialisation returns [popsize] genomes in range in which every gene
    selects a neighbour, and it makes one draw per gene. *)
Theorem initialize_pop_pizzuti_selects_neighbours m graph problem popsize rs :
  MultiCriteriaProblem_init m graph = Ok problem ->
  Forall (fun a => a <> []) (get_adjlist graph) ->
  unit_draws rs ->
  exists pop rs',
    initialize_pop_pizzuti problem popsize rs = Ok (pop, rs') /\
    length pop = popsize /\
    Forall (fun x => in_range (adj_list_ problem) x /\ Forall (fun g => 1 <= g) x) pop /\
    tape rs' = tape rs /\
    cursor rs' = (cursor rs + popsize * vcount graph)%nat.
Proof.
  intros Hi Hdeg Hdraws.
  destruct (init_fields _ _ _ Hi) as (_ & _ & _ & _ & Hn & Hadj & _).
  unfold initialize_pop_pizzuti. rewrite Hn, Hadj.
  set (n := vcount graph).
  set (good := fun x : list Z =>
                 in_range (get_adjlist graph) x /\ Forall (fun g => 1 <= g) x).
  (* rows before [ctr] are finished, the others have their length *)
  set (P := fun (pre : list nat) (st : list (list Z) * RandomState) =>
              length st.1 = popsize /\
              (forall r row, st.1 !! r = Some row -> length row = n) /\
              (forall r row, (r < length pre)%nat -> st.1 !! r = Some row -> good row) /\
              tape st.2 = tape rs /\
              cursor st.2 = (cursor rs + length pre * n)%nat).
  destruct (for_each_prefix P
    (fun st ctr =>
       for_each (fun st i =>
           a_i ← py_get (get_adjlist graph) i;
           vr ← randint 1 (Z.of_nat (length a_i) + 1) st.2;
           pop' ← set_gene st.1 ctr i vr.1;
           Ok (pop', vr.2))
         st (seq 0 n))
    (seq 0 popsize)) with (s := (replicate popsize (replicate n (-1)), rs))
    as ([pop rs'] & Hrun & HP).
  - intros pre ctr post [pop0 rs0] Hsplit (Hlen & Hrows & Hdone & Htape & Hcur).
    cbn [fst snd] in Hlen, Hrows, Hdone, Htape, Hcur.
    assert (Hctr : ctr = length pre /\ (ctr < popsize)%nat).
    { assert (Hl : seq 0 popsize !! length pre = Some ctr)
        by (rewrite Hsplit; apply list_lookup_middle; done).
      apply lookup_seq in Hl. simpl in Hl. lia. }
    destruct Hctr as [-> Hctr].
    (* the inner loop: genes before [i] of row [ctr] are drawn *)
    set (Q := fun (pre' : list nat) (st : list (list Z) * RandomState) =>
                length st.1 = popsize /\
                (forall r row, st.1 !! r = Some row -> length row = n) /\
                (forall r row, (r < length pre)%nat -> st.1 !! r = Some row -> good row) /\
                (forall row j g a, st.1 !! length pre = Some row -> (j < length pre')%nat ->
                   row !! j = Some g -> get_adjlist graph !! j = Some a ->
                   1 <= g <= Z.of_nat (length a)) /\
                tape st.2 = tape rs /\
                cursor st.2 = (cursor rs + length pre * n + length pre')%nat).
    destruct (for_each_prefix Q
      (fun st i =>
           a_i ← py_get (get_adjlist graph) i;
           vr ← randint 1 (Z.of_nat (length a_i) + 1) st.2;
           pop' ← set_gene st.1 (length pre) i vr.1;
           Ok (pop', vr.2))
      (seq 0 n)) with (s := (pop0, rs0)) as ([pop1 rs1] & Hrun1 & HQ).
    + intros pre' i post' [pop2 rs2] Hsplit' (Hlen2 & Hrows2 & Hdone2 & Hrow2 & Htape2 & Hcur2).
      cbn [fst snd] in *.
      assert (Hi' : i = length pre' /\ (i < n)%nat).
      { assert (Hl : seq 0 n !! length pre' = Some i)
          by (rewrite Hsplit'; apply list_lookup_middle; done).
        apply lookup_seq in Hl. simpl in Hl. lia. }
      destruct Hi' as [-> Hi'].
      rewrite (proj2 (py_get_Ok _ _ _) (lookup_get_adjlist_lt graph _ Hi')), bind_Ok_l.
      set (a_i := neighbors graph (length pre')).
      assert (Ha : a_i <> []).
      { rewrite Forall_lookup in Hdeg.
        exact (Hdeg _ _ (lookup_get_adjlist_lt graph _ Hi')). }
      destruct (randint_range 1 (Z.of_nat (length a_i) + 1) rs2) as (v & Hr & _ & Hv).
      { destruct a_i; [done|]. simpl. lia. }
      { rewrite Htape2. apply Hdraws. }
      { rewrite Htape2. apply Hdraws. }
      rewrite Hr, bind_Ok_l. cbn [fst snd].
      destruct (lookup_lt_is_Some_2 pop2 (length pre)) as [row Hrow]; [lia|].
      pose proof (Hrows2 _ _ Hrow) as Hlrow.
      rewrite (set_gene_Ok pop2 _ _ v row Hrow) by lia. rewrite bind_Ok_l.
      eexists. split; [reflexivity|]. unfold Q. cbn [fst snd].
      split; [by rewrite length_insert|].
      split.
      { intros r row' Hr'. destruct (decide (r = length pre)) as [->|Hne].
        - rewrite list_lookup_insert_eq in Hr' by lia. injection Hr' as <-.
          by rewrite length_insert.
        - rewrite list_lookup_insert_ne in Hr' by done. by eapply Hrows2. }
      split.
      { intros r row' Hlt Hr'. rewrite list_lookup_insert_ne in Hr' by lia.
        by eapply Hdone2. }
      split.
      { intros row' j g a Hr' Hj Hg Haj.
        rewrite list_lookup_insert_eq in Hr' by lia. injection Hr' as <-.
        rewrite length_app in Hj. simpl in Hj.
        destruct (decide (j = length pre')) as [->|Hne].
        - rewrite list_lookup_insert_eq in Hg by lia. injection Hg as <-.
          rewrite (lookup_get_adjlist_lt graph _ Hi') in Haj. injection Haj as <-.
          fold a_i. lia.
        - rewrite list_lookup_insert_ne in Hg by done.
          eapply Hrow2; [done| |done|done]. lia. }
      split; [done|]. simpl. rewrite Hcur2, length_app. simpl. lia.
    + split; [done|]. split; [done|]. split; [done|].
      split; [intros ? ? ? ? _ Hj; simpl in Hj; lia|].
      split; [done|]. simpl. lia.
    + destruct HQ as (Hlen1 & Hrows1 & Hdone1 & Hrow1 & Htape1 & Hcur1).
      cbn [fst snd] in *. rewrite length_seq in Hrow1, Hcur1.
      exists (pop1, rs1). split; [exact Hrun1|]. unfold P. cbn [fst snd].
      split; [done|]. split; [done|].
      split.
      { intros r row Hlt Hr. rewrite length_app in Hlt. simpl in Hlt.
        destruct (decide (r = length pre)) as [->|Hne]; [|apply (Hdone1 r row); [lia|done]].
        pose proof (Hrows1 _ _ Hr) as Hlrow.
        split.
        - split; [by rewrite length_get_adjlist|].
          intros j g a Hg Haj.
          assert (Hj : (j < n)%nat) by (apply lookup_lt_Some in Hg; lia).
          pose proof (Hrow1 row j g a Hr Hj Hg Haj). lia.
        - apply Forall_lookup. intros j g Hg.
          assert (Hj : (j < n)%nat) by (apply lookup_lt_Some in Hg; lia).
          pose proof (Hrow1 row j g _ Hr Hj Hg (lookup_get_adjlist_lt graph _ Hj)). lia. }
      split; [done|]. simpl. rewrite Hcur1, length_app. simpl. lia.
  - split; [apply length_replicate|].
    split; [intros r row Hr; apply lookup_replicate in Hr as [-> _]; apply length_replicate|].
    split; [intros ? ? Hlt; simpl in Hlt; lia|].
    split; [done|]. simpl. lia.
  - destruct HP as (Hlen & Hrows & Hdone & Htape & Hcur).
    cbn [fst snd] in *. rewrite length_seq in Hdone, Hcur.
    exists pop, rs'. split; [exact Hrun|]. split; [done|].
    split; [|split; [done|exact Hcur]].
    apply Forall_lookup. intros r row Hr.
    apply (Hdone r row); [|done]. apply lookup_lt_Some in Hr. lia.
Qed.

End PizzutiSeeding.

Lemma k23_has_no_isolated_vertex : Forall (fun a => a <> []) (get_adjlist k23).
Proof.
  let t := eval vm_compute in (get_adjlist k23) in change (get_adjlist k23) with t.
  repeat constructor; discriminate.
Qed.

Lemma initialize_pop_pizzuti_selects_neighbours_witness :
  exists pop rs',
    initialize_pop_pizzuti (k23_problem "3d") 2 example_rs = Ok (pop, rs') /\
    length pop = 2%nat /\
    Forall (fun x => in_range (adj_list_ (k23_problem "3d")) x /\ Forall (fun g => 1 <= g) x)
           pop /\
    tape rs' = tape example_rs /\
    cursor rs' = (cursor example_rs + 2 * vcount k23)%nat.
Proof.
  apply (initialize_pop_pizzuti_selects_neighbours (ig := k23_igraph) "3d" k23
           (k23_problem "3d") 2 example_rs).
  - vm_compute. reflexivity.
  - exact k23_has_no_isolated_vertex.
  - exact example_rs_unit_draws.
Defined.

(** ** Bipartite performance: range and errors *)

Lemma count_if_le {A} (f : A -> bool) l : (count_if f l <= length l)%nat.
Proof. unfold count_if. apply List.filter_length_le. Qed.

Lemma for_each_skip {A S} (f : S -> A -> res S) l s :
  (forall s a, a ∈ l -> f s a = Ok s) -> for_each f s l = Ok s.
Proof.
  intros Hf. induction l as [|a l IH]; [done|].
  rewrite for_each_cons, Hf by left. rewrite bind_Ok_l. apply IH.
  intros s' a' Ha'. apply Hf. by right.
Qed.

(** X14: on a matrix with at least one row and one column and a label for
    each of its vertices, [bi_performance] returns a value between 0 and
    1. *)
Theorem bi_performance_is_a_fraction (badj : Badj) (communities : list nat) :
  (0 < shape0 badj)%nat ->
  (0 < shape1 badj)%nat ->
  (shape0 badj + shape1 badj <= length communities)%nat ->
  exists q, bi_performance badj communities = Ok q /\ (0 <= q)%Q /\ (q <= 1)%Q.
Proof.
  intros H0 H1 Hlen. unfold bi_performance.
  rewrite (performance_rows badj communities Hlen);
    [|apply Forall_forall; intros i Hi; apply elem_of_seq in Hi; lia].
  rewrite bind_Ok_l. unfold py_div. rewrite Qnat_nonzero by nia.
  eexists. split; [reflexivity|].
  set (c := (0 + count_if _ _)%nat).
  assert (Hc : (c <= shape0 badj * shape1 badj)%nat).
  { unfold c. simpl.
    etransitivity; [apply count_if_le|].
    by rewrite length_prod, !length_seq. }
  assert (Hp : (0 < Qnat (shape0 badj * shape1 badj))%Q).
  { unfold Qnat, Qlt. simpl. nia. }
  split.
  - apply Qle_shift_div_l; [done|]. rewrite Qmult_0_l.
    unfold Qnat, Qle. simpl. lia.
  - apply Qle_shift_div_r; [done|]. rewrite Qmult_1_l.
    unfold Qnat. rewrite <- Zle_Qle. lia.
Qed.

Lemma bi_performance_is_a_fraction_witness :
  exists q, bi_performance k23_badj [0; 1; 0; 0; 1]%nat = Ok q /\ (0 <= q)%Q /\ (q <= 1)%Q.
Proof.
  apply (bi_performance_is_a_fraction k23_badj [0; 1; 0; 0; 1]%nat); simpl; lia.
Defined.

(** X15: on a matrix without rows or without columns [bi_performance]
    reads no label and divides by zero: it raises ZeroDivisionError,
    whatever the labels. *)
Theorem bi_performance_empty_side (badj : Badj) (communities : list nat) :
  (shape0 badj * shape1 badj)%nat = 0%nat ->
  bi_performance badj communities = Raise ZeroDivisionError.
Proof.
  intros Hz. unfold bi_performance. rewrite Hz.
  assert (Hloop : forall perf : nat,
    for_each (fun perf_pairs i =>
        for_each (fun perf_pairs j =>
            ci ← py_get communities i;
            cj ← py_get communities (shape0 badj + j);
            if (has_edge (coo badj) i j && Nat.eqb ci cj)
               || (negb (has_edge (coo badj) i j) && negb (Nat.eqb ci cj))
            then Ok (S perf_pairs) else Ok perf_pairs)
          perf_pairs (seq 0 (shape1 badj)))
      perf (seq 0 (shape0 badj)) = Ok perf).
  { intros perf. destruct (shape0 badj) as [|n0] eqn:E0; [done|].
    assert (shape1 badj = 0%nat) as -> by lia.
    by apply for_each_skip. }
  rewrite Hloop, bind_Ok_l. reflexivity.
Qed.

Lemma bi_performance_empty_side_witness :
  bi_performance {| shape0 := 2; shape1 := 0; coo := [] |} [] = Raise ZeroDivisionError.
Proof.
  apply (bi_performance_empty_side {| shape0 := 2; shape1 := 0; coo := [] |} []).
  reflexivity.
Defined.

(** X16: on a matrix with at least one row and one column,
    [bi_performance] raises IndexError when there are fewer labels than
    vertices. *)
Theorem bi_performance_too_few_labels (badj : Badj) (communities : list nat) :
  (0 < shape0 badj)%nat ->
  (0 < shape1 badj)%nat ->
  (length communities < shape0 badj + shape1 badj)%nat ->
  bi_performance badj communities = Raise IndexError.
Proof.
  intros H0 H1 Hlen. unfold bi_performance.
  set (inner := fun i => fun (perf_pairs : nat) (j : nat) =>
          ci ← py_get communities i;
          cj ← py_get communities (shape0 badj + j);
          if (has_edge (coo badj) i j && Nat.eqb ci cj)
             || (negb (has_edge (coo badj) i j) && negb (Nat.eqb ci cj))
          then Ok (S perf_pairs) else Ok perf_pairs).
  assert (Hinner : forall i s j e', inner i s j = Raise e' -> e' = IndexError).
  { intros i s j e' He. unfold inner in He.
    destruct (py_get communities i) as [ci|e1] eqn:Hci.
    - rewrite bind_Ok_l in He.
      destruct (py_get communities (shape0 badj + j)) as [cj|e2] eqn:Hcj.
      + rewrite bind_Ok_l in He. by destruct (_ || _).
      + apply py_get_raises in Hcj. simpl in He. congruence.
    - apply py_get_raises in Hci. simpl in He. congruence. }
  rewrite (for_each_raises
             (fun perf_pairs i => for_each (inner i) perf_pairs (seq 0 (shape1 badj)))
             IndexError 0%nat); [done| | |].
  - intros s i e' He.
    assert (Hgen : forall js s0, for_each (inner i) s0 js = Raise e' -> e' = IndexError).
    { induction js as [|j js IH]; intros s0 Hs0; [done|].
      rewrite for_each_cons in Hs0.
      destruct (inner i s0 j) as [s1|e1] eqn:Hj.
      - rewrite bind_Ok_l in Hs0. by eapply IH.
      - apply Hinner in Hj. simpl in Hs0. congruence. }
    by eapply Hgen.
  - apply elem_of_seq. lia.
  - intros s.
    apply (for_each_raises (inner 0%nat) IndexError (length communities - shape0 badj)%nat).
    + intros s0 j e'. apply Hinner.
    + apply elem_of_seq. lia.
    + intros s0. unfold inner.
      destruct (py_get communities 0) as [ci|e1] eqn:Hci.
      * rewrite bind_Ok_l.
        rewrite (py_get_ge communities) by lia. reflexivity.
      * apply py_get_raises in Hci. by subst e1.
Qed.

Lemma bi_performance_too_few_labels_witness :
  bi_performance k23_badj [0; 1; 0; 0]%nat = Raise IndexError.
Proof.
  apply (bi_performance_too_few_labels k23_badj [0; 1; 0; 0]%nat); simpl; lia.
Defined.

(** ** Evaluation of genomes in range *)

Lemma labels_of_app (m : list nat) proj acc0 :
  Forall (fun v => (v < length m)%nat) proj ->
  exists l,
    for_each (fun acc i => c ← py_get m i; Ok (acc ++ [c])) acc0 proj = Ok (acc0 ++ l) /\
    Forall2 (fun v c => m !! v = Some c) proj l.
Proof.
  intros Hp. revert acc0. induction Hp as [|v proj Hv _ IH]; intros acc0.
  - exists []. by rewrite app_nil_r.
  - destruct (py_get_lt m v Hv) as (c & Hc & Hmc).
    rewrite for_each_cons, Hc, !bind_Ok_l.
    destruct (IH (acc0 ++ [c])) as (l & Hl & Hf).
    exists (c :: l). rewrite Hl, <- app_assoc. split; [done|]. by constructor.
Qed.

Lemma labels_of_total (m : list nat) proj :
  Forall (fun v => (v < length m)%nat) proj ->
  exists l, labels_of m proj = Ok l /\ Forall2 (fun v c => m !! v = Some c) proj l.
Proof. intros Hp. apply (labels_of_app m proj [] Hp). Qed.

Lemma elem_of_indices_of c l v :
  v ∈ indices_of c l <-> l !! v = Some c.
Proof.
  unfold indices_of. rewrite list_elem_of_omap. split.
  - intros ([i z] & Hin & Hs). simpl in Hs.
    destruct (z =? c) eqn:E; [|done]. injection Hs as ->.
    apply Z.eqb_eq in E. subst z.
    apply list_elem_of_lookup in Hin as (k & Hk).
    rewrite list_lookup_imap in Hk.
    destruct (l !! k) eqn:Hlk; [|done]. simpl in Hk. by injection Hk as -> ->.
  - intros Hv. exists (v, c). split.
    + apply list_elem_of_lookup. exists v. by rewrite list_lookup_imap, Hv.
    + simpl. by rewrite Z.eqb_refl.
Qed.

Lemma indices_of_below c l : Forall (fun v => (v < length l)%nat) (indices_of c l).
Proof.
  apply Forall_forall. intros v Hv. apply elem_of_indices_of in Hv.
  by eapply lookup_lt_Some.
Qed.

Section Evaluation.
Context {ig : IGraph}.

(** X17: on a problem built for a two-sided graph, the evaluation of a
    genome in range returns objectives: 2, 3 or 4 of them by the mode, the
    last of which is the number of communities of the genome, between 1
    and the number of vertices. *)
Theorem evaluate_returns_objectives m graph problem x :
  MultiCriteriaProblem_init m graph = Ok problem ->
  two_sided graph ->
  in_range (adj_list_ problem) x ->
  exists F membership num_clusters,
    decode problem x = Ok (membership, num_clusters) /\
    _evaluate problem x = Ok (Some F) /\
    length F = (if String.eqb m "3d" then 3 else if String.eqb m "4d" then 4 else 2)%nat /\
    last F = Some (Qnat num_clusters) /\
    (1 <= num_clusters <= vcount graph)%nat.
Proof.
  intros Hi Hg Hx.
  destruct (decode_in_range _ _ _ _ Hi Hg Hx) as (edges & _ & Hd & _).
  destruct (init_fields _ _ _ Hi)
    as (Hmode & _ & _ & _ & _ & _ & _ & _ & _ & _ & Hp0 & Hp1 & _ & Hne).
  set (t := {| b_types := map truthy (vs_VX graph); b_edges := edges |}) in *.
  assert (Hlen : length (clusters t) = vcount graph).
  { rewrite length_clusters. unfold t. simpl. by rewrite length_map. }
  assert (Hmax : (S (max_list (clusters t)) <= vcount graph)%nat).
  { pose proof (clusters_max t) as Hm. unfold t in Hm at 1 3. simpl in Hm.
    rewrite length_map in Hm. apply Hm. unfold vcount in Hne. unfold vcount. lia. }
  destruct (labels_of_total (clusters t) (proj0_ problem)) as (l0 & Hl0 & _).
  { rewrite Hp0, Hlen. apply indices_of_below. }
  destruct (labels_of_total (clusters t) (proj1_ problem)) as (l1 & Hl1 & _).
  { rewrite Hp1, Hlen. apply indices_of_below. }
  assert (Hvalid : String.eqb m "3d" || String.eqb m "2d" || String.eqb m "4d" = true).
  { unfold MultiCriteriaProblem_init in Hi.
    apply bind_Ok in Hi as (u1 & _ & Hi).
    apply bind_Ok in Hi as (u2 & _ & Hi).
    apply bind_Ok in Hi as (u3 & _ & Hi).
    apply bind_Ok in Hi as (u4 & Hm & _).
    by apply py_assert_Ok in Hm. }
  assert (Hev : _evaluate problem x
                = (if String.eqb m "3d" then
                     Ok (Some [(- modularity_weighted (graph_proj1_ problem) l0)%Q;
                               (- modularity_weighted (graph_proj2_ problem) l1)%Q;
                               Qnat (S (max_list (clusters t)))])
                   else if String.eqb m "4d" then
                     Ok (Some [(- modularity_weighted (graph_proj1_ problem) l0)%Q;
                               (- modularity_weighted (graph_proj2_ problem) l1)%Q;
                               (- modularity (graph_ problem) (clusters t))%Q;
                               Qnat (S (max_list (clusters t)))])
                   else Ok (Some [(- modularity (graph_ problem) (clusters t))%Q;
                                  Qnat (S (max_list (clusters t)))]))).
  { unfold _evaluate. rewrite Hd, bind_Ok_l, Hmode. cbn [fst snd].
    destruct (String.eqb m "3d"); [by rewrite Hl0, bind_Ok_l, Hl1, bind_Ok_l|].
    destruct (String.eqb m "4d"); [by rewrite Hl0, bind_Ok_l, Hl1, bind_Ok_l|].
    by destruct (String.eqb m "2d"). }
  rewrite Hev.
  destruct (String.eqb m "3d"); [|destruct (String.eqb m "4d")];
    (eexists; exists (clusters t), (S (max_list (clusters t)));
     split; [exact Hd|]; split; [reflexivity|]; split; [done|]; split; [done|]; lia).
Qed.

End Evaluation.

Lemma evaluate_returns_objectives_witness :
  exists F membership num_clusters,
    decode (k23_problem "3d") [0; 1; 0; 2; 2] = Ok (membership, num_clusters) /\
    _evaluate (k23_problem "3d") [0; 1; 0; 2; 2] = Ok (Some F) /\
    length F = (if String.eqb "3d" "3d" then 3 else if String.eqb "3d" "4d" then 4 else 2)%nat /\
    last F = Some (Qnat num_clusters) /\
    (1 <= num_clusters <= vcount k23)%nat.
Proof.
  apply (evaluate_returns_objectives (ig := k23_igraph) "3d" k23 (k23_problem "3d")
           [0; 1; 0; 2; 2]).
  - vm_compute. reflexivity.
  - exact k23_two_sided.
  - exact k23_in_range.
Defined.

(** ** Result collation keeps every solution *)

Lemma pyval_eqb_refl a : pyval_eqb a a = true.
Proof.
  destruct a; simpl.
  - apply String.eqb_refl.
  - apply Z.eqb_refl.
  - apply Qeq_bool_iff. reflexivity.
Qed.

Lemma tuple_eqb_refl t : tuple_eqb t t = true.
Proof. induction t as [|a t IH]; simpl; [done|]. by rewrite pyval_eqb_refl, IH. Qed.

Lemma foldl_set_add_keeps l s t : t ∈ s -> t ∈ foldl set_add s l.
Proof.
  revert s. induction l as [|u l IH]; intros s Ht; simpl; [done|].
  apply IH. unfold set_add. destruct (existsb _ _); [done|].
  apply elem_of_app. by left.
Qed.

Lemma foldl_set_add_covers l s t :
  t ∈ l -> exists u, u ∈ foldl set_add s l /\ tuple_eqb t u = true.
Proof.
  revert s. induction l as [|t' l IH]; intros s Ht; [by apply elem_of_nil in Ht|].
  simpl. apply elem_of_cons in Ht as [->|Ht]; [|by apply IH].
  unfold set_add. destruct (existsb (tuple_eqb t') s) eqn:He.
  - apply existsb_exists in He as (u & Hu & Heq). apply list_elem_of_In in Hu.
    exists u. split; [by apply foldl_set_add_keeps|done].
  - exists t'. split; [|apply tuple_eqb_refl].
    apply foldl_set_add_keeps, elem_of_app. right. by left.
Qed.

Lemma foldl_set_add_from l s t :
  t ∈ foldl set_add s l -> t ∈ s \/ t ∈ l.
Proof.
  revert s. induction l as [|u l IH]; intros s Ht; simpl in Ht; [by left|].
  apply IH in Ht as [Ht|Ht]; [|right; by right].
  unfold set_add in Ht. destruct (existsb _ _); [by left|].
  apply elem_of_app in Ht as [Ht|Ht]; [by left|].
  apply list_elem_of_singleton in Ht as ->. right. by left.
Qed.

Lemma foldl_set_add_length l s :
  (length s <= length (foldl set_add s l) <= length s + length l)%nat.
Proof.
  revert s. induction l as [|u l IH]; intros s; simpl; [lia|].
  specialize (IH (set_add s u)). unfold set_add in *.
  destruct (existsb _ _); [lia|]. rewrite length_app in IH. simpl in IH. lia.
Qed.

Lemma foldl_set_add_nonempty l s : l <> [] -> foldl set_add s l <> [].
Proof.
  destruct l as [|t l]; [done|]. intros _ Hnil.
  destruct (foldl_set_add_covers (t :: l) s t) as (u & Hu & _); [left|].
  rewrite Hnil in Hu. by apply elem_of_nil in Hu.
Qed.

Section CollationProperties.
Context {ig : IGraph} {pm : Pymoo} {mt : Metrics}.

(** The list of result tuples, one per genome, in order. *)
Lemma collate_loop_spec name graph problem badj X temp :
  for_each (fun acc x =>
              result ← collate_one name graph problem badj x;
              Ok (acc ++ [result]))
           [] X = Ok temp ->
  Forall2 (fun x value => collate_one name graph problem badj x = Ok value) X temp.
Proof.
  intros Hrun.
  assert (Hgen : forall X acc0 temp,
    for_each (fun acc x =>
                result ← collate_one name graph problem badj x;
                Ok (acc ++ [result]))
             acc0 X = Ok temp ->
    exists vs, temp = acc0 ++ vs /\
      Forall2 (fun x value => collate_one name graph problem badj x = Ok value) X vs).
  { clear. induction X as [|x X IH]; intros acc0 temp Hrun.
    - injection Hrun as <-. exists []. by rewrite app_nil_r.
    - rewrite for_each_cons in Hrun.
      apply bind_Ok in Hrun as (acc1 & Hstep & Hrun).
      apply bind_Ok in Hstep as (value & Hv & Hstep). injection Hstep as <-.
      apply IH in Hrun as (vs & -> & Hf).
      exists (value :: vs). rewrite <- app_assoc. split; [done|]. by constructor. }
  apply Hgen in Hrun as (vs & -> & Hf). done.
Qed.

(** X18: whenever [collate_results] returns, every genome is represented
    (some record holds a tuple equal to the genome's), every record holds
    the tuple of some genome under the twelve column names, and there are
    at most as many records as genomes and at least one when there is a
    genome. *)
Theorem collate_results_keeps_every_solution name graph problem X results :
  collate_results name graph problem X = Ok results ->
  exists badj,
    make_badj graph = Ok badj /\
    (forall x, x ∈ X ->
       exists value r, collate_one name graph problem badj x = Ok value /\
                       r ∈ results /\ tuple_eqb value (metric_tuple r) = true) /\
    (forall r, r ∈ results ->
       map fst r = cols /\
       exists x, x ∈ X /\ collate_one name graph problem badj x = Ok (metric_tuple r)) /\
    (length results <= length X)%nat /\
    (X <> [] -> results <> []).
Proof.
  unfold collate_results. intros Hc.
  apply bind_Ok in Hc as (badj & Hb & Hc).
  apply bind_Ok in Hc as (temp & Htemp & Hc).
  injection Hc as <-.
  apply collate_loop_spec in Htemp.
  exists badj. split; [done|]. split; [|split; [|split]].
  - intros x Hx.
    apply list_elem_of_lookup in Hx as (i & Hi).
    destruct (Forall2_lookup_l _ _ _ _ _ Htemp Hi) as (value & Hv & Hcv).
    destruct (foldl_set_add_covers temp [] value) as (u & Hu & Heq).
    { apply list_elem_of_lookup. eauto. }
    exists value, (record_of u). split; [done|]. split.
    + rewrite map_fmap. apply list_elem_of_fmap. exists u. done.
    + assert (Hin : u ∈ temp).
      { apply foldl_set_add_from in Hu as [Hu|Hu]; [by apply elem_of_nil in Hu|done]. }
      apply list_elem_of_lookup in Hin as (j & Hj).
      destruct (Forall2_lookup_r _ _ _ _ _ Htemp Hj) as (x' & _ & Hcu).
      rewrite metric_tuple_record_of; [done|]. by eapply collate_one_length.
  - intros r Hr. rewrite map_fmap in Hr.
    apply list_elem_of_fmap in Hr as (u & -> & Hu).
    apply foldl_set_add_from in Hu as [Hu|Hu]; [by apply elem_of_nil in Hu|].
    apply list_elem_of_lookup in Hu as (j & Hj).
    destruct (Forall2_lookup_r _ _ _ _ _ Htemp Hj) as (x' & Hx' & Hcu).
    pose proof (collate_one_length _ _ _ _ _ _ Hcu) as Hlen.
    split.
    + unfold record_of. by rewrite fst_zip by lia.
    + exists x'. split; [apply list_elem_of_lookup; eauto|].
      by rewrite metric_tuple_record_of.
  - rewrite length_map. pose proof (foldl_set_add_length temp []) as Hl.
    apply Forall2_length in Htemp. unfold set_of. simpl in Hl. lia.
  - intros HX Hnil. apply (f_equal length) in Hnil. rewrite length_map in Hnil.
    assert (temp <> []).
    { intros ->. apply Forall2_length in Htemp. by destruct X. }
    pose proof (foldl_set_add_nonempty temp [] H) as Hne.
    unfold set_of in Hnil. by destruct (foldl set_add [] temp).
Qed.

End CollationProperties.

Lemma collate_results_keeps_every_solution_witness :
  exists results badj,
    collate_results (mt := k23_metrics) "multicriteria" k23 (k23_problem "3d")
      [[0; 1; 1; 1; 1]; [0; 0; 0; 0; 0]; [0; 1; 1; 1; 1]] = Ok results /\
    make_badj (mt := k23_metrics) k23 = Ok badj /\
    (forall x, x ∈ [[0; 1; 1; 1; 1]; [0; 0; 0; 0; 0]; [0; 1; 1; 1; 1]] ->
       exists value r,
         collate_one (mt := k23_metrics) "multicriteria" k23 (k23_problem "3d") badj x
         = Ok value /\
         r ∈ results /\ tuple_eqb value (metric_tuple r) = true) /\
    (forall r, r ∈ results ->
       map fst r = cols /\
       exists x, x ∈ [[0; 1; 1; 1; 1]; [0; 0; 0; 0; 0]; [0; 1; 1; 1; 1]] /\
                 collate_one (mt := k23_metrics) "multicriteria" k23 (k23_problem "3d") badj x
                 = Ok (metric_tuple r)) /\
    (length results <= 3)%nat /\
    ([[0; 1; 1; 1; 1]; [0; 0; 0; 0; 0]; [0; 1; 1; 1; 1]] <> [] -> results <> []).
Proof.
  destruct (collate_results (mt := k23_metrics) "multicriteria" k23 (k23_problem "3d")
              [[0; 1; 1; 1; 1]; [0; 0; 0; 0; 0]; [0; 1; 1; 1; 1]])
    as [results|e] eqn:Hc; [|vm_compute in Hc; discriminate Hc].
  destruct (collate_results_keeps_every_solution (mt := k23_metrics) "multicriteria" k23
              (k23_problem "3d") [[0; 1; 1; 1; 1]; [0; 0; 0; 0; 0]; [0; 1; 1; 1; 1]]
              results Hc) as (badj & Hb & Hrest).
  exists results, badj. split; [reflexivity|]. split; [exact Hb|]. exact Hrest.
Defined.

(** ** The mutation probabilities of the constructor *)

Lemma normalise_app freq total acc0 :
  Qeq_bool total 0 = false ->
  for_each (fun acc x => q ← py_div x total; Ok (acc ++ [q])) acc0 freq
  = Ok (acc0 ++ map (fun x => (x / total)%Q) freq).
Proof.
  intros Ht. revert acc0. induction freq as [|x freq IH]; intros acc0.
  - by rewrite app_nil_r.
  - assert (Hx : py_div x total = Ok (x / total)%Q) by (unfold py_div; by rewrite Ht).
    rewrite for_each_cons. cbn beta. rewrite Hx, !bind_Ok_l, IH.
    by rewrite <- app_assoc.
Qed.

Lemma normalise_nonzero freq total :
  Qeq_bool total 0 = false -> normalise freq total = Ok (map (fun x => (x / total)%Q) freq).
Proof. intros Ht. unfold normalise. by rewrite normalise_app. Qed.

Lemma normalise_zero x freq total :
  Qeq_bool total 0 = true -> normalise (x :: freq) total = Raise ZeroDivisionError.
Proof. intros Ht. unfold normalise. rewrite for_each_cons. unfold py_div. by rewrite Ht. Qed.

Lemma normalise_Ok freq total p :
  freq <> [] -> normalise freq total = Ok p ->
  Qeq_bool total 0 = false /\ p = map (fun x => (x / total)%Q) freq.
Proof.
  intros Hne Hn. destruct (Qeq_bool total 0) eqn:Ht.
  - destruct freq as [|x freq]; [done|]. by rewrite normalise_zero in Hn.
  - rewrite normalise_nonzero in Hn by done. by injection Hn as <-.
Qed.

Lemma foldl_Qplus_shift (a : Q) l : (foldl Qplus a l == a + sumQ l)%Q.
Proof.
  unfold sumQ. revert a. induction l as [|x l IH]; intros a; simpl.
  - by rewrite Qplus_0_r.
  - rewrite (IH (a + x)%Q), (IH (0 + x)%Q). ring.
Qed.

Lemma sumQ_cons x l : (sumQ (x :: l) == x + sumQ l)%Q.
Proof. unfold sumQ at 1. simpl. rewrite foldl_Qplus_shift. ring. Qed.

Lemma sumQ_scaled total l :
  ~ (total == 0)%Q -> (sumQ (map (fun x => (x / total)%Q) l) == sumQ l / total)%Q.
Proof.
  intros Ht. induction l as [|x l IH].
  - unfold sumQ. simpl. field. done.
  - cbn [map]. rewrite !sumQ_cons, IH. field. done.
Qed.

Lemma sumQ_normalised total l :
  Qeq_bool total 0 = false -> (sumQ l == total)%Q ->
  (sumQ (map (fun x => (x / total)%Q) l) == 1)%Q.
Proof.
  intros Ht Hs.
  assert (Hne : ~ (total == 0)%Q).
  { intros H0. apply Qeq_bool_iff in H0. congruence. }
  rewrite sumQ_scaled by done. rewrite Hs. field. done.
Qed.

Lemma foldl_Zplus_shift (a : Z) l : foldl Z.add a l = a + sumZ l.
Proof.
  unfold sumZ. revert a. induction l as [|x l IH]; intros a; simpl; [lia|].
  rewrite (IH (a + x)), (IH (0 + x)). lia.
Qed.

Lemma sumQ_inject_Z l : (sumQ (map inject_Z l) == inject_Z (sumZ l))%Q.
Proof.
  induction l as [|x l IH].
  - reflexivity.
  - cbn [map]. rewrite sumQ_cons, IH. unfold sumZ at 2. simpl.
    rewrite foldl_Zplus_shift. rewrite <- inject_Z_plus. reflexivity.
Qed.

Section Probabilities.
Context {ig : IGraph}.

(** X19: when the constructor returns for a graph with one betweenness
    value per vertex, each of [prob1], [prob2] and [prob3] has one entry
    per vertex and its entries add up to 1. *)
Theorem mutation_probabilities_sum_to_one m graph problem :
  MultiCriteriaProblem_init m graph = Ok problem ->
  length (betweenness graph) = vcount graph ->
  (length (prob1 problem) = vcount graph /\ (sumQ (prob1 problem) == 1)%Q) /\
  (length (prob2 problem) = vcount graph /\ (sumQ (prob2 problem) == 1)%Q) /\
  (length (prob3 problem) = vcount graph /\ (sumQ (prob3 problem) == 1)%Q).
Proof.
  unfold MultiCriteriaProblem_init. intros Hi Hb.
  apply bind_Ok in Hi as (u1 & _ & Hi).
  apply bind_Ok in Hi as (u2 & _ & Hi).
  apply bind_Ok in Hi as (u3 & Hne & Hi).
  apply bind_Ok in Hi as (u4 & _ & Hi).
  apply bind_Ok in Hi as (p1 & Hp1 & Hi).
  apply bind_Ok in Hi as (p2 & Hp2 & Hi).
  apply bind_Ok in Hi as (p3 & Hp3 & Hi).
  injection Hi as <-. cbn [prob1 prob2 prob3].
  apply py_assert_Ok in Hne.
  assert (Hn : vcount graph <> 0%nat).
  { intros Hz. rewrite Hz in Hne. discriminate. }
  assert (Hdeg : length (indegree graph) = vcount graph).
  { unfold indegree. by rewrite length_map, length_get_adjlist. }
  assert (Hnonempty : forall {A} (l : list A), length l = vcount graph -> l <> []).
  { intros A l Hl ->. simpl in Hl. lia. }
  apply normalise_Ok in Hp1 as [Ht1 ->];
    [|apply Hnonempty; by rewrite !length_map].
  apply normalise_Ok in Hp2 as [Ht2 ->]; [|by apply Hnonempty].
  apply normalise_Ok in Hp3 as [Ht3 ->];
    [|apply Hnonempty; rewrite length_zip_with; lia].
  split; [|split].
  - split; [by rewrite !length_map|].
    apply sumQ_normalised; [done|]. apply sumQ_inject_Z.
  - split; [by rewrite length_map|]. by apply sumQ_normalised.
  - split; [rewrite length_map, length_zip_with; lia|]. by apply sumQ_normalised.
Qed.

(** X20: on a graph that passes the checks and in which no vertex has more
    than one neighbour, the constructor divides by the zero sum of the
    adjusted degrees: it raises ZeroDivisionError. *)
Theorem constructor_fails_without_branching m graph :
  is_bipartite graph = true ->
  is_connected graph = true ->
  vcount graph <> 0%nat ->
  String.eqb m "3d" || String.eqb m "2d" || String.eqb m "4d" = true ->
  Forall (fun a => (length a <= 1)%nat) (get_adjlist graph) ->
  MultiCriteriaProblem_init m graph = Raise ZeroDivisionError.
Proof.
  intros Hb Hc Hn Hm Hdeg. unfold MultiCriteriaProblem_init.
  rewrite Hb, Hc, Hm.
  destruct (vcount graph =? 0)%nat eqn:E; [apply Nat.eqb_eq in E; done|].
  cbn [py_assert negb]. rewrite !bind_Ok_l.
  set (freq1 := map (fun x => if x =? 1 then x - 1 else x) (indegree graph)).
  assert (Hzero : Forall (fun x => x = 0) freq1).
  { unfold freq1, indegree. rewrite Forall_map, Forall_map.
    eapply Forall_impl; [exact Hdeg|]. intros a Ha. cbn beta. unfold compose.
    cbn beta in Ha.
    assert (Hcases : Z.of_nat (length a) = 0 \/ Z.of_nat (length a) = 1) by lia.
    destruct Hcases as [-> | ->]; reflexivity. }
  assert (Hsum : sumZ freq1 = 0).
  { clear -Hzero. induction Hzero as [|x l -> _ IH]; [done|].
    unfold sumZ. simpl. by rewrite foldl_Zplus_shift. }
  assert (Hlen : length freq1 = vcount graph).
  { unfold freq1, indegree. by rewrite !length_map, length_get_adjlist. }
  rewrite Hsum.
  destruct freq1 as [|x freq1]; [simpl in Hlen; lia|].
  cbn [map]. by rewrite normalise_zero.
Qed.

End Probabilities.

Lemma mutation_probabilities_sum_to_one_witness :
  (length (prob1 (k23_problem "3d")) = vcount k23 /\ (sumQ (prob1 (k23_problem "3d")) == 1)%Q) /\
  (length (prob2 (k23_problem "3d")) = vcount k23 /\ (sumQ (prob2 (k23_problem "3d")) == 1)%Q) /\
  (length (prob3 (k23_problem "3d")) = vcount k23 /\ (sumQ (prob3 (k23_problem "3d")) == 1)%Q).
Proof.
  apply (mutation_probabilities_sum_to_one (ig := k23_igraph) "3d" k23 (k23_problem "3d")).
  - vm_compute. reflexivity.
  - reflexivity.
Defined.

Lemma constructor_fails_without_branching_witness :
  MultiCriteriaProblem_init (ig := k23_igraph) "3d" k11 = Raise ZeroDivisionError.
Proof.
  apply (constructor_fails_without_branching (ig := k23_igraph) "3d" k11).
  - reflexivity.
  - reflexivity.
  - discriminate.
  - reflexivity.
  - let t := eval vm_compute in (get_adjlist k11) in change (get_adjlist k11) with t.
    repeat constructor.
Defined.

(** ** Detection and the hypervolume *)

Section DetectionProperties.
Context {ig : IGraph} {pm : Pymoo} {mt : Metrics}.

(** X21: the constructor of the detector does not look at ['mode']; with
    a mode other than ['3d'], ['2d'] and ['4d'] it returns a detector
    whose [detect_communities] raises an assertion error on every graph. *)
Theorem invalid_mode_fails_at_detection name params lo hi self m depth rs graph :
  ComDetMultiCriteria_init name params lo hi = Ok self ->
  raw_mode params = Some m ->
  str_in m ["3d"; "2d"; "4d"]%string = false ->
  exists msg, detect_communities depth rs self graph = Raise (AssertionError msg).
Proof.
  intros Hi Hm Hbad.
  assert (Hmode : mode (params_ self) = m).
  { unfold ComDetMultiCriteria_init in Hi.
    apply bind_Ok in Hi as (? & _ & Hi).
    apply bind_Ok in Hi as (? & _ & Hi).
    apply bind_Ok in Hi as (? & _ & Hi).
    injection Hi as <-. simpl. by rewrite Hm. }
  assert (Hinvalid : String.eqb m "3d" || String.eqb m "2d" || String.eqb m "4d" = false).
  { unfold str_in in Hbad. simpl in Hbad. rewrite orb_false_r in Hbad.
    rewrite orb_assoc in Hbad. exact Hbad. }
  unfold detect_communities, MultiCriteriaProblem_init. rewrite Hmode.
  destruct (is_bipartite graph); [|simpl; eauto].
  destruct (is_connected graph); [|simpl; eauto].
  destruct (negb (vcount graph =? 0)%nat); [|simpl; eauto].
  rewrite Hinvalid. simpl. eauto.
Qed.

Lemma collate_results_empty_iff name graph problem X results :
  collate_results name graph problem X = Ok results -> (results = [] <-> X = []).
Proof.
  unfold collate_results. intros Hc.
  apply bind_Ok in Hc as (badj & _ & Hc).
  apply bind_Ok in Hc as (temp & Htemp & Hc).
  injection Hc as <-.
  apply collate_loop_spec, Forall2_length in Htemp.
  split.
  - intros Hnil. apply (f_equal length) in Hnil. rewrite length_map in Hnil.
    destruct temp as [|t temp]; [by destruct X|].
    exfalso. apply (foldl_set_add_nonempty (t :: temp) []); [done|].
    unfold set_of in Hnil. by destruct (foldl set_add [] (t :: temp)).
  - intros ->. by destruct temp.
Qed.

(** X22: after a detection that returned with the history saved,
    [compute_hypervolume] raises no attribute error: when the engine
    returned no genome it raises an assertion error, and otherwise it
    returns the evaluation counts of the history with one hypervolume for
    each. *)
Theorem compute_hypervolume_after_detection depth rs self graph self' :
  detect_communities depth rs self graph = Ok self' ->
  save_history (params_ self) = true ->
  exists r,
    res_ self' = Some r /\
    (res_X r = [] -> exists msg, compute_hypervolume self' = Raise (AssertionError msg)) /\
    (res_X r <> [] ->
       exists hv, compute_hypervolume self' = Ok (map n_eval (res_history r), hv) /\
                  length hv = length (res_history r)).
Proof.
  unfold detect_communities. intros Hd Hs.
  apply bind_Ok in Hd as (? & _ & Hd).
  apply bind_Ok in Hd as (? & _ & Hd).
  apply bind_Ok in Hd as (? & _ & Hd).
  apply bind_Ok in Hd as (problem & _ & Hd).
  apply bind_Ok in Hd as (pop & _ & Hd).
  apply bind_Ok in Hd as (results & Hres & Hd).
  injection Hd as <-.
  apply collate_results_empty_iff in Hres.
  eexists. split; [reflexivity|]. split.
  - intros HX. apply Hres in HX. subst results.
    unfold compute_hypervolume. simpl. eauto.
  - intros HX. unfold compute_hypervolume. cbn [results_ params_ res_ problem_].
    destruct results as [|r0 results]; [exfalso; by apply HX, Hres|].
    rewrite Hs. cbn [length Nat.eqb negb py_assert]. rewrite !bind_Ok_l.
    eexists. split; [reflexivity|]. by rewrite !length_map.
Qed.

End DetectionProperties.

Example k23_detector_built :
  ComDetMultiCriteria_init (ig := k23_igraph) "multicriteria"
    {| raw_mode := None; raw_popsize := Some 6%nat; raw_termination := None;
       raw_save_history := None; raw_seed := None; raw_initialization := None;
       raw_mutation := None |} 1 30
  = Ok k23_detector.
Proof. reflexivity. Qed.

Lemma invalid_mode_fails_at_detection_witness :
  exists self,
    ComDetMultiCriteria_init (ig := k23_igraph) "multicriteria"
      {| raw_mode := Some "5d"%string; raw_popsize := None; raw_termination := None;
         raw_save_history := None; raw_seed := None; raw_initialization := None;
         raw_mutation := None |} 1 30 = Ok self /\
    exists msg,
      detect_communities (pm := k23_pymoo) (mt := k23_metrics) 5 example_rs self k23
      = Raise (AssertionError msg).
Proof.
  eexists. split; [reflexivity|].
  apply (invalid_mode_fails_at_detection (pm := k23_pymoo) (mt := k23_metrics) "multicriteria"
           {| raw_mode := Some "5d"%string; raw_popsize := None; raw_termination := None;
              raw_save_history := None; raw_seed := None; raw_initialization := None;
              raw_mutation := None |} 1 30 _ "5d" 5 example_rs k23).
  - reflexivity.
  - reflexivity.
  - reflexivity.
Defined.

Lemma compute_hypervolume_after_detection_witness :
  exists self' r,
    detect_communities (pm := k23_pymoo) (mt := k23_metrics) 5 example_rs k23_detector k23
    = Ok self' /\
    res_ self' = Some r /\
    (res_X r = [] ->
     exists msg, compute_hypervolume (pm := k23_pymoo) self' = Raise (AssertionError msg)) /\
    (res_X r <> [] ->
       exists hv, compute_hypervolume (pm := k23_pymoo) self'
                  = Ok (map n_eval (res_history r), hv) /\
                  length hv = length (res_history r)).
Proof.
  destruct (detect_communities (pm := k23_pymoo) (mt := k23_metrics) 5 example_rs
              k23_detector k23) as [self'|e] eqn:Hd; [|vm_compute in Hd; discriminate Hd].
  destruct (compute_hypervolume_after_detection (pm := k23_pymoo) (mt := k23_metrics)
              5 example_rs k23_detector k23 self' Hd eq_refl) as (r & Hr & Hrest).
  exists self', r. split; [reflexivity|]. split; [exact Hr|]. exact Hrest.
Defined.

(** ** The biadjacency matrix *)

Lemma for_each_collect {A B} (f : list B -> A -> res (list B)) (h : A -> B) l acc0 :
  (forall acc x, x ∈ l -> f acc x = Ok (acc ++ [h x])) ->
  for_each f acc0 l = Ok (acc0 ++ map h l).
Proof.
  revert acc0. induction l as [|x l IH]; intros acc0 Hf.
  - by rewrite app_nil_r.
  - rewrite for_each_cons, Hf by left. rewrite bind_Ok_l, IH.
    + by rewrite <- app_assoc.
    + intros acc y Hy. apply Hf. by right.
Qed.

Lemma indices_of_snoc c l z :
  indices_of c (l ++ [z]) = indices_of c l ++ (if z =? c then [length l] else []).
Proof.
  unfold indices_of. rewrite imap_app, omap_app. f_equal.
  simpl. rewrite Nat.add_0_r. by destruct (z =? c).
Qed.

Lemma indices_of_prefix c l1 l2 k v :
  indices_of c l1 !! k = Some v -> indices_of c (l1 ++ l2) !! k = Some v.
Proof.
  intros Hk. induction l2 as [|z l2 IH] using rev_ind; [by rewrite app_nil_r|].
  rewrite app_assoc, indices_of_snoc. by apply lookup_app_l_Some.
Qed.

(** The first loop of [make_badj]: a vertex is mapped to its rank among
    the vertices of its kind, ['name'] 1 or not. *)
Lemma vertex_map_spec names n :
  length names = n ->
  Forall (fun z => z = 0 \/ z = 1) names ->
  exists vm lid uid,
    for_each (fun (st : list nat * nat * nat) i =>
          nm ← py_get names i;
          let '(vertex_map, lid, uid) := st in
          if nm =? 1 then Ok (vertex_map ++ [uid], lid, S uid)
          else Ok (vertex_map ++ [lid], S lid, uid))
        ([], 0%nat, 0%nat) (seq 0 n) = Ok (vm, lid, uid) /\
    length vm = n /\
    forall v c, names !! v = Some c ->
      exists k, vm !! v = Some k /\ indices_of c names !! k = Some v.
Proof.
  intros Hlen Hnames.
  set (P := fun (pre : list nat) (st : list nat * nat * nat) =>
              length st.1.1 = length pre /\
              st.1.2 = length (indices_of 0 (take (length pre) names)) /\
              st.2 = length (indices_of 1 (take (length pre) names)) /\
              forall v c, (v < length pre)%nat -> names !! v = Some c ->
                exists k, st.1.1 !! v = Some k /\
                          indices_of c (take (length pre) names) !! k = Some v).
  destruct (for_each_prefix P
    (fun (st : list nat * nat * nat) i =>
          nm ← py_get names i;
          let '(vertex_map, lid, uid) := st in
          if nm =? 1 then Ok (vertex_map ++ [uid], lid, S uid)
          else Ok (vertex_map ++ [lid], S lid, uid))
    (seq 0 n)) with (s := (([] : list nat), 0%nat, 0%nat)) as ([[vm lid] uid] & Hrun & HP).
  - intros pre i post [[vm lid] uid] Hsplit (Hl & Hlid & Huid & Hmap).
    cbn [fst snd] in Hl, Hlid, Huid, Hmap.
    assert (Hi : i = length pre /\ (i < n)%nat).
    { assert (Hk : seq 0 n !! length pre = Some i)
        by (rewrite Hsplit; apply list_lookup_middle; done).
      apply lookup_seq in Hk. simpl in Hk. lia. }
    destruct Hi as [-> Hi].
    destruct (lookup_lt_is_Some_2 names (length pre)) as [z Hz]; [lia|].
    apply py_get_Ok in Hz as Hget. rewrite Hget, bind_Ok_l.
    assert (Htake : take (S (length pre)) names = take (length pre) names ++ [z])
      by (by apply take_S_r).
    assert (Hz01 : z = 0 \/ z = 1) by (rewrite Forall_lookup in Hnames; by eapply Hnames).
    assert (Hlt : length (take (length pre) names) = length pre)
      by (rewrite length_take; lia).
    assert (Hpre : length (pre ++ [length pre]) = S (length pre))
      by (rewrite length_app; simpl; lia).
    destruct (z =? 1) eqn:E1.
    + apply Z.eqb_eq in E1. subst z.
      eexists. split; [reflexivity|]. unfold P. cbn [fst snd].
      rewrite Hpre, Htake, !indices_of_snoc.
      cbn [Z.eqb Pos.eqb]. rewrite app_nil_r, !length_app. cbn [length].
      split; [lia|]. split; [done|]. split; [lia|].
      intros v c Hv Hc. destruct (decide (v = length pre)) as [->|Hne].
      * assert (c = 1) by congruence. subst c. exists uid.
        split; [by rewrite lookup_app_r, Hl, Nat.sub_diag by lia|].
        rewrite indices_of_snoc. cbn [Z.eqb Pos.eqb].
        rewrite lookup_app_r by lia. rewrite Huid, Nat.sub_diag, Hlt. done.
      * destruct (Hmap v c) as (k & Hk & Hik); [lia|done|].
        exists k. split; [by apply lookup_app_l_Some|].
        by apply indices_of_prefix.
    + apply Z.eqb_neq in E1. assert (z = 0) by lia. subst z.
      eexists. split; [reflexivity|]. unfold P. cbn [fst snd].
      rewrite Hpre, Htake, !indices_of_snoc.
      cbn [Z.eqb Pos.eqb]. rewrite app_nil_r, !length_app. cbn [length].
      split; [lia|]. split; [lia|]. split; [done|].
      intros v c Hv Hc. destruct (decide (v = length pre)) as [->|Hne].
      * assert (c = 0) by congruence. subst c. exists lid.
        split; [by rewrite lookup_app_r, Hl, Nat.sub_diag by lia|].
        rewrite indices_of_snoc. cbn [Z.eqb Pos.eqb].
        rewrite lookup_app_r by lia. rewrite Hlid, Nat.sub_diag, Hlt. done.
      * destruct (Hmap v c) as (k & Hk & Hik); [lia|done|].
        exists k. split; [by apply lookup_app_l_Some|].
        by apply indices_of_prefix.
  - unfold P. cbn [fst snd length take]. split; [done|]. split; [done|]. split; [done|].
    intros v c Hv. lia.
  - destruct HP as (Hl & _ & _ & Hmap). cbn [fst snd] in Hl, Hmap.
    rewrite length_seq in Hl, Hmap.
    exists vm, lid, uid. split; [exact Hrun|]. split; [done|].
    intros v c Hc. destruct (Hmap v c) as (k & Hk & Hik); [|done|].
    + apply lookup_lt_Some in Hc. lia.
    + rewrite take_ge in Hik by lia. eauto.
Qed.

Section Biadjacency.
Context {ig : IGraph} {mt : Metrics}.

(** X23: on a graph whose attributes ['name'] and ['VX'] agree, are 0 or 1
    and differ on the ends of every edge, [make_badj] hands
    [edgelist2biadjacency] one entry per edge, in order: the row is the
    position of the edge's ['name'] 0 end in [proj0_] and the column the
    position of its ['name'] 1 end in [proj1_], the order in which
    [collate_results] lists the labels. *)
Theorem make_badj_entries_follow_projections m graph problem :
  MultiCriteriaProblem_init m graph = Ok problem ->
  vs_name graph = vs_VX graph ->
  named_two_sided graph ->
  exists entries,
    make_badj graph = edgelist2biadjacency entries /\
    Forall2 (badj_entry (proj0_ problem) (proj1_ problem)) (es graph) entries.
Proof.
  intros Hi Hname [H01 Hedges].
  destruct (init_fields _ _ _ Hi)
    as (_ & _ & _ & _ & _ & _ & _ & _ & _ & _ & Hp0 & Hp1 & _).
  rewrite Hp0, Hp1, <- Hname. clear Hp0 Hp1.
  set (names := vs_name graph) in *.
  assert (Hlen : length names = vcount graph) by (unfold vcount; by rewrite <- Hname).
  destruct (vertex_map_spec names (vcount graph) Hlen H01)
    as (vm & lid & uid & Hrun & Hvm & Hmap).
  unfold make_badj. fold names. rewrite Hrun, bind_Ok_l. cbn [fst snd].
  set (h2 := fun st : nat * nat =>
               if truthy (default 0 (names !! st.2)) then (st.1, st.2) else (st.2, st.1)).
  set (h3 := fun st : nat * nat =>
               (default 0%nat (vm !! st.1), default 0%nat (vm !! st.2))).
  assert (Hends : forall e, e ∈ es graph ->
            exists a b, names !! source e = Some a /\ names !! target e = Some b /\
                        a <> b /\ (a = 0 \/ a = 1) /\ (b = 0 \/ b = 1)).
  { intros e He. rewrite Forall_forall in Hedges.
    destruct (Hedges e He) as (a & b & Ha & Hb & Hab).
    assert (Ha01 : a = 0 \/ a = 1) by (rewrite Forall_lookup in H01; by eapply H01).
    assert (Hb01 : b = 0 \/ b = 1) by (rewrite Forall_lookup in H01; by eapply H01).
    unfold source, target.
    destruct (Nat.le_ge_cases (e_from e) (e_to e)) as [Hle|Hle].
    - rewrite Nat.min_l, Nat.max_r by done. exists a, b. done.
    - rewrite Nat.min_r, Nat.max_l by done. exists b, a. done. }
  rewrite (for_each_collect _ h2).
  2:{ intros acc st Hst. rewrite map_fmap in Hst.
      apply list_elem_of_fmap in Hst as (e & -> & He).
      destruct (Hends e He) as (a & b & _ & Hb & _). cbn [fst snd].
      apply py_get_Ok in Hb as Hget. rewrite Hget, bind_Ok_l.
      unfold h2. cbn [fst snd]. by rewrite Hb. }
  rewrite bind_Ok_l. cbn [app].
  rewrite (for_each_collect _ h3).
  2:{ intros acc st Hst. rewrite !map_fmap in Hst.
      apply list_elem_of_fmap in Hst as (st0 & -> & Hst0).
      apply list_elem_of_fmap in Hst0 as (e & -> & He).
      destruct (Hends e He) as (a & b & Ha & Hb & _).
      destruct (Hmap _ _ Ha) as (ka & Hka & _).
      destruct (Hmap _ _ Hb) as (kb & Hkb & _).
      unfold h2, h3. cbn [fst snd]. rewrite Hb. cbn [default from_option id].
      destruct (truthy b); cbn [fst snd];
        apply py_get_Ok in Hka as Hga; apply py_get_Ok in Hkb as Hgb;
        repeat first [rewrite Hga | rewrite Hgb | rewrite bind_Ok_l];
        rewrite Hka, Hkb; reflexivity. }
  rewrite bind_Ok_l. cbn [app].
  eexists. split; [reflexivity|].
  rewrite !map_fmap, <- !list_fmap_compose.
  apply Forall2_fmap_r, Forall_Forall2_diag, Forall_forall.
  intros e He. destruct (Hends e He) as (a & b & Ha & Hb & Hab & Ha01 & Hb01).
  destruct (Hmap _ _ Ha) as (ka & Hka & Hia).
  destruct (Hmap _ _ Hb) as (kb & Hkb & Hib).
  assert (Horder : (source e = e_from e /\ target e = e_to e) \/
                   (source e = e_to e /\ target e = e_from e)).
  { unfold source, target.
    destruct (Nat.le_ge_cases (e_from e) (e_to e)) as [Hle|Hle].
    - left. by rewrite Nat.min_l, Nat.max_r.
    - right. by rewrite Nat.min_r, Nat.max_l. }
  unfold compose, h2, h3, badj_entry. cbn [fst snd]. rewrite Hb. cbn [default from_option id].
  destruct Hb01 as [-> | ->]; cbn [truthy Z.eqb negb fst snd]; rewrite Hka, Hkb; cbn [default from_option id].
  - assert (a = 1) by lia. subst a.
    exists (target e), (source e). split; [|done].
    destruct Horder as [[-> ->]|[-> ->]]; [by right|by left].
  - assert (a = 0) by lia. subst a.
    exists (source e), (target e). split; [|done].
    destruct Horder as [[-> ->]|[-> ->]]; [by left|by right].
Qed.

End Biadjacency.

Lemma k23_named_two_sided : named_two_sided k23.
Proof.
  split.
  - simpl. repeat constructor; lia.
  - simpl. repeat constructor; simpl; eexists _, _; (split; [reflexivity|]);
      (split; [reflexivity|]); discriminate.
Qed.

Lemma make_badj_entries_follow_projections_witness :
  exists entries,
    make_badj (mt := k23_metrics) k23 = edgelist2biadjacency (Metrics := k23_metrics) entries /\
    Forall2 (badj_entry (proj0_ (k23_problem "3d")) (proj1_ (k23_problem "3d")))
            (es k23) entries.
Proof.
  apply (make_badj_entries_follow_projections (ig := k23_igraph) (mt := k23_metrics)
           "3d" k23 (k23_problem "3d")).
  - vm_compute. reflexivity.
  - reflexivity.
  - exact k23_named_two_sided.
Defined.

(** ** Murata's modularity *)

Lemma sumQ_nil : sumQ [] = 0%Q.
Proof. reflexivity. Qed.

Lemma sumQ_nonneg l : Forall (fun c => (0 <= c)%Q) l -> (0 <= sumQ l)%Q.
Proof.
  induction 1 as [|c l Hc _ IH]; [rewrite sumQ_nil; lra|].
  rewrite sumQ_cons. lra.
Qed.

Lemma sumQ_bounds_entry l j c :
  Forall (fun c => (0 <= c)%Q) l -> l !! j = Some c -> (c <= sumQ l)%Q.
Proof.
  intros Hl. revert j. induction Hl as [|x l Hx Hl IH]; intros j Hj; [done|].
  rewrite sumQ_cons. pose proof (sumQ_nonneg l Hl) as Hs.
  destruct j as [|j]; simpl in Hj.
  - injection Hj as ->. lra.
  - apply IH in Hj. lra.
Qed.

Lemma sumQ_pointwise l1 l2 :
  Forall2 Qeq l1 l2 -> (sumQ l1 == sumQ l2)%Q.
Proof.
  induction 1 as [|x y l1 l2 Hxy _ IH]; [reflexivity|].
  rewrite !sumQ_cons, Hxy, IH. reflexivity.
Qed.

Lemma sumQ_alter (g : Q -> Q) l j x :
  l !! j = Some x -> (sumQ (alter g j l) == sumQ l - x + g x)%Q.
Proof.
  revert j. induction l as [|y l IH]; intros j Hj; [done|].
  destruct j as [|j]; simpl in Hj.
  - injection Hj as ->. cbn [alter list_alter]. rewrite !sumQ_cons. lra.
  - cbn [alter list_alter]. rewrite !sumQ_cons.
    change (list_alter g j l) with (alter g j l). rewrite (IH j Hj). lra.
Qed.

Lemma sumQ_rows_alter (g : Q -> Q) (e : list (list Q)) i j row x :
  e !! i = Some row -> row !! j = Some x ->
  (sumQ (map sumQ (alter (alter g j) i e)) == sumQ (map sumQ e) - x + g x)%Q.
Proof.
  revert i. induction e as [|r e IH]; intros i Hi Hj; [done|].
  destruct i as [|i]; simpl in Hi.
  - injection Hi as ->. cbn [alter list_alter map]. rewrite !sumQ_cons.
    change (list_alter g j row) with (alter g j row). rewrite (sumQ_alter g row j x Hj). lra.
  - cbn [alter list_alter map]. rewrite !sumQ_cons.
    change (list_alter (alter g j) i e) with (alter (alter g j) i e).
    rewrite (IH i Hi Hj). lra.
Qed.

Lemma counts_zeros k : counts k (replicate k (replicate k 0%Q)).
Proof.
  split; [apply length_replicate|]. apply Forall_replicate.
  split; [apply length_replicate|]. apply Forall_replicate. lra.
Qed.

Lemma counts_increment k e l m :
  counts k e -> counts k (alter (alter (fun c => (c + 1)%Q) m) l e).
Proof.
  intros [Hlen Hrows]. split; [by rewrite length_alter|].
  apply Forall_lookup. intros i row Hi.
  rewrite Forall_lookup in Hrows.
  destruct (decide (i = l)) as [->|Hne].
  - rewrite list_lookup_alter_eq in Hi.
    destruct (e !! l) as [row0|] eqn:Hr; [|done]. simpl in Hi. injection Hi as <-.
    destruct (Hrows l row0 Hr) as [Hl0 Hnn].
    split; [by rewrite length_alter|].
    apply Forall_lookup. intros j c Hj. rewrite Forall_lookup in Hnn.
    destruct (decide (j = m)) as [->|Hjm].
    + rewrite list_lookup_alter_eq in Hj.
      destruct (row0 !! m) as [c0|] eqn:Hc0; [|done]. simpl in Hj. injection Hj as <-.
      pose proof (Hnn m c0 Hc0). lra.
    + rewrite list_lookup_alter_ne in Hj by done. by eapply Hnn.
  - rewrite list_lookup_alter_ne in Hi by done. by eapply Hrows.
Qed.

(** The counting loop of [modularity_murata]. *)
Lemma murata_counts badj communities e :
  for_each (fun (e : list (list Q)) (st : nat * nat) =>
          l ← py_get communities st.1;
          m ← py_get communities (st.2 + shape0 badj);
          Ok (alter (alter (fun c => (c + 1)%Q) m) l e))
        (replicate (S (max_list communities)) (replicate (S (max_list communities)) 0%Q))
        (coo badj) = Ok e ->
  counts (S (max_list communities)) e /\
  (sumQ (map sumQ e) == Qnat (length (coo badj)))%Q.
Proof.
  set (k := S (max_list communities)). intros Hrun.
  refine (for_each_prefix_inv
            (fun pre (e : list (list Q)) =>
               counts k e /\ (sumQ (map sumQ e) == Qnat (length pre))%Q)
            _ _ _ _ e _ Hrun).
  - intros pre st post e0 e1 _ [Hc Hs] Hstep.
    apply bind_Ok in Hstep as (l & Hl & Hstep).
    apply bind_Ok in Hstep as (m & Hm & Hstep). injection Hstep as <-.
    split; [by apply counts_increment|].
    apply py_get_Ok in Hl, Hm.
    assert (Hlk : (l < k)%nat).
    { apply list_elem_of_lookup_2, max_list_elem_of_le in Hl. unfold k. lia. }
    assert (Hmk : (m < k)%nat).
    { apply list_elem_of_lookup_2, max_list_elem_of_le in Hm. unfold k. lia. }
    destruct Hc as [Hlen Hrows].
    destruct (lookup_lt_is_Some_2 e0 l) as [row Hrow]; [lia|].
    rewrite Forall_lookup in Hrows. destruct (Hrows l row Hrow) as [Hlrow _].
    destruct (lookup_lt_is_Some_2 row m) as [x Hx]; [lia|].
    rewrite (sumQ_rows_alter _ e0 l m row x Hrow Hx), Hs.
    rewrite length_app. cbn [length]. unfold Qnat.
    rewrite Nat2Z.inj_add, inject_Z_plus.
    change (inject_Z (Z.of_nat 1)) with 1%Q. lra.
  - split; [apply counts_zeros|].
    unfold k. cbn [length].
    assert (Hz : forall n j, (sumQ (map sumQ (replicate n (replicate j 0%Q))) == 0)%Q).
    { assert (Hrow : forall j, (sumQ (replicate j 0%Q) == 0)%Q).
      { induction j as [|j IH]; [reflexivity|]. simpl replicate. rewrite sumQ_cons, IH. lra. }
      intros n j. induction n as [|n IH]; [reflexivity|].
      simpl replicate. cbn [map]. rewrite sumQ_cons, IH, Hrow. lra. }
    rewrite Hz. reflexivity.
Qed.

Lemma lookup_map_seq_default (a : list Q) :
  map (fun i => default 0%Q (a !! i)) (seq 0 (length a)) = a.
Proof.
  apply list_eq. intros i. rewrite map_fmap, list_lookup_fmap.
  destruct (a !! i) as [x|] eqn:Hi.
  - rewrite lookup_seq_lt by (by eapply lookup_lt_Some). simpl. by rewrite Hi.
  - rewrite lookup_seq_ge; [done|]. by apply lookup_ge_None.
Qed.

(** The sum [q] of [modularity_murata] is at most the sum of the row sums. *)
Lemma murata_sum_bound (e : list (list Q)) (choice : list Q -> nat) is_ q0 :
  Forall (Forall (fun c => (0 <= c)%Q)) e ->
  (foldl (fun q i =>
            let j := choice (default [] (e !! i)) in
            (q + (cell e i j
                  - default 0%Q (map sumQ e !! i) * default 0%Q (map sumQ e !! j)))%Q)
         q0 is_
   <= q0 + sumQ (map (fun i => default 0%Q (map sumQ e !! i)) is_))%Q.
Proof.
  intros Hnn.
  assert (Ha : forall i, (0 <= default 0%Q (map sumQ e !! i))%Q).
  { intros i. rewrite map_fmap, list_lookup_fmap.
    destruct (e !! i) as [row|] eqn:Hi; simpl; [|lra].
    apply sumQ_nonneg. rewrite Forall_lookup in Hnn. by eapply Hnn. }
  assert (Hcell : forall i j, (cell e i j <= default 0%Q (map sumQ e !! i))%Q).
  { intros i j. unfold cell. rewrite map_fmap, list_lookup_fmap.
    destruct (e !! i) as [row|] eqn:Hi; simpl; [|lra].
    assert (Hrow : Forall (fun c => (0 <= c)%Q) row)
      by (rewrite Forall_lookup in Hnn; by eapply Hnn).
    destruct (row !! j) as [c|] eqn:Hj; simpl.
    - by eapply sumQ_bounds_entry.
    - by apply sumQ_nonneg. }
  revert q0. induction is_ as [|i is_ IH]; intros q0.
  - simpl. rewrite sumQ_nil. lra.
  - cbn [foldl map]. rewrite sumQ_cons.
    eapply Qle_trans; [apply IH|].
    set (j := choice (default [] (e !! i))).
    pose proof (Hcell i j) as H1. pose proof (Ha i) as H2. pose proof (Ha j) as H3.
    assert (H4 : (0 <= default 0%Q (map sumQ e !! i) * default 0%Q (map sumQ e !! j))%Q)
      by (by apply Qmult_le_0_compat).
    lra.
Qed.

(** X24: on a matrix with at least one stored entry, whenever
    [modularity_murata] returns, its value is at most 1/2. *)
Theorem modularity_murata_at_most_half (badj : Badj) (communities : list nat) (q : Q) :
  coo badj <> [] ->
  modularity_murata badj communities = Ok q ->
  (q <= 1 # 2)%Q.
Proof.
  intros Hcoo Hm. unfold modularity_murata in Hm.
  apply bind_Ok in Hm as (top & Htop & Hm).
  apply bind_Ok in Hm as (e & He & Hm).
  injection Hm as <-.
  assert (top = max_list communities) as ->.
  { unfold py_max in Htop. destruct communities; [done|]. by injection Htop as <-. }
  apply murata_counts in He as [[Hlen Hrows] Hsum].
  set (total := (2 * sumQ (map sumQ e))%Q).
  assert (Hn : (0 < Qnat (length (coo badj)))%Q).
  { unfold Qnat, Qlt. simpl. destruct (coo badj); [done|]. simpl. lia. }
  assert (Htotal : (0 < total)%Q) by (unfold total; rewrite Hsum; lra).
  set (e' := map (map (fun c => (c / total)%Q)) e).
  assert (Hnn : Forall (Forall (fun c => (0 <= c)%Q)) e').
  { unfold e'. rewrite Forall_map. eapply Forall_impl; [exact Hrows|].
    intros row [_ Hrow]. cbn beta. rewrite Forall_map.
    eapply Forall_impl; [exact Hrow|]. intros c Hc. unfold compose. cbn beta in Hc |- *.
    apply Qle_shift_div_l; [done|]. lra. }
  assert (Hle : length e' = length (map sumQ e')) by (by rewrite length_map).
  rewrite Hle.
  eapply Qle_trans; [apply (murata_sum_bound e' argmax _ 0%Q Hnn)|].
  rewrite lookup_map_seq_default.
  assert (Hrowsum : (sumQ (map sumQ e') == sumQ (map sumQ e) / total)%Q).
  { rewrite <- sumQ_scaled by lra.
    apply sumQ_pointwise. unfold e'. rewrite !map_fmap, <- !list_fmap_compose.
    apply Forall2_fmap, Forall_Forall2_diag, Forall_forall. intros row _.
    unfold compose. apply sumQ_scaled. lra. }
  rewrite Hrowsum. unfold total.
  assert (Hs : ~ (sumQ (map sumQ e) == 0)%Q) by (rewrite Hsum; lra).
  assert (Hhalf : (sumQ (map sumQ e) / (2 * sumQ (map sumQ e)) == 1 # 2)%Q)
    by (field; done).
  rewrite Hhalf. lra.
Qed.

Lemma modularity_murata_at_most_half_witness :
  exists q, modularity_murata k23_badj [0; 1; 0; 0; 1]%nat = Ok q /\ (q <= 1 # 2)%Q.
Proof.
  destruct (modularity_murata k23_badj [0; 1; 0; 0; 1]%nat) as [q|e] eqn:Hm;
    [|vm_compute in Hm; discriminate Hm].
  exists q. split; [reflexivity|].
  apply (modularity_murata_at_most_half k23_badj [0; 1; 0; 0; 1]%nat q).
  - discriminate.
  - exact Hm.
Defined.

(** X25: with at least one label, [modularity_murata] raises IndexError
    when a stored entry of the matrix has a row or a column without a
    label. *)
Theorem modularity_murata_missing_label (badj : Badj) (communities : list nat) s t :
  communities <> [] ->
  (s, t) ∈ coo badj ->
  (length communities <= s)%nat \/ (length communities <= t + shape0 badj)%nat ->
  modularity_murata badj communities = Raise IndexError.
Proof.
  intros Hne Hst Hout. unfold modularity_murata, py_max.
  destruct communities as [|c0 cs]; [done|]. rewrite bind_Ok_l.
  set (communities := c0 :: cs) in *.
  rewrite (for_each_raises _ IndexError (s, t)); [done| |done|].
  - intros e st e' He.
    destruct (py_get communities st.1) as [l|e1] eqn:Hl.
    + rewrite bind_Ok_l in He.
      destruct (py_get communities (st.2 + shape0 badj)) as [m|e2] eqn:Hm.
      * by rewrite bind_Ok_l in He.
      * apply py_get_raises in Hm. simpl in He. congruence.
    + apply py_get_raises in Hl. simpl in He. congruence.
  - intros e. cbn [fst snd].
    destruct (py_get communities s) as [l|e1] eqn:Hl.
    + rewrite bind_Ok_l.
      destruct Hout as [Hout|Hout].
      * rewrite (py_get_ge communities s Hout) in Hl. discriminate.
      * by rewrite (py_get_ge communities _ Hout).
    + apply py_get_raises in Hl. by subst e1.
Qed.

Lemma modularity_murata_missing_label_witness :
  modularity_murata k23_badj [0; 1; 0; 0]%nat = Raise IndexError.
Proof.
  apply (modularity_murata_missing_label k23_badj [0; 1; 0; 0]%nat 0 2).
  - discriminate.
  - simpl. do 2 right. left.
  - right. simpl. lia.
Defined.

(** * The baselines of [moo/contestant.py] *)

(** ** The dissimilarity matrix of ComDetMultiLevel *)

Lemma np_get_Ok d i j v :
  np_get d i j = Ok v -> exists row, d !! i = Some row /\ row !! j = Some v.
Proof.
  unfold np_get. intros Hg. apply bind_Ok in Hg as (row & Hrow & Hv).
  apply py_get_Ok in Hrow, Hv. eauto.
Qed.

Lemma np_get_cell d i j v : np_get d i j = Ok v -> v = cell d i j.
Proof.
  intros Hg. apply np_get_Ok in Hg as (row & Hrow & Hv).
  unfold cell. rewrite Hrow. simpl. by rewrite Hv.
Qed.

Lemma np_set_Ok d i j v d' :
  np_set d i j v = Ok d' ->
  exists row, d !! i = Some row /\ (j < length row)%nat /\ d' = <[i := <[j := v]> row]> d.
Proof.
  unfold np_set, py_set. intros Hs.
  apply bind_Ok in Hs as (row & Hrow & Hs). apply py_get_Ok in Hrow.
  destruct (j <? length row)%nat eqn:E; [|discriminate]. rewrite bind_Ok_l in Hs.
  destruct (i <? length d)%nat; [|discriminate]. injection Hs as <-.
  apply Nat.ltb_lt in E. eauto.
Qed.

Lemma square_insert n d i j v row :
  square n d -> d !! i = Some row -> square n (<[i := <[j := v]> row]> d).
Proof.
  intros [Hlen Hrows] Hrow. split; [by rewrite length_insert|].
  apply Forall_insert; [done|]. rewrite length_insert.
  rewrite Forall_lookup in Hrows. by eapply Hrows.
Qed.

Lemma cell_insert d i j v row r c :
  d !! i = Some row -> (j < length row)%nat ->
  cell (<[i := <[j := v]> row]> d) r c
  = if decide (r = i /\ c = j) then v else cell d r c.
Proof.
  intros Hrow Hj. unfold cell.
  destruct (decide (r = i)) as [->|Hri].
  - rewrite list_lookup_insert_eq by (by eapply lookup_lt_Some). simpl.
    destruct (decide (c = j)) as [->|Hcj].
    + rewrite list_lookup_insert_eq by done. simpl.
      by rewrite decide_True.
    + rewrite list_lookup_insert_ne by done. rewrite Hrow. simpl.
      by rewrite decide_False by (intros [_ ?]; done).
  - rewrite list_lookup_insert_ne by done.
    by rewrite decide_False by (intros [? _]; done).
Qed.

Lemma np_set_cell n d i j v d' :
  square n d -> np_set d i j v = Ok d' ->
  square n d' /\
  forall r c, cell d' r c = if decide (r = i /\ c = j) then v else cell d r c.
Proof.
  intros Hsq Hs. apply np_set_Ok in Hs as (row & Hrow & Hj & ->).
  split; [by apply square_insert|]. intros r c. by apply cell_insert.
Qed.

Lemma cell_zeros n r c : cell (replicate n (replicate n 0%Q)) r c = 0%Q.
Proof.
  unfold cell. destruct (replicate n (replicate n 0%Q) !! r) as [row|] eqn:Hr; [|done].
  apply lookup_replicate in Hr as [-> _]. simpl.
  destruct (replicate n 0%Q !! c) as [x|] eqn:Hc; [|done].
  by apply lookup_replicate in Hc as [-> _].
Qed.

Lemma square_zeros n : square n (replicate n (replicate n 0%Q)).
Proof.
  split; [apply length_replicate|]. apply Forall_replicate, length_replicate.
Qed.

(** The counting loop leaves a symmetric matrix of counts. *)
Lemma dissimilarity_counts n k1 assignment edges (d : list (list Q)) :
  for_each (fun d ei =>
          e ← py_get edges ei;
          index1 ← py_get assignment e.1;
          a2 ← py_get assignment e.2;
          let index2 := (k1 + a2)%nat in
          v ← np_get d index1 index2;
          d ← np_set d index1 index2 (v + 1)%Q;
          v ← np_get d index2 index1;
          np_set d index2 index1 (v + 1)%Q)
        (replicate n (replicate n 0%Q)) (seq 0 (length edges)) = Ok d ->
  square n d /\
  (forall r c, cell d r c = cell d c r) /\
  (forall r c, (0 <= cell d r c)%Q).
Proof.
  intros Hrun.
  refine (for_each_inv
            (fun d : list (list Q) =>
               square n d /\ (forall r c, cell d r c = cell d c r) /\
               (forall r c, (0 <= cell d r c)%Q))
            _ _ _ _ d _ Hrun).
  - clear. intros d ei d' _ (Hsq & Hsym & Hnn) Hstep.
    apply bind_Ok in Hstep as (e & _ & Hstep).
    apply bind_Ok in Hstep as (i1 & _ & Hstep).
    apply bind_Ok in Hstep as (a2 & _ & Hstep).
    cbv zeta in Hstep. generalize dependent (k1 + a2)%nat. intros i2 Hstep.
    apply bind_Ok in Hstep as (v & Hv & Hstep).
    apply bind_Ok in Hstep as (d1 & Hd1 & Hstep).
    apply bind_Ok in Hstep as (v' & Hv' & Hd2).
    apply np_get_cell in Hv, Hv'.
    apply (np_set_cell n) in Hd1 as [Hsq1 Hc1]; [|done].
    apply (np_set_cell n) in Hd2 as [Hsq2 Hc2]; [|done].
    rewrite Hc1 in Hv'.
    split; [done|]. split.
    + intros r c. rewrite !Hc2, !Hc1.
      repeat case_decide; destruct_and?; subst; try reflexivity;
        try (exfalso; tauto); try apply Hsym; by rewrite Hsym.
    + intros r c. rewrite Hc2, Hc1.
      pose proof (Hnn r c) as H1. pose proof (Hnn i1 i2) as H2. pose proof (Hnn i2 i1) as H3.
      repeat case_decide; destruct_and?; subst; lra.
  - split; [apply square_zeros|]. split; intros r c; rewrite ?cell_zeros; [done|lra].
Qed.

(** The normalisation loop: every entry [c] becomes [1 / (1 + c)], and the
    diagonal 0. *)
Lemma dissimilarity_normalised n (d0 d : list (list Q)) :
  square n d0 ->
  for_each (fun d d1 =>
      d ← for_each (fun d d2 =>
              v ← np_get d d1 d2;
              np_set d d1 d2 (1 / (1 + v))%Q)
            d (seq 0 n);
      np_set d d1 d1 0%Q)
    d0 (seq 0 n) = Ok d ->
  square n d /\
  forall r c, (r < n)%nat -> (c < n)%nat ->
    cell d r c = if decide (r = c) then 0%Q else (1 / (1 + cell d0 r c))%Q.
Proof.
  intros Hsq0 Hrun.
  set (O := fun (pre : list nat) (d : list (list Q)) =>
              square n d /\
              forall r c, (c < n)%nat ->
                cell d r c
                = if decide (r < length pre)%nat
                  then (if decide (r = c) then 0%Q else (1 / (1 + cell d0 r c))%Q)
                  else cell d0 r c).
  assert (HO : O (seq 0 n) d).
  { refine (for_each_prefix_inv O _ _ _ d0 d _ Hrun).
    - intros pre d1 post da db Hsplit [Hsqa Hca] Hstep.
      assert (Hd1 : d1 = length pre /\ (d1 < n)%nat).
      { assert (Hk : seq 0 n !! length pre = Some d1)
          by (rewrite Hsplit; apply list_lookup_middle; done).
        apply lookup_seq in Hk. simpl in Hk. lia. }
      destruct Hd1 as [-> Hd1].
      apply bind_Ok in Hstep as (dc & Hinner & Hdiag).
      set (N := fun (pre2 : list nat) (d' : list (list Q)) =>
                  square n d' /\
                  forall r c, (c < n)%nat ->
                    cell d' r c
                    = if decide (r = length pre /\ c < length pre2)%nat
                      then (1 / (1 + cell d0 r c))%Q
                      else cell da r c).
      assert (HN : N (seq 0 n) dc).
      { refine (for_each_prefix_inv N _ _ _ da dc _ Hinner).
        - intros pre2 d2 post2 dx dy Hsplit2 [Hsqx Hcx] Hstep2.
          assert (Hd2 : d2 = length pre2 /\ (d2 < n)%nat).
          { assert (Hk : seq 0 n !! length pre2 = Some d2)
              by (rewrite Hsplit2; apply list_lookup_middle; done).
            apply lookup_seq in Hk. simpl in Hk. lia. }
          destruct Hd2 as [-> Hd2].
          apply bind_Ok in Hstep2 as (v & Hv & Hset).
          apply np_get_cell in Hv.
          apply (np_set_cell n) in Hset as [Hsqy Hcy]; [|done].
          split; [done|]. intros r c Hc. rewrite Hcy, (Hcx r c Hc), length_app. cbn [length].
          rewrite Hv, (Hcx _ _ Hd2), (Hca _ _ Hd2).
          repeat case_decide; destruct_and?; subst; try reflexivity; try lia;
            exfalso; intuition lia.
        - split; [done|]. intros r c Hc. cbn [length]. rewrite decide_False by lia. done. }
      destruct HN as [Hsqc Hcc]. rewrite length_seq in Hcc.
      apply (np_set_cell n) in Hdiag as [Hsqb Hcb]; [|done].
      split; [done|]. intros r c Hc.
      rewrite Hcb, (Hcc r c Hc), (Hca r c Hc), length_app. cbn [length].
      repeat case_decide; destruct_and?; subst; try reflexivity; try lia;
        exfalso; intuition lia.
    - split; [done|]. intros r c Hc. cbn [length]. rewrite decide_False by lia. done. }
  destruct HO as [Hsq Hc]. rewrite length_seq in Hc.
  split; [done|]. intros r c Hr Hcn. rewrite (Hc r c Hcn). by rewrite decide_True.
Qed.

(** X26: whenever the dissimilarity matrix of ComDetMultiLevel is built,
    it is square, with one row for each community of the two projections,
    symmetric, 0 on the diagonal and in (0, 1] elsewhere. *)
Theorem dissimilarity_is_a_distance_matrix membership1 membership2 edges d :
  dissimilarity membership1 membership2 edges = Ok d ->
  square (S (max_list membership1) + S (max_list membership2)) d /\
  forall i j,
    (i < S (max_list membership1) + S (max_list membership2))%nat ->
    (j < S (max_list membership1) + S (max_list membership2))%nat ->
    cell d i j = cell d j i /\
    (i = j -> cell d i j = 0%Q) /\
    (i <> j -> (0 < cell d i j)%Q /\ (cell d i j <= 1)%Q).
Proof.
  unfold dissimilarity. intros Hd.
  apply bind_Ok in Hd as (top1 & Htop1 & Hd).
  apply bind_Ok in Hd as (top2 & Htop2 & Hd).
  apply bind_Ok in Hd as (d0 & Hd0 & Hd).
  assert (top1 = max_list membership1) as ->.
  { unfold py_max in Htop1. destruct membership1; [done|]. by injection Htop1 as <-. }
  assert (top2 = max_list membership2) as ->.
  { unfold py_max in Htop2. destruct membership2; [done|]. by injection Htop2 as <-. }
  set (n := (S (max_list membership1) + S (max_list membership2))%nat) in *.
  apply dissimilarity_counts in Hd0 as (Hsq0 & Hsym & Hnn).
  apply (dissimilarity_normalised n d0 d Hsq0) in Hd as [Hsq Hcell].
  split; [done|]. intros i j Hi Hj.
  rewrite (Hcell i j Hi Hj), (Hcell j i Hj Hi).
  split; [|split].
  - repeat case_decide; subst; try done. by rewrite Hsym.
  - intros ->. by rewrite decide_True.
  - intros Hne. rewrite decide_False by done.
    pose proof (Hnn i j) as H0.
    split.
    + apply Qlt_shift_div_l; lra.
    + apply Qle_shift_div_r; lra.
Qed.

Lemma dissimilarity_is_a_distance_matrix_witness :
  exists d,
    dissimilarity [0; 0]%nat [0; 1; 1]%nat
      [(0, 2); (0, 3); (0, 4); (1, 2); (1, 3); (1, 4)]%nat = Ok d /\
    square (S (max_list [0; 0]%nat) + S (max_list [0; 1; 1]%nat)) d /\
    forall i j,
      (i < S (max_list [0; 0]%nat) + S (max_list [0; 1; 1]%nat))%nat ->
      (j < S (max_list [0; 0]%nat) + S (max_list [0; 1; 1]%nat))%nat ->
      cell d i j = cell d j i /\
      (i = j -> cell d i j = 0%Q) /\
      (i <> j -> (0 < cell d i j)%Q /\ (cell d i j <= 1)%Q).
Proof.
  destruct (dissimilarity [0; 0]%nat [0; 1; 1]%nat
              [(0, 2); (0, 3); (0, 4); (1, 2); (1, 3); (1, 4)]%nat) as [d|e] eqn:Hd;
    [|vm_compute in Hd; discriminate Hd].
  exists d. split; [reflexivity|].
  apply (dissimilarity_is_a_distance_matrix [0; 0]%nat [0; 1; 1]%nat
           [(0, 2); (0, 3); (0, 4); (1, 2); (1, 3); (1, 4)]%nat d Hd).
Defined.

(** The matrix of this example: community 0 of the lower side has two edges
    to community 0 and four to community 1 of the upper side. *)
Example dissimilarity_k23 :
  dissimilarity [0; 0]%nat [0; 1; 1]%nat
    [(0, 2); (0, 3); (0, 4); (1, 2); (1, 3); (1, 4)]%nat
  = Ok [[0; 1 / (1 + (0 + 1 + 1)); 1 / (1 + (0 + 1 + 1 + 1 + 1))];
        [1 / (1 + (0 + 1 + 1)); 0; 1 / (1 + 0)];
        [1 / (1 + (0 + 1 + 1 + 1 + 1)); 1 / (1 + 0); 0]]%Q.
Proof. reflexivity. Qed.

(** * Further properties of result collation and seeding *)

(** ** The communities handed to the partition metrics *)

Lemma labelled_S m b p :
  labelled m b (S p) = labelled m b p ++ (if decide (m !! p = Some b) then [p] else []).
Proof.
  unfold labelled. by rewrite seq_S, filter_app.
Qed.

Section Communities.
Context {ig : IGraph} {pm : Pymoo} {mt : Metrics}.

(** X27: when every label is below [k], the list of communities built in
    [collate_results] holds, for each label in use and in increasing
    label order, the vertices that carry it in increasing order: the
    communities are not empty and every vertex is in exactly the
    community of its label. *)
Theorem communities_of_groups_by_label k (m : list nat) :
  Forall (fun lab => (lab < k)%nat) m ->
  communities_of k m
  = Ok (filter (fun c => c <> []) (map (fun b => labelled m b (length m)) (seq 0 k))).
Proof.
  intros Hm. unfold communities_of.
  set (P := fun (pre : list (nat * nat)) (cs : list (list nat)) =>
              length cs = k /\
              forall b, (b < k)%nat -> cs !! b = Some (labelled m b (length pre))).
  destruct (for_each_prefix P
    (fun cs il => c ← py_get cs il.2; Ok (<[il.2 := c ++ [il.1]]> cs))
    (imap pair m)) with (s := replicate k ([] : list nat)) as (cs & Hrun & [Hlen Hcs]).
  - intros pre [i lab] post cs Hsplit [Hlen Hcs]. cbn [fst snd].
    assert (Hil : i = length pre /\ m !! length pre = Some lab).
    { assert (Hk : imap pair m !! length pre = Some (i, lab))
        by (rewrite Hsplit; apply list_lookup_middle; done).
      rewrite list_lookup_imap in Hk.
      destruct (m !! length pre) as [x|]; [|done]. simpl in Hk. by injection Hk as <- <-. }
    destruct Hil as [-> Hlab].
    assert (Hk : (lab < k)%nat) by (rewrite Forall_lookup in Hm; by eapply Hm).
    pose proof (Hcs lab Hk) as Hc. apply py_get_Ok in Hc as Hget.
    rewrite Hget, bind_Ok_l. eexists. split; [reflexivity|].
    split; [by rewrite length_insert|].
    intros b Hb. rewrite length_app. cbn [length]. rewrite Nat.add_1_r, labelled_S.
    destruct (decide (b = lab)) as [->|Hne].
    + rewrite list_lookup_insert_eq by lia. by rewrite decide_True.
    + rewrite list_lookup_insert_ne by done.
      rewrite decide_False by congruence. rewrite app_nil_r. by apply Hcs.
  - split; [apply length_replicate|]. intros b Hb.
    rewrite lookup_replicate_2 by done. done.
  - rewrite Hrun, bind_Ok_l. do 2 f_equal.
    rewrite length_imap in Hcs.
    apply list_eq. intros b. rewrite map_fmap, list_lookup_fmap.
    destruct (decide (b < k)%nat) as [Hb|Hb].
    + rewrite lookup_seq_lt by done. simpl. by apply Hcs.
    + rewrite lookup_seq_ge by lia. simpl. apply lookup_ge_None. lia.
Qed.

End Communities.

Lemma communities_of_groups_by_label_witness :
  communities_of 4 [0; 2; 2; 0; 2]%nat
  = Ok (filter (fun c => c <> [])
          (map (fun b => labelled [0; 2; 2; 0; 2]%nat b (length [0; 2; 2; 0; 2]%nat))
               (seq 0 4))).
Proof.
  apply (communities_of_groups_by_label 4 [0; 2; 2; 0; 2]%nat).
  repeat constructor.
Defined.

(** The communities of this example: the labels 1 and 3 are not in use. *)
Example communities_of_example :
  communities_of 4 [0; 2; 2; 0; 2]%nat = Ok [[0; 3]; [1; 2; 4]]%nat.
Proof. reflexivity. Qed.

(** ** What the diversity phase removes *)

Section Cuts.
Context {ig : IGraph}.

(** After the step for gene [j] of row [ctr], that gene selects no
    crossing edge; the other genes of the population are as before. *)
Lemma cut_gene_uncut problem test ctr pop j pop' :
  cut_gene problem test ctr pop j = Ok pop' ->
  length pop' = length pop /\
  (forall r, r <> ctr -> pop' !! r = pop !! r) /\
  exists row row',
    pop !! ctr = Some row /\ pop' !! ctr = Some row' /\
    length row' = length row /\
    (forall i, i <> j -> row' !! i = row !! i) /\
    uncut (adj_list_ problem) (xu_ problem) test row' j.
Proof.
  unfold cut_gene. intros Hc.
  apply bind_Ok in Hc as (row & Hrow & Hc).
  apply bind_Ok in Hc as (g & Hg & Hc).
  apply bind_Ok in Hc as (crossing & Hcross & Hc).
  apply py_get_Ok in Hrow, Hg.
  assert (Hkeep : crossing = false ->
            uncut (adj_list_ problem) (xu_ problem) test row j).
  { intros ->. intros g' d Hg' Hne _ _.
    assert (g' = g) by congruence. subst g'.
    destruct (g =? 0) eqn:E0; [apply Z.eqb_eq in E0; done|].
    apply bind_Ok in Hcross as (a & Ha & Hcross).
    apply bind_Ok in Hcross as (nb & Hnb & Hcross).
    apply bind_Ok in Hcross as (t_nb & Htnb & Hcross).
    apply bind_Ok in Hcross as (t_j & Htj & Hcross).
    injection Hcross as Heq. apply negb_false_iff, Nat.eqb_eq in Heq. subst t_nb.
    apply py_get_Ok in Ha, Htnb, Htj. eauto 10. }
  destruct crossing.
  - apply bind_Ok in Hc as (d & Hd & Hc). apply py_get_Ok in Hd.
    destruct (1 <? d) eqn:E.
    + apply set_gene_inv in Hc as (row0 & Hrow0 & Hl & ->).
      assert (row0 = row) by congruence. subst row0.
      split; [by rewrite length_insert|].
      split; [intros r Hr; by rewrite list_lookup_insert_ne|].
      exists row, (<[j := 0]> row).
      split; [done|].
      split; [rewrite list_lookup_insert_eq; [done|by eapply lookup_lt_Some]|].
      split; [by rewrite length_insert|].
      split; [intros i Hi; by rewrite list_lookup_insert_ne|].
      intros g' d' Hg'. rewrite list_lookup_insert_eq in Hg' by done.
      injection Hg' as <-. done.
    + injection Hc as <-. apply Z.ltb_ge in E.
      split; [done|]. split; [done|].
      exists row, row. repeat (split; [done|]).
      intros g' d' _ _ Hd' Hlt. assert (d' = d) by congruence. lia.
  - injection Hc as <-. split; [done|]. split; [done|].
    exists row, row. repeat (split; [done|]). by apply Hkeep.
Qed.

(** X28: whenever the diversity phase returns, in each row [ctr] it worked
    on (from 1 to [min(popsize, n_var) - 1]) no gene of a vertex with more
    than one neighbour selects an edge that crosses the clusters of the
    cut into [ctr + 1]. *)
Theorem diversify_leaves_no_crossing_edge problem popsize pop pop' ctr row j :
  diversify problem popsize pop = Ok pop' ->
  (1 <= ctr < Nat.min popsize (n_var_ problem))%nat ->
  pop' !! ctr = Some row ->
  (j < n_var_ problem)%nat ->
  uncut (adj_list_ problem) (xu_ problem)
        (fastgreedy_cut (graph_ problem) (Z.of_nat (S ctr))) row j.
Proof.
  unfold diversify. intros Hd Hctr Hrow Hj.
  apply bind_Ok in Hd as (res & Hrun & Hd). injection Hd as <-.
  set (n := n_var_ problem) in *.
  set (good := fun (c : nat) (r : list Z) =>
                 forall i, (i < n)%nat ->
                   uncut (adj_list_ problem) (xu_ problem)
                         (fastgreedy_cut (graph_ problem) (Z.of_nat (S c))) r i).
  set (O := fun (pre : list nat) (st : list (list Z) * nat) =>
              st.2 = S (length pre) /\
              forall c r, (1 <= c <= length pre)%nat -> st.1 !! c = Some r -> good c r).
  assert (HO : O (seq 2 (Nat.min popsize n - 1)) res).
  { refine (for_each_prefix_inv O _ _ _ (pop, 1%nat) res _ Hrun).
    - intros pre k post [pop1 c1] [pop2 c2] Hsplit [Hc1 Hdone] Hstep.
      cbn [fst snd] in *. subst c1.
      assert (Hk : k = S (S (length pre))).
      { assert (Hl : seq 2 (Nat.min popsize n - 1) !! length pre = Some k)
          by (rewrite Hsplit; apply list_lookup_middle; done).
        apply lookup_seq in Hl. lia. }
      subst k.
      apply bind_Ok in Hstep as (pop3 & Hinner & Hstep). injection Hstep as <- <-.
      set (test := fastgreedy_cut (graph_ problem) (Z.of_nat (S (S (length pre))))) in *.
      set (N := fun (pre2 : list nat) (p : list (list Z)) =>
                  (forall r, r <> S (length pre) -> p !! r = pop1 !! r) /\
                  forall r, p !! S (length pre) = Some r ->
                    forall i, (i < length pre2)%nat ->
                      uncut (adj_list_ problem) (xu_ problem) test r i).
      assert (HN : N (seq 0 n) pop3).
      { refine (for_each_prefix_inv N _ _ _ pop1 pop3 _ Hinner).
        - intros pre2 j2 post2 pa pb Hsplit2 [Hfr Hcols] Hcut.
          assert (Hj2 : j2 = length pre2).
          { assert (Hl : seq 0 n !! length pre2 = Some j2)
              by (rewrite Hsplit2; apply list_lookup_middle; done).
            apply lookup_seq in Hl. simpl in Hl. lia. }
          subst j2.
          apply cut_gene_uncut in Hcut
            as (_ & Hfr' & ra & rb & Hra & Hrb & _ & Hsame & Hun).
          split.
          + intros r Hr. rewrite Hfr' by done. by apply Hfr.
          + intros r Hr i Hi. assert (r = rb) by congruence. subst r.
            rewrite length_app in Hi. cbn [length] in Hi.
            destruct (decide (i = length pre2)) as [->|Hne]; [done|].
            intros g d Hg. rewrite Hsame in Hg by done.
            apply (Hcols ra Hra i); [lia|done].
        - split; [done|]. intros r _ i Hi. simpl in Hi. lia. }
      destruct HN as [Hfr Hcols]. rewrite length_seq in Hcols.
      split; [rewrite length_app; simpl; lia|].
      intros c r Hc Hr. rewrite length_app in Hc. cbn [length] in Hc.
      destruct (decide (c = S (length pre))) as [->|Hne].
      + intros i Hi. by apply Hcols.
      + rewrite Hfr in Hr by done. apply (Hdone c r); [lia|done].
    - split; [done|]. intros c r Hc. simpl in Hc. lia. }
  destruct HO as [_ Hdone]. rewrite length_seq in Hdone.
  apply (Hdone ctr row); [lia|done|done].
Qed.

End Cuts.

Lemma diversify_leaves_no_crossing_edge_witness :
  uncut (adj_list_ (k23_problem "3d")) (xu_ (k23_problem "3d"))
        (fastgreedy_cut (IGraph := k23_igraph) (graph_ (k23_problem "3d")) (Z.of_nat 2))
        [0; 1; 0; 0; 0] 1.
Proof.
  apply (diversify_leaves_no_crossing_edge (ig := k23_igraph) (k23_problem "3d") 6
           (replicate 6 [0; 1; 1; 1; 1])
           [[0; 1; 1; 1; 1]; [0; 1; 0; 0; 0]; [0; 0; 0; 0; 0];
            [0; 0; 0; 0; 0]; [0; 0; 0; 0; 0]; [0; 1; 1; 1; 1]] 1 [0; 1; 0; 0; 0] 1).
  - vm_compute. reflexivity.
  - vm_compute. lia.
  - reflexivity.
  - vm_compute. lia.
Defined.

(** ** The initial population can be evaluated *)

Section SeedEvaluation.
Context {ig : IGraph}.

Lemma evaluate_in_range_returns m graph problem x :
  MultiCriteriaProblem_init m graph = Ok problem ->
  two_sided graph ->
  in_range (adj_list_ problem) x ->
  exists F, _evaluate problem x = Ok (Some F).
Proof.
  intros Hi Hg Hx.
  destruct (decode_in_range _ _ _ _ Hi Hg Hx) as (edges & _ & Hd & _).
  destruct (init_fields _ _ _ Hi)
    as (Hmode & _ & _ & _ & _ & _ & _ & _ & _ & _ & Hp0 & Hp1 & _).
  set (t := {| b_types := map truthy (vs_VX graph); b_edges := edges |}) in *.
  assert (Hlen : length (clusters t) = vcount graph).
  { rewrite length_clusters. unfold t. simpl. by rewrite length_map. }
  destruct (labels_of_total (clusters t) (proj0_ problem)) as (l0 & Hl0 & _).
  { rewrite Hp0, Hlen. apply indices_of_below. }
  destruct (labels_of_total (clusters t) (proj1_ problem)) as (l1 & Hl1 & _).
  { rewrite Hp1, Hlen. apply indices_of_below. }
  assert (Hvalid : String.eqb m "3d" || String.eqb m "2d" || String.eqb m "4d" = true).
  { unfold MultiCriteriaProblem_init in Hi.
    apply bind_Ok in Hi as (u1 & _ & Hi).
    apply bind_Ok in Hi as (u2 & _ & Hi).
    apply bind_Ok in Hi as (u3 & _ & Hi).
    apply bind_Ok in Hi as (u4 & Hm & _).
    by apply py_assert_Ok in Hm. }
  unfold _evaluate. rewrite Hd, bind_Ok_l, Hmode. cbn [fst snd].
  destruct (String.eqb m "3d"); [rewrite Hl0, bind_Ok_l, Hl1, bind_Ok_l; eauto|].
  destruct (String.eqb m "4d"); [rewrite Hl0, bind_Ok_l, Hl1, bind_Ok_l; eauto|].
  destruct (String.eqb m "2d"); [eauto|done].
Qed.

(** X29: under the conditions of the seeding, on a graph whose edges join
    the two sides, the initial population has [popsize] genomes and the
    evaluation of each of them returns objectives. *)
Theorem initial_population_evaluates m graph problem depth popsize :
  MultiCriteriaProblem_init m graph = Ok problem ->
  two_sided graph ->
  spans (get_adjlist graph) (spanning_tree graph (edge_betweenness graph)) ->
  (forall k, length (fastgreedy_cut graph k) = vcount graph) ->
  (vcount graph <= depth)%nat ->
  exists pop,
    initialize_pop depth problem popsize = Ok pop /\
    length pop = popsize /\
    forall x, x ∈ pop -> exists F, _evaluate problem x = Ok (Some F).
Proof.
  intros Hi Hg Hspan Hcut Hdepth.
  destruct (mst_genome_spec _ _ _ _ Hi Hspan Hdepth) as (x & Hx & _ & Hrange & _).
  destruct (diversify_total m graph problem popsize (replicate popsize x) Hi Hcut)
    as (pop & Hd & Hlen).
  - apply length_replicate.
  - by apply Forall_replicate.
  - exists pop. unfold initialize_pop. rewrite Hx, bind_Ok_l.
    split; [done|]. split; [done|].
    intros y Hy.
    apply (evaluate_in_range_returns m graph problem y Hi Hg).
    assert (Hall : Forall (in_range (adj_list_ problem)) pop).
    { eapply zeroed_in_range; [exact Hrange|]. by eapply diversify_zeroed. }
    rewrite Forall_forall in Hall. by apply Hall.
Qed.

End SeedEvaluation.

Lemma initial_population_evaluates_witness :
  exists pop,
    initialize_pop (ig := k23_igraph) 5 (k23_problem "3d") 6 = Ok pop /\
    length pop = 6%nat /\
    forall x, x ∈ pop -> exists F, _evaluate (k23_problem "3d") x = Ok (Some F).
Proof.
  apply (initial_population_evaluates (ig := k23_igraph) "3d" k23 (k23_problem "3d") 5 6).
  - vm_compute. reflexivity.
  - exact k23_two_sided.
  - exact k23_spans.
  - exact k23_cuts.
  - unfold vcount. simpl. lia.
Defined.

(** * The walk of the centrality-biased mutation *)

Lemma example_rs1_unit_draws : unit_draws example_rs1.
Proof. exact example_rs_unit_draws. Qed.

Lemma example_rs_half_unit_draws : unit_draws example_rs_half.
Proof.
  intros k. destruct k as [|k]; split; simpl; unfold Qle, Qlt; simpl; lia.
Qed.

Lemma first_exceeding_Some_range rnd cp h ps k :
  first_exceeding rnd cp h ps = Some k -> (h <= k < h + length ps)%nat.
Proof.
  revert cp h. induction ps as [|p ps IH]; intros cp h Hf; [done|].
  simpl in Hf. destruct (Qltb rnd (cp + p)).
  - injection Hf as <-. simpl. lia.
  - apply IH in Hf. simpl. lia.
Qed.

Lemma Qltb_true rnd cp : Qltb rnd cp = true <-> (rnd < cp)%Q.
Proof.
  unfold Qltb. rewrite negb_true_iff. split.
  - intros Hb. apply Qnot_le_lt. intros Hle. apply Qle_bool_iff in Hle. congruence.
  - intros Hlt. destruct (Qle_bool cp rnd) eqn:E; [|done].
    apply Qle_bool_iff in E. lra.
Qed.

Lemma Qltb_false rnd cp : Qltb rnd cp = false <-> (cp <= rnd)%Q.
Proof.
  unfold Qltb. rewrite negb_false_iff. apply Qle_bool_iff.
Qed.

(** The walk finds no position exactly when the draw is not below the sum
    of the weights. *)
Lemma first_exceeding_None_iff rnd cp h ps :
  Forall (fun p => (0 <= p)%Q) ps ->
  (cp <= rnd)%Q ->
  first_exceeding rnd cp h ps = None <-> (cp + sumQ ps <= rnd)%Q.
Proof.
  intros Hps. revert cp h. induction Hps as [|p ps Hp Hps IH]; intros cp h Hcp.
  - simpl. rewrite sumQ_nil. split; [intros _; lra|done].
  - cbn [first_exceeding]. rewrite sumQ_cons.
    pose proof (sumQ_nonneg ps Hps) as Hs.
    destruct (Qltb rnd (cp + p)) eqn:E.
    + apply Qltb_true in E. split; [done|]. intros Hle. exfalso. lra.
    + apply Qltb_false in E. rewrite (IH (cp + p)%Q (S h) E).
      split; intros Hle; lra.
Qed.

Lemma Qtrunc_nonneg q :
  (0 <= q)%Q -> 0 <= Qtrunc q /\ (inject_Z (Qtrunc q) <= q)%Q.
Proof.
  intros Hq. destruct q as [n d]. unfold Qtrunc. cbn [Qnum Qden].
  assert (Hn : 0 <= n) by (unfold Qle in Hq; simpl in Hq; lia).
  rewrite Z.quot_div_nonneg by lia.
  split; [apply Z.div_pos; lia|].
  change (n / Z.pos d) with (Qfloor (n # d)). apply Qfloor_le.
Qed.

Lemma select_source_in_weights (P : Q -> Prop) sel (edges : EdgeSeq) :
  Forall (fun eb => P eb.2) edges ->
  Forall (fun eb => P eb.2) (select_source_in sel edges).
Proof.
  intros He. unfold select_source_in. apply Forall_forall. intros eb Hin.
  apply list_elem_of_filter in Hin as [_ Hin]. rewrite Forall_forall in He. by apply He.
Qed.

Lemma attr_bs_weights (P : Q -> Prop) (edges : EdgeSeq) :
  Forall (fun eb => P eb.2) edges -> Forall P (attr_bs edges).
Proof. intros He. unfold attr_bs. by rewrite Forall_map. Qed.

Section WalkMass.
Context {ig : IGraph}.

Lemma graph_es_weights (P : Q -> Prop) problem :
  Forall P (full_weights problem) -> Forall (fun eb => P eb.2) (graph_es problem).
Proof.
  intros Hw. unfold graph_es. apply Forall_forall. intros [e w] Hin.
  apply elem_of_zip_r in Hin. rewrite Forall_forall in Hw. by apply Hw.
Qed.

Lemma walk_weights_nonneg (edges : EdgeSeq) total adj_l :
  Forall (fun eb => (0 <= eb.2)%Q) edges -> (0 < total)%Q ->
  Forall (fun p => (0 <= p)%Q) (walk_weights edges total adj_l).
Proof.
  intros He Ht. unfold walk_weights. rewrite Forall_map. apply Forall_forall.
  intros nb _. cbn beta.
  assert (Hs : (0 <= sumQ (attr_bs (select_source_in [nb] edges)))%Q).
  { apply sumQ_nonneg, attr_bs_weights. by apply select_source_in_weights. }
  apply Qtrunc_nonneg in Hs as [Hz _].
  apply Qle_shift_div_l; [done|]. rewrite Qmult_0_l.
  change 0%Q with (inject_Z 0). by rewrite <- Zle_Qle.
Qed.

Lemma incident_total_nonneg problem l :
  Forall (fun w => (0 <= w)%Q) (full_weights problem) ->
  (0 <= incident_total problem l)%Q.
Proof.
  intros Hw. unfold incident_total.
  apply sumQ_nonneg, attr_bs_weights, select_source_in_weights.
  by apply graph_es_weights.
Qed.

(** X11: at a vertex with a neighbour, with edge betweenness that is not
    negative and does not add up to 0 at the vertex and with draws in
    [[0, 1)], the walk falls back exactly when the second draw is not
    below the sum of its weights: the new gene is then the value drawn
    first; otherwise it is the position, counted from 1, of a neighbour. *)
Theorem hoc_walk_falls_back_at_mass problem l rs lo hi adj_l :
  xl problem !! l = Some lo ->
  xu problem !! l = Some hi ->
  adj_list_ problem !! l = Some adj_l ->
  lo < hi ->
  Forall (fun w => (0 <= w)%Q) (full_weights problem) ->
  Qeq_bool (incident_total problem l) 0 = false ->
  unit_draws rs ->
  ((walk_mass problem l adj_l <= tape rs (S (cursor rs)))%Q ->
   hoc_new_gene problem l rs
   = Ok (lo + 1 + Qfloor (tape rs (cursor rs) * inject_Z (hi - lo)),
         {| tape := tape rs; cursor := S (S (cursor rs)) |})) /\
  ((tape rs (S (cursor rs)) < walk_mass problem l adj_l)%Q ->
   exists h, (h < length adj_l)%nat /\
     hoc_new_gene problem l rs
     = Ok (Z.of_nat h + 1, {| tape := tape rs; cursor := S (S (cursor rs)) |})).
Proof.
  intros Hlo Hhi Hadj Hlh Hw Htot Hdraws.
  destruct (hoc_new_gene_walk problem l rs lo hi adj_l Hlo Hhi Hadj Hlh
              (proj1 (Hdraws _)) (proj2 (Hdraws _)) Htot) as [_ Hg].
  fold (incident_total problem l) in Hg.
  set (ws := walk_weights (select_source_in [l] (graph_es problem))
               (incident_total problem l) adj_l) in *.
  assert (Hpos : (0 < incident_total problem l)%Q).
  { pose proof (incident_total_nonneg problem l Hw) as H0.
    destruct (Qeq_dec (incident_total problem l) 0) as [Heq|Hne]; [|lra].
    apply Qeq_bool_iff in Heq. congruence. }
  assert (Hws : Forall (fun p => (0 <= p)%Q) ws).
  { apply walk_weights_nonneg; [|done].
    apply select_source_in_weights. by apply graph_es_weights. }
  pose proof (first_exceeding_None_iff (tape rs (S (cursor rs))) 0 0 ws Hws
                (proj1 (Hdraws _))) as Hnone.
  rewrite Qplus_0_l in Hnone. fold (walk_mass problem l adj_l) in Hnone.
  split.
  - intros Hle. apply Hnone in Hle. by rewrite Hg, Hle.
  - intros Hlt.
    destruct (first_exceeding (tape rs (S (cursor rs))) 0 0 ws) as [h|] eqn:Hf.
    + apply first_exceeding_Some_range in Hf.
      exists h. split; [|done].
      unfold ws, walk_weights in Hf. rewrite length_map in Hf. lia.
    + exfalso. assert (Hle : (walk_mass problem l adj_l <= tape rs (S (cursor rs)))%Q)
        by (by apply Hnone). lra.
Qed.

End WalkMass.

Lemma hoc_walk_falls_back_at_mass_witness :
  ((walk_mass (k23_problem "3d") 0 [2; 3; 4]%nat <= tape example_rs1 (S (cursor example_rs1)))%Q ->
   hoc_new_gene (k23_problem "3d") 0 example_rs1
   = Ok (0 + 1 + Qfloor (tape example_rs1 (cursor example_rs1) * inject_Z (3 - 0)),
         {| tape := tape example_rs1; cursor := S (S (cursor example_rs1)) |})) /\
  ((tape example_rs1 (S (cursor example_rs1)) < walk_mass (k23_problem "3d") 0 [2; 3; 4]%nat)%Q ->
   exists h, (h < length [2; 3; 4]%nat)%nat /\
     hoc_new_gene (k23_problem "3d") 0 example_rs1
     = Ok (Z.of_nat h + 1,
           {| tape := tape example_rs1; cursor := S (S (cursor example_rs1)) |})).
Proof.
  apply (hoc_walk_falls_back_at_mass (ig := k23_igraph) (k23_problem "3d") 0 example_rs1
           0 3 [2; 3; 4]%nat).
  - reflexivity.
  - reflexivity.
  - reflexivity.
  - lia.
  - simpl. repeat constructor; unfold Qle; simpl; lia.
  - vm_compute. reflexivity.
  - exact example_rs1_unit_draws.
Defined.

(** At vertex 0 of [k23] the weights add up to 6/7: the draw 9/10 is not
    below it. *)
Example k23_walk_mass :
  (walk_mass (k23_problem "3d") 0 [2; 3; 4]%nat == 6 # 7)%Q /\
  (walk_mass (k23_problem "3d") 0 [2; 3; 4]%nat <= tape example_rs1 (S (cursor example_rs1)))%Q.
Proof. split; vm_compute; [reflexivity|discriminate]. Qed.

(** ** The weights of the walk add up to at most 1 *)

Lemma sumQ_map_plus {A} (f g : A -> Q) l :
  (sumQ (map (fun x => (f x + g x)%Q) l) == sumQ (map f l) + sumQ (map g l))%Q.
Proof.
  induction l as [|x l IH].
  - cbn [map]. rewrite !sumQ_nil. lra.
  - cbn [map]. rewrite !sumQ_cons, IH. lra.
Qed.

Lemma sumQ_map_le {A} (f g : A -> Q) l :
  (forall x, x ∈ l -> (f x <= g x)%Q) -> (sumQ (map f l) <= sumQ (map g l))%Q.
Proof.
  induction l as [|x l IH]; intros Hfg.
  - cbn [map]. rewrite !sumQ_nil. lra.
  - cbn [map]. rewrite !sumQ_cons.
    assert (H1 : (f x <= g x)%Q) by (apply Hfg; left).
    assert (H2 : (sumQ (map f l) <= sumQ (map g l))%Q)
      by (apply IH; intros y Hy; apply Hfg; by right).
    lra.
Qed.

Lemma sumQ_map_zero {A} (f : A -> Q) l :
  (forall x, x ∈ l -> (f x == 0)%Q) -> (sumQ (map f l) == 0)%Q.
Proof.
  induction l as [|x l IH]; intros Hf.
  - cbn [map]. by rewrite sumQ_nil.
  - cbn [map]. rewrite sumQ_cons, Hf by left. rewrite IH; [lra|].
    intros y Hy. apply Hf. by right.
Qed.

(** An amount [w] counted at the one place of a list without repeats that
    asks for it is counted at most once. *)
Lemma sumQ_at_most_once {A} (P : A -> Prop) `{!forall x, Decision (P x)} (w : Q) l :
  (0 <= w)%Q ->
  (forall x y, x ∈ l -> y ∈ l -> P x -> P y -> x = y) ->
  NoDup l ->
  (sumQ (map (fun x => if decide (P x) then w else 0%Q) l) <= w)%Q.
Proof.
  intros Hw Huniq Hnd. induction Hnd as [|x l Hx Hnd IH].
  - cbn [map]. rewrite sumQ_nil. lra.
  - cbn [map]. rewrite sumQ_cons. destruct (decide (P x)) as [Hp|Hp].
    + rewrite sumQ_map_zero; [lra|].
      intros y Hy. destruct (decide (P y)) as [Hpy|_]; [|reflexivity].
      exfalso. apply Hx.
      assert (x = y) as -> by (apply Huniq; [left|by right|done|done]). done.
    + assert (Hrest : (sumQ (map (fun x => if decide (P x) then w else 0%Q) l) <= w)%Q).
      { apply IH. intros y z Hy Hz. apply Huniq; by right. }
      lra.
Qed.

(** Summed over the neighbours of [l], the betweenness of the edges at [l]
    and at the neighbour is at most the betweenness of the edges at [l]:
    an edge at [l] is at one neighbour at most. *)
Lemma incident_sums_bounded (l : nat) (adj_l : list nat) (edges : EdgeSeq) :
  NoDup adj_l -> l ∉ adj_l ->
  Forall (fun eb => (0 <= eb.2)%Q) edges ->
  Forall (fun eb => e_from eb.1 = l \/ e_to eb.1 = l) edges ->
  (sumQ (map (fun nb => sumQ (attr_bs (select_source_in [nb] edges))) adj_l)
   <= sumQ (attr_bs edges))%Q.
Proof.
  intros Hnd Hl Hw Hat. induction edges as [|[e w] edges IH].
  - rewrite sumQ_map_zero; [unfold attr_bs; cbn [map]; rewrite sumQ_nil; lra|].
    intros nb _. reflexivity.
  - apply Forall_cons in Hw as [Hw0 Hw]. apply Forall_cons in Hat as [Hat0 Hat].
    cbn [fst snd] in Hw0, Hat0.
    specialize (IH Hw Hat).
    set (at_nb := fun nb : nat => e_from e = nb \/ e_to e = nb).
    assert (Hstep : forall nb,
      (sumQ (attr_bs (select_source_in [nb] ((e, w) :: edges)))
       == (if decide (at_nb nb) then w else 0) + sumQ (attr_bs (select_source_in [nb] edges)))%Q).
    { intros nb. unfold select_source_in.
      change (filter ?P ((e, w) :: edges))
        with (if decide (e_from e ∈ [nb] \/ e_to e ∈ [nb])
              then (e, w) :: filter P edges else filter P edges).
      destruct (decide (e_from e ∈ [nb] \/ e_to e ∈ [nb])) as [Hin|Hin].
      - rewrite decide_True
          by (unfold at_nb; rewrite !list_elem_of_singleton in Hin; exact Hin).
        unfold attr_bs. cbn [map snd]. rewrite sumQ_cons. reflexivity.
      - rewrite decide_False
          by (unfold at_nb; rewrite !list_elem_of_singleton in Hin; exact Hin).
        rewrite Qplus_0_l. reflexivity. }
    assert (Hsum :
      (sumQ (map (fun nb => sumQ (attr_bs (select_source_in [nb] ((e, w) :: edges)))) adj_l)
       == sumQ (map (fun nb => if decide (at_nb nb) then w else 0%Q) adj_l)
          + sumQ (map (fun nb => sumQ (attr_bs (select_source_in [nb] edges))) adj_l))%Q).
    { rewrite <- sumQ_map_plus. apply sumQ_pointwise.
      rewrite !map_fmap. apply Forall2_fmap, Forall_Forall2_diag, Forall_forall.
      intros nb _. apply Hstep. }
    rewrite Hsum. unfold attr_bs at 2. cbn [map snd]. rewrite sumQ_cons.
    fold (attr_bs edges).
    assert (Honce : (sumQ (map (fun nb => if decide (at_nb nb) then w else 0%Q) adj_l) <= w)%Q).
    { apply sumQ_at_most_once; [done| |done].
      intros x y Hx Hy Hax Hay. unfold at_nb in Hax, Hay.
      assert (x <> l) by (intros ->; done). assert (y <> l) by (intros ->; done).
      lia. }
    lra.
Qed.

Section WalkBound.
Context {ig : IGraph}.

(** X10: at a vertex that is not its own neighbour and whose adjacency
    list names no neighbour twice, with edge betweenness that is not
    negative and does not add up to 0 at the vertex, the weights of the
    walk are not negative and add up to at most 1. *)
Theorem walk_mass_at_most_one problem l adj_l :
  adj_list_ problem !! l = Some adj_l ->
  NoDup adj_l ->
  l ∉ adj_l ->
  Forall (fun w => (0 <= w)%Q) (full_weights problem) ->
  Qeq_bool (incident_total problem l) 0 = false ->
  Forall (fun p => (0 <= p)%Q)
         (walk_weights (select_source_in [l] (graph_es problem)) (incident_total problem l)
            adj_l) /\
  (walk_mass problem l adj_l <= 1)%Q.
Proof.
  intros _ Hnd Hl Hw Htot.
  assert (Hpos : (0 < incident_total problem l)%Q).
  { pose proof (incident_total_nonneg problem l Hw) as H0.
    destruct (Qeq_dec (incident_total problem l) 0) as [Heq|Hne]; [|lra].
    apply Qeq_bool_iff in Heq. congruence. }
  set (edges := select_source_in [l] (graph_es problem)).
  assert (Hedges : Forall (fun eb => (0 <= eb.2)%Q) edges).
  { apply select_source_in_weights. by apply graph_es_weights. }
  split; [by apply walk_weights_nonneg|].
  unfold walk_mass, walk_weights. fold edges.
  set (total := incident_total problem l) in *.
  assert (Hle : (sumQ (map (fun nb =>
                   (inject_Z (Qtrunc (sumQ (attr_bs (select_source_in [nb] edges)))) / total)%Q)
                   adj_l)
                 <= sumQ (map (fun nb =>
                      (sumQ (attr_bs (select_source_in [nb] edges)) / total)%Q) adj_l))%Q).
  { apply sumQ_map_le. intros nb _.
    assert (Hs : (0 <= sumQ (attr_bs (select_source_in [nb] edges)))%Q).
    { apply sumQ_nonneg, attr_bs_weights. by apply select_source_in_weights. }
    apply Qtrunc_nonneg in Hs as [_ Hs].
    apply Qmult_le_compat_r; [done|]. apply Qinv_le_0_compat. lra. }
  eapply Qle_trans; [exact Hle|].
  assert (Hscaled : (sumQ (map (fun nb =>
                       (sumQ (attr_bs (select_source_in [nb] edges)) / total)%Q) adj_l)
                     == sumQ (map (fun nb => sumQ (attr_bs (select_source_in [nb] edges)))
                                  adj_l) / total)%Q).
  { rewrite <- (sumQ_scaled total
                  (map (fun nb => sumQ (attr_bs (select_source_in [nb] edges))) adj_l))
      by lra.
    apply sumQ_pointwise. rewrite !map_fmap, <- list_fmap_compose.
    apply Forall2_fmap, Forall_Forall2_diag, Forall_forall. intros nb _. reflexivity. }
  rewrite Hscaled.
  assert (Hbound : (sumQ (map (fun nb => sumQ (attr_bs (select_source_in [nb] edges))) adj_l)
                    <= total)%Q).
  { apply (incident_sums_bounded l adj_l edges); [done|done|done|].
    unfold edges, select_source_in. apply Forall_forall. intros eb Hin.
    apply list_elem_of_filter in Hin as [Hin _].
    rewrite !list_elem_of_singleton in Hin. exact Hin. }
  apply Qle_shift_div_r; [done|]. lra.
Qed.

End WalkBound.

Lemma walk_mass_at_most_one_witness :
  Forall (fun p => (0 <= p)%Q)
         (walk_weights (select_source_in [0%nat] (graph_es (k23_problem "3d")))
            (incident_total (k23_problem "3d") 0) [2; 3; 4]%nat) /\
  (walk_mass (k23_problem "3d") 0 [2; 3; 4]%nat <= 1)%Q.
Proof.
  apply (walk_mass_at_most_one (ig := k23_igraph) (k23_problem "3d") 0 [2; 3; 4]%nat).
  - reflexivity.
  - repeat constructor; intros H;
      repeat (apply elem_of_cons in H as [H|H]; [discriminate H|]);
      by apply elem_of_nil in H.
  - intros H. repeat (apply elem_of_cons in H as [H|H]; [discriminate H|]).
    by apply elem_of_nil in H.
  - simpl. repeat constructor; unfold Qle; simpl; lia.
  - vm_compute. reflexivity.
Defined.

(** ** The centrality-biased mutation returns *)

Lemma sumQ_pos l : l <> [] -> Forall (fun w => (0 < w)%Q) l -> (0 < sumQ l)%Q.
Proof.
  intros Hne Hl. destruct Hl as [|w l Hw Hl]; [done|].
  rewrite sumQ_cons.
  assert (Hs : (0 <= sumQ l)%Q).
  { apply sumQ_nonneg. eapply Forall_impl; [exact Hl|]. intros x Hx. cbn beta in Hx. lra. }
  lra.
Qed.

Lemma normalise_length freq total p :
  normalise freq total = Ok p -> length p = length freq.
Proof.
  intros Hn. destruct freq as [|x freq].
  - by injection Hn as <-.
  - apply normalise_Ok in Hn as [_ ->]; [|done]. by rewrite length_map.
Qed.

Section HOCMutationProperties.
Context {ig : IGraph}.

Lemma init_bounds m graph problem l a :
  MultiCriteriaProblem_init m graph = Ok problem ->
  adj_list_ problem !! l = Some a ->
  xl problem !! l = Some 0 /\ xu problem !! l = Some (Z.of_nat (length a)).
Proof.
  intros Hi Ha.
  destruct (init_fields _ _ _ Hi) as (_ & _ & _ & _ & _ & Hadj & _ & Hxu & Hxl & _).
  rewrite Hxl, Hxu. rewrite Hadj in Ha.
  split.
  - apply lookup_replicate_2. apply lookup_lt_Some in Ha.
    by rewrite length_get_adjlist in Ha.
  - unfold indegree. rewrite map_fmap, list_lookup_fmap, Ha. done.
Qed.

Lemma init_prob2_length m graph problem :
  MultiCriteriaProblem_init m graph = Ok problem ->
  length (prob2 problem) = length (betweenness graph).
Proof.
  unfold MultiCriteriaProblem_init. intros Hi.
  apply bind_Ok in Hi as (u1 & _ & Hi).
  apply bind_Ok in Hi as (u2 & _ & Hi).
  apply bind_Ok in Hi as (u3 & _ & Hi).
  apply bind_Ok in Hi as (u4 & _ & Hi).
  apply bind_Ok in Hi as (p1 & _ & Hi).
  apply bind_Ok in Hi as (p2 & Hp2 & Hi).
  apply bind_Ok in Hi as (p3 & _ & Hi).
  injection Hi as <-. cbn [prob2]. by eapply normalise_length.
Qed.

(** A vertex with a neighbour is an end of an edge, so that positive
    betweenness adds up to a positive sum there. *)
Lemma incident_total_pos m graph problem l :
  MultiCriteriaProblem_init m graph = Ok problem ->
  length (edge_betweenness graph) = length (es graph) ->
  Forall (fun w => (0 < w)%Q) (edge_betweenness graph) ->
  neighbors graph l <> [] ->
  (0 < incident_total problem l)%Q.
Proof.
  intros Hi Hlen Hw Hnb.
  destruct (init_fields _ _ _ Hi)
    as (_ & _ & _ & Hgr & _ & _ & _ & _ & _ & _ & _ & _ & Hfw & _).
  unfold incident_total, graph_es. rewrite Hgr, Hfw.
  destruct (neighbors graph l) as [|u nbs] eqn:Hn; [done|].
  assert (Hu : u ∈ neighbors graph l) by (rewrite Hn; left).
  apply elem_of_neighbors in Hu as (_ & e & He & Hs & Ht).
  apply list_elem_of_lookup in He as (i & Hei).
  destruct (lookup_lt_is_Some_2 (edge_betweenness graph) i) as [w Hwi].
  { rewrite Hlen. by eapply lookup_lt_Some. }
  assert (Hin : (e, w) ∈ select_source_in [l] (zip (es graph) (edge_betweenness graph))).
  { unfold select_source_in. apply list_elem_of_filter. split.
    - cbn [fst]. rewrite !list_elem_of_singleton. unfold source, target in Hs, Ht. lia.
    - apply list_elem_of_lookup. exists i. apply lookup_zip_with_Some. eauto. }
  apply sumQ_pos.
  - unfold attr_bs. intros Hnil. apply map_eq_nil in Hnil.
    rewrite Hnil in Hin. by apply elem_of_nil in Hin.
  - apply attr_bs_weights, select_source_in_weights.
    apply Forall_forall. intros [e' w'] Hin'. apply elem_of_zip_r in Hin'.
    rewrite Forall_forall in Hw. by apply Hw.
Qed.

(** X12: on a problem the constructor built for a graph in which every
    vertex has a neighbour, with one betweenness value per vertex and a
    positive one per edge, on rows no longer than the number of vertices
    and with draws in [[0, 1)], [HOCMutation._do] returns a population of
    the same shape in which every gene is the gene it was given or lies
    in [[xl[l] + 1, xu[l]]]: a mutated gene always selects a neighbour.
    It only moves the generator forward. *)
Theorem HOCMutation_keeps_genes_or_selects m graph problem X rs :
  MultiCriteriaProblem_init m graph = Ok problem ->
  length (betweenness graph) = vcount graph ->
  length (edge_betweenness graph) = length (es graph) ->
  Forall (fun w => (0 < w)%Q) (edge_betweenness graph) ->
  Forall (fun a => a <> []) (get_adjlist graph) ->
  Forall (fun row => (length row <= vcount graph)%nat) X ->
  unit_draws rs ->
  exists X' rs',
    HOCMutation_do problem X rs = Ok (X', rs') /\
    rewritten (within (xl problem) (xu problem)) X X' /\
    tape rs' = tape rs /\ (cursor rs <= cursor rs')%nat.
Proof.
  intros Hi Hb Heb Hpos Hdeg Hrows Hdraws.
  destruct (init_fields _ _ _ Hi) as (_ & _ & _ & _ & _ & Hadj & _).
  pose proof (init_prob2_length _ _ _ Hi) as Hp2.
  set (new := within (xl problem) (xu problem)).
  set (P := fun st : list (list Z) * RandomState =>
              rewritten new X st.1 /\ tape st.2 = tape rs /\ (cursor rs <= cursor st.2)%nat).
  unfold HOCMutation_do.
  destruct (for_each_total P
    (fun st i =>
      row ← py_get st.1 i;
      for_each (fun st l =>
          let rr := random st.2 in
          pl ← py_get (prob2 problem) l;
          if Qltb rr.1 pl then
            vr ← hoc_new_gene problem l rr.2;
            X' ← set_gene st.1 i l vr.1;
            Ok (X', vr.2)
          else Ok (st.1, rr.2))
        st (seq 0 (length row)))
    (seq 0 (length X))) with (s := (X, rs)) as ([X' rs'] & Hrun & HP).
  - intros st i Hi' HPst.
    apply elem_of_seq in Hi' as [_ Hi']. simpl in Hi'.
    destruct (lookup_lt_is_Some_2 X i Hi') as [row0 Hrow0].
    destruct HPst as (Hrw & Htape & Hcur).
    destruct (rewritten_row _ _ _ _ _ Hrw Hrow0) as (row & Hrow & Hlrow).
    apply py_get_Ok in Hrow as Hget. rewrite Hget, bind_Ok_l.
    assert (Hwidth : (length row <= vcount graph)%nat).
    { rewrite Hlrow. rewrite Forall_lookup in Hrows. by eapply Hrows. }
    apply for_each_total; [|done].
    intros [X1 rs1] l Hl (Hrw1 & Htape1 & Hcur1).
    apply elem_of_seq in Hl as [_ Hl]. simpl in Hl, Hrw1, Htape1, Hcur1.
    cbn [random next_draw fst snd].
    destruct (lookup_lt_is_Some_2 (prob2 problem) l) as [pl Hpl]; [lia|].
    apply py_get_Ok in Hpl as Hgpl. rewrite Hgpl, bind_Ok_l.
    destruct (Qltb _ _).
    + assert (Hln : (l < vcount graph)%nat) by lia.
      pose proof (lookup_get_adjlist_lt graph l Hln) as Ha.
      assert (Hne : neighbors graph l <> []).
      { rewrite Forall_lookup in Hdeg. by apply (Hdeg l). }
      rewrite <- Hadj in Ha.
      destruct (init_bounds _ _ _ _ _ Hi Ha) as [Hxl Hxu].
      assert (Htot : Qeq_bool (incident_total problem l) 0 = false).
      { pose proof (incident_total_pos m graph problem l Hi Heb Hpos Hne) as Ht.
        destruct (Qeq_bool (incident_total problem l) 0) eqn:E; [|done].
        apply Qeq_bool_iff in E. lra. }
      assert (Hlt : 0 < Z.of_nat (length (neighbors graph l))).
      { destruct (neighbors graph l); [done|]. simpl. lia. }
      destruct (hoc_new_gene_walk problem l {| tape := tape rs1; cursor := S (cursor rs1) |}
                  0 (Z.of_nat (length (neighbors graph l))) (neighbors graph l)
                  Hxl Hxu Ha Hlt) as [Hv Hg].
      { simpl. rewrite Htape1. apply Hdraws. }
      { simpl. rewrite Htape1. apply Hdraws. }
      { exact Htot. }
      cbn [tape cursor] in Hg, Hv. rewrite Hg, bind_Ok_l. cbn [fst snd].
      destruct (rewritten_row _ _ _ _ _ Hrw1 Hrow0) as (row1 & Hrow1 & Hlrow1).
      match goal with
      | |- context [set_gene X1 i l ?v] =>
          rewrite (set_gene_Ok X1 i l v row1 Hrow1) by lia;
          assert (Hnew : new l v)
      end.
      { exists 0, (Z.of_nat (length (neighbors graph l))).
        split; [done|]. split; [done|].
        destruct (first_exceeding _ _ _ _) as [h|] eqn:Hf; [|lia].
        apply first_exceeding_Some_range in Hf.
        unfold walk_weights in Hf. rewrite length_map in Hf. lia. }
      rewrite bind_Ok_l.
      eexists. split; [reflexivity|]. split; [|split; simpl; [done|lia]].
      simpl. eapply rewritten_trans; [exact Hrw1|].
      apply insert_rewritten; [done|lia|done].
    + eexists. split; [reflexivity|]. split; [done|]. split; simpl; [done|lia].
  - split; [apply rewritten_refl|]. split; [done|]. simpl. lia.
  - exists X', rs'. split; [exact Hrun|]. exact HP.
Qed.

End HOCMutationProperties.

Lemma HOCMutation_keeps_genes_or_selects_witness :
  exists X' rs',
    HOCMutation_do (k23_problem "3d") [[0; 1; 1; 1; 1]] example_rs = Ok (X', rs') /\
    rewritten (within (xl (k23_problem "3d")) (xu (k23_problem "3d")))
      [[0; 1; 1; 1; 1]] X' /\
    tape rs' = tape example_rs /\ (cursor example_rs <= cursor rs')%nat.
Proof.
  apply (HOCMutation_keeps_genes_or_selects (ig := k23_igraph) "3d" k23 (k23_problem "3d")
           [[0; 1; 1; 1; 1]] example_rs).
  - vm_compute. reflexivity.
  - reflexivity.
  - reflexivity.
  - simpl. repeat constructor; unfold Qlt; simpl; lia.
  - exact k23_has_no_isolated_vertex.
  - repeat constructor.
  - exact example_rs_unit_draws.
Defined.

(** The run of this example: the second draw 0 is below [prob2[1]] and
    gene 1 is mutated; the draws 9/10 and 9/10 that follow give the value
    3 and a walk that selects nothing (the weights add up to 6/7). *)
Example HOCMutation_k23 :
  HOCMutation_do (k23_problem "3d") [[0; 1; 1; 1; 1]] example_rs
  = Ok ([[0; 3; 1; 1; 1]], {| tape := tape example_rs; cursor := 7 |}).
Proof. vm_compute. reflexivity. Qed.

(** With every draw 0 after the first, all five genes are mutated, the
    last vertex included, and the walk selects the first neighbour each
    time. *)
Example HOCMutation_k23_mutates_every_gene :
  HOCMutation_do (k23_problem "3d") [[0; 1; 1; 1; 1]]
    {| tape := fun _ => 0%Q; cursor := 0 |}
  = Ok ([[1; 1; 1; 1; 1]], {| tape := fun _ => 0%Q; cursor := 15 |}).
Proof. vm_compute. reflexivity. Qed.
